(** * node-disk-cache: the cache index, expiration and eviction engines

    A shallow embedding of the class [NodeDiskCache] (the TypeScript source
    of the package) and the properties of its index bookkeeping.

    Conventions of the embedding.
    - One facade call, one timer callback or one cleaner tick runs without
      other callbacks interleaved at its [await] points.
    - The Artifact Store (fs-extra) and the disk usage probe are external:
      each operation receives their answers as arguments ([rm] tells which
      [fs.remove] calls succeed, a [Writer] tells what the write and the
      following [stat] give for a file name).
    - JavaScript numbers are idealised: byte counts are [Z], the file name
      counter is [nat], limits and ratios are exact rationals [Q].
    - Objects live in a heap and the index stores references, because timer
      callbacks and [delete]'s second argument hold cache items by
      reference. *)

From Stdlib Require Import ZArith QArith Lia.
From stdpp Require Import base option list strings.

Local Open Scope Z_scope.

(** ** Data model *)

(** Modelled from the spec: the declaration of [CacheItem] (file
    ./CacheItem) is not part of the sources at hand; the fields are the ones
    the class reads and writes ([fileName], [fileSize], [timeout],
    [refreshTimeoutWhenGet], [related]) and match the spec's CacheEntry.
    [timeout] is a reference to a timer object of the runtime; an
    undefined [refreshTimeoutWhenGet] is falsy and stored as [false]. *)
Record CacheItem : Type := mkCacheItem {
  fileName : nat;
  fileSize : Z;
  timeout : option nat;
  refreshTimeoutWhenGet : bool;
  related : option (list string)
}.

#[export] Instance CacheItem_inhabited : Inhabited CacheItem :=
  populate (mkCacheItem 0 0 None false None).

(** The timeout objects of the Node.js runtime. [setTimeout] creates one
    armed; when it is due the runtime takes it off its list and runs the
    callback; [clearTimeout] destroys it. The callback of every timer of
    this class is [() => this.delete(key, cache)], so the closure is the
    pair [(t_key, t_cache)]. *)
Inductive TimerStatus : Type := Armed | Fired | Cleared.

#[export] Instance TimerStatus_eq_dec : EqDecision TimerStatus.
Proof. solve_decision. Defined.

Record Timer : Type := mkTimer {
  t_key : string;
  t_cache : nat;
  t_delay : Z;
  t_start : Z;
  t_status : TimerStatus
}.

(** What can be thrown at the class. *)
Inductive Error : Type :=
  | WriteFailed (file : nat)
  | StatFailed (file : nat)
  | RemoveFailed (file : nat)
  | DiskUsageFailed
  | EmptyDirFailed (dir : string)
  | DirInUse (dir : string).

(** The three [console.error] call sites. *)
Inductive ConsoleMsg : Type :=
  | CleanFailed (e : Error)
  | UsageProbeFailed (e : Error)
  | RemoveCacheFailed (e : Error).

(** The volume policy captured by the closure given to [setInterval]. *)
Inductive Cleaner : Type :=
  | NoCleaner
  | AbsoluteCeiling (upLimit downTo : Q)
  | SpaceRatio (upLimitRate downLimitRate cleanAmount : Q).

(** One instance of the class together with the part of the runtime it
    acts on: the heap of cache items, the timers, the clock, the files the
    store has removed and the console. *)
Record Cache : Type := mkCache {
  _cacheDir : string;
  _cacheItems : list (string * nat);
  _defaultTimeout : Z;
  _defaultRefreshTimeoutWhenGet : bool;
  _cleaner : Cleaner;
  _cleanerTimer : option Z;
  _currentSize : Z;
  _fileNameIndex : nat;
  heap : list CacheItem;
  timers : list Timer;
  clock : Z;
  removed : list nat;
  console : list ConsoleMsg
}.

Definition size (s : Cache) : Z := _currentSize s.

(** ** Field updates *)

Definition set_fileSize (n : Z) (it : CacheItem) : CacheItem :=
  mkCacheItem (fileName it) n (timeout it) (refreshTimeoutWhenGet it) (related it).
Definition set_timeout (t : option nat) (it : CacheItem) : CacheItem :=
  mkCacheItem (fileName it) (fileSize it) t (refreshTimeoutWhenGet it) (related it).
Definition set_refreshTimeoutWhenGet (b : bool) (it : CacheItem) : CacheItem :=
  mkCacheItem (fileName it) (fileSize it) (timeout it) b (related it).
Definition set_related (r : option (list string)) (it : CacheItem) : CacheItem :=
  mkCacheItem (fileName it) (fileSize it) (timeout it) (refreshTimeoutWhenGet it) r.

Definition with_cacheItems (f : list (string * nat) -> list (string * nat)) (s : Cache) : Cache :=
  mkCache (_cacheDir s) (f (_cacheItems s)) (_defaultTimeout s)
    (_defaultRefreshTimeoutWhenGet s) (_cleaner s) (_cleanerTimer s) (_currentSize s)
    (_fileNameIndex s) (heap s) (timers s) (clock s) (removed s) (console s).
Definition with_cleanerTimer (f : option Z -> option Z) (s : Cache) : Cache :=
  mkCache (_cacheDir s) (_cacheItems s) (_defaultTimeout s)
    (_defaultRefreshTimeoutWhenGet s) (_cleaner s) (f (_cleanerTimer s)) (_currentSize s)
    (_fileNameIndex s) (heap s) (timers s) (clock s) (removed s) (console s).
Definition with_currentSize (f : Z -> Z) (s : Cache) : Cache :=
  mkCache (_cacheDir s) (_cacheItems s) (_defaultTimeout s)
    (_defaultRefreshTimeoutWhenGet s) (_cleaner s) (_cleanerTimer s) (f (_currentSize s))
    (_fileNameIndex s) (heap s) (timers s) (clock s) (removed s) (console s).
Definition with_fileNameIndex (f : nat -> nat) (s : Cache) : Cache :=
  mkCache (_cacheDir s) (_cacheItems s) (_defaultTimeout s)
    (_defaultRefreshTimeoutWhenGet s) (_cleaner s) (_cleanerTimer s) (_currentSize s)
    (f (_fileNameIndex s)) (heap s) (timers s) (clock s) (removed s) (console s).
Definition with_heap (f : list CacheItem -> list CacheItem) (s : Cache) : Cache :=
  mkCache (_cacheDir s) (_cacheItems s) (_defaultTimeout s)
    (_defaultRefreshTimeoutWhenGet s) (_cleaner s) (_cleanerTimer s) (_currentSize s)
    (_fileNameIndex s) (f (heap s)) (timers s) (clock s) (removed s) (console s).
Definition with_timers (f : list Timer -> list Timer) (s : Cache) : Cache :=
  mkCache (_cacheDir s) (_cacheItems s) (_defaultTimeout s)
    (_defaultRefreshTimeoutWhenGet s) (_cleaner s) (_cleanerTimer s) (_currentSize s)
    (_fileNameIndex s) (heap s) (f (timers s)) (clock s) (removed s) (console s).
Definition with_clock (f : Z -> Z) (s : Cache) : Cache :=
  mkCache (_cacheDir s) (_cacheItems s) (_defaultTimeout s)
    (_defaultRefreshTimeoutWhenGet s) (_cleaner s) (_cleanerTimer s) (_currentSize s)
    (_fileNameIndex s) (heap s) (timers s) (f (clock s)) (removed s) (console s).
Definition with_removed (f : list nat -> list nat) (s : Cache) : Cache :=
  mkCache (_cacheDir s) (_cacheItems s) (_defaultTimeout s)
    (_defaultRefreshTimeoutWhenGet s) (_cleaner s) (_cleanerTimer s) (_currentSize s)
    (_fileNameIndex s) (heap s) (timers s) (clock s) (f (removed s)) (console s).
Definition with_console (f : list ConsoleMsg -> list ConsoleMsg) (s : Cache) : Cache :=
  mkCache (_cacheDir s) (_cacheItems s) (_defaultTimeout s)
    (_defaultRefreshTimeoutWhenGet s) (_cleaner s) (_cleanerTimer s) (_currentSize s)
    (_fileNameIndex s) (heap s) (timers s) (clock s) (removed s) (f (console s)).

(** ** Computations of the class: state, exceptions, and fuel for [delete] *)

Inductive Res (A : Type) : Type :=
  | Ret (a : A) (s : Cache)
  | Throw (e : Error) (s : Cache)
  | OutOfFuel.
Arguments Ret {A} a s.
Arguments Throw {A} e s.
Arguments OutOfFuel {A}.

Definition M (A : Type) : Type := Cache -> Res A.

Definition ret {A} (a : A) : M A := fun s => Ret a s.
Definition throw {A} (e : Error) : M A := fun s => Throw e s.
Definition bind {A B} (m : M A) (k : A -> M B) : M B := fun s =>
  match m s with
  | Ret a s' => k a s'
  | Throw e s' => Throw e s'
  | OutOfFuel => OutOfFuel
  end.
Definition try_catch {A} (m : M A) (handler : Error -> M A) : M A := fun s =>
  match m s with
  | Ret a s' => Ret a s'
  | Throw e s' => handler e s'
  | OutOfFuel => OutOfFuel
  end.
Definition reads {A} (f : Cache -> A) : M A := fun s => Ret (f s) s.
Definition modify (f : Cache -> Cache) : M unit := fun s => Ret tt (f s).

Declare Scope cache_scope.
Delimit Scope cache_scope with cache.
Notation "x <- m ;; k" := (bind m (fun x => k))
  (at level 100, m at next level, right associativity) : cache_scope.
Notation "m ;; k" := (bind m (fun _ => k))
  (at level 100, right associativity) : cache_scope.
Local Open Scope cache_scope.

(** The state a computation leaves behind, whether it returned or threw. *)
Definition state_of {A} (s0 : Cache) (r : Res A) : Cache :=
  match r with Ret _ s => s | Throw _ s => s | OutOfFuel => s0 end.

(** [P] holds of the state a computation leaves behind. *)
Definition after {A} (r : Res A) (P : Cache -> Prop) : Prop :=
  match r with Ret _ s => P s | Throw _ s => P s | OutOfFuel => True end.

Definition returned {A} (r : Res A) : Prop :=
  match r with Ret _ _ => True | _ => False end.
Definition terminated {A} (r : Res A) : Prop :=
  match r with OutOfFuel => False | _ => True end.

(** [for (const x of array)] *)
Fixpoint for_of {A} (l : list A) (body : A -> M unit) : M unit :=
  match l with
  | [] => ret tt
  | x :: rest => body x ;; for_of rest body
  end.

(** ** The index: a JavaScript [Map] from keys to cache items

    Insertion ordered. [Map_set] on a key that is present replaces the value
    in place, on an absent one it appends. *)

Fixpoint Map_get (key : string) (m : list (string * nat)) : option nat :=
  match m with
  | [] => None
  | (k, v) :: rest => if decide (k = key) then Some v else Map_get key rest
  end.

Definition Map_has (key : string) (m : list (string * nat)) : bool :=
  bool_decide (is_Some (Map_get key m)).

Definition Map_delete (key : string) (m : list (string * nat)) : list (string * nat) :=
  filter (fun e => e.1 ≠ key) m.

Fixpoint Map_replace (key : string) (v : nat) (m : list (string * nat)) : list (string * nat) :=
  match m with
  | [] => []
  | (k, v') :: rest =>
      if decide (k = key) then (k, v) :: rest else (k, v') :: Map_replace key v rest
  end.

Definition Map_set (key : string) (v : nat) (m : list (string * nat)) : list (string * nat) :=
  if Map_has key m then Map_replace key v m else m ++ [(key, v)].

Inductive LoopCtl : Type := Continue | Break.

(** [for (const [key, cache] of this._cacheItems)]. The iterator of a Map is
    live: an entry deleted before the iterator reaches it is not visited.
    The bodies in this class only delete, so the loop is a walk over the
    entries present when it starts that skips the ones gone meanwhile. *)
Fixpoint for_of_entries (snapshot : list (string * nat))
    (body : string -> nat -> M LoopCtl) : M unit := fun s =>
  match snapshot with
  | [] => Ret tt s
  | (k, c) :: rest =>
      if decide (Map_get k (_cacheItems s) = Some c) then
        match body k c s with
        | Ret Continue s' => for_of_entries rest body s'
        | Ret Break s' => Ret tt s'
        | Throw e s' => Throw e s'
        | OutOfFuel => OutOfFuel
        end
      else for_of_entries rest body s
  end.

Definition for_of_Map (body : string -> nat -> M LoopCtl) : M unit := fun s =>
  for_of_entries (_cacheItems s) body s.

(** ** Heap and timers *)

Definition alloc (it : CacheItem) : M nat := fun s =>
  Ret (length (heap s)) (with_heap (fun h => h ++ [it]) s).
Definition deref (c : nat) : M CacheItem := reads (fun s => heap s !!! c).
Definition update (c : nat) (f : CacheItem -> CacheItem) : M unit :=
  modify (with_heap (alter f c)).

Definition setTimeout (key : string) (cache : nat) (delay : Z) : M nat := fun s =>
  Ret (length (timers s))
      (with_timers (fun ts => ts ++ [mkTimer key cache delay (clock s) Armed]) s).

Definition clear_timer (tm : Timer) : Timer :=
  mkTimer (t_key tm) (t_cache tm) (t_delay tm) (t_start tm) Cleared.
Definition clearTimeout (t : nat) : M unit :=
  modify (with_timers (alter clear_timer t)).

(** [timeout.refresh()]: restarts an armed timer from the current time and
    re-activates one that has already run its callback; a timer destroyed by
    [clearTimeout] stays destroyed (the runtime marks it with a negative
    idle time and [refresh] returns at once). *)
Definition refresh_timer (now : Z) (tm : Timer) : Timer :=
  match t_status tm with
  | Cleared => tm
  | _ => mkTimer (t_key tm) (t_cache tm) (t_delay tm) now Armed
  end.
Definition refresh (t : nat) : M unit :=
  now <- reads clock ;; modify (with_timers (alter (refresh_timer now) t)).

Definition deadline (tm : Timer) : Z := t_start tm + t_delay tm.

Definition console_error (m : ConsoleMsg) : M unit :=
  modify (with_console (fun l => l ++ [m])).

(** ** The Artifact Store and the disk usage probe, as seen by the class *)

(** What [await writer(filePath)] followed by [fs.promises.stat(filePath)]
    gives: the writer rejects, the stat rejects, or the file is there with
    its size. The value written, the append flag and the source path of a
    move only matter to the store; the class sees the answer. *)
Inductive WriteOutcome : Type :=
  | WriterFails
  | StatFails
  | Written (bytes : Z).

Definition Writer : Type := nat -> WriteOutcome.

(** [await fs.remove(path)] for the artifact named [file]; [rm file] tells
    whether the store removes it. *)
Definition fs_remove (rm : nat -> bool) (file : nat) : M unit :=
  if rm file then modify (with_removed (fun l => l ++ [file]))
  else throw (RemoveFailed file).

Record DiskUsage : Type := mkDiskUsage { available : Z; total : Z }.

Definition Qltb (x y : Q) : bool := negb (Qle_bool y x).
Definition Qmin' (x y : Q) : Q := if Qle_bool x y then x else y.

(** [usage.available / usage.total < r]; a division by zero gives an
    infinity or NaN, and only a negative infinity is below [r]. *)
Definition ratio_lt (a t : Z) (r : Q) : bool :=
  if t =? 0 then a <? 0 else Qltb (inject_Z a / inject_Z t) r.

(** ** The methods of the class *)

Definition clear_if_any (t : option nat) : M unit :=
  match t with Some t => clearTimeout t | None => ret tt end.

(** [_prepareWrite(writer, key, timeout, refreshTimeoutWhenGet, related)] *)
Definition _prepareWrite (writer : Writer) (key : string) (timeout_ms : Z)
    (refreshWhenGet : bool) (rel : option (list string)) : M unit :=
  items <- reads _cacheItems ;;
  cache <- match Map_get key items with
           | Some c => ret c
           | None =>
               n <- reads _fileNameIndex ;;
               modify (with_fileNameIndex S) ;;
               alloc (mkCacheItem n 0 None false None)
           end ;;
  it <- deref cache ;;
  clear_if_any (timeout it) ;;
  match writer (fileName it) with
  | WriterFails => throw (WriteFailed (fileName it))
  | StatFails => throw (StatFailed (fileName it))
  | Written status_size =>
      it <- deref cache ;;
      modify (with_currentSize (fun n => n - fileSize it)) ;;
      update cache (set_fileSize status_size) ;;
      it <- deref cache ;;
      modify (with_currentSize (fun n => n + fileSize it)) ;;
      update cache (set_refreshTimeoutWhenGet refreshWhenGet) ;;
      update cache (set_related rel) ;;
      (if 0 <? timeout_ms
       then t <- setTimeout key cache timeout_ms ;; update cache (set_timeout (Some t))
       else ret tt) ;;
      modify (with_cacheItems (Map_delete key)) ;;
      modify (with_cacheItems (Map_set key cache))
  end.

(** [set(key, value, isAppend, timeout, refreshTimeoutWhenGet, _related)];
    an omitted [timeout] or [refreshTimeoutWhenGet] takes the default of the
    instance. *)
Definition set (store : Writer) (key : string) (timeout_ms : option Z)
    (refreshWhenGet : option bool) (_related : option (list string)) : M unit :=
  dt <- reads _defaultTimeout ;;
  dr <- reads _defaultRefreshTimeoutWhenGet ;;
  _prepareWrite store key (default dt timeout_ms) (default dr refreshWhenGet) _related.

(** [move(key, from, timeout, refreshTimeoutWhenGet, _related)] *)
Definition move (store : Writer) (key : string) (from : string) (timeout_ms : option Z)
    (refreshWhenGet : option bool) (_related : option (list string)) : M unit :=
  dt <- reads _defaultTimeout ;;
  dr <- reads _defaultRefreshTimeoutWhenGet ;;
  _prepareWrite store key (default dt timeout_ms) (default dr refreshWhenGet) _related.

Record GroupItem : Type := mkGroupItem {
  gi_key : string;
  gi_from : option string;
  gi_timeout : option Z;
  gi_refreshTimeoutWhenGet : option bool;
  gi_store : Writer
}.

(** [if (item.from)]: defined and not the empty string. *)
Definition truthy_from (f : option string) : option string :=
  match f with
  | Some p => if decide (p = EmptyString) then None else Some p
  | None => None
  end.

(** [setGroup(items)] *)
Definition setGroup (items : list GroupItem) : M unit :=
  let rel := map gi_key items in
  for_of items (fun item =>
    match truthy_from (gi_from item) with
    | Some from =>
        move (gi_store item) (gi_key item) from (gi_timeout item)
             (gi_refreshTimeoutWhenGet item) (Some rel)
    | None =>
        set (gi_store item) (gi_key item) (gi_timeout item)
            (gi_refreshTimeoutWhenGet item) (Some rel)
    end).

(** The test and the two statements shared by [get] and [getStream]. *)
Definition refresh_on_read (key : string) (cache : nat) : M unit :=
  it <- deref cache ;;
  match refreshTimeoutWhenGet it, timeout it with
  | true, Some t =>
      refresh t ;;
      modify (with_cacheItems (Map_delete key)) ;;
      modify (with_cacheItems (Map_set key cache))
  | _, _ => ret tt
  end.

(** [get(key)]: the result is the name of the artifact handed to
    [fs.readFile], or [None] for [undefined]. *)
Definition get (key : string) : M (option nat) :=
  items <- reads _cacheItems ;;
  match Map_get key items with
  | Some cache =>
      refresh_on_read key cache ;;
      it <- deref cache ;;
      ret (Some (fileName it))
  | None => ret None
  end.

(** [getStream(key)]: likewise with [fs.createReadStream]. *)
Definition getStream (key : string) : M (option nat) :=
  items <- reads _cacheItems ;;
  match Map_get key items with
  | Some cache =>
      refresh_on_read key cache ;;
      it <- deref cache ;;
      ret (Some (fileName it))
  | None => ret None
  end.

(** [has(key)] *)
Definition has (key : string) (s : Cache) : bool := Map_has key (_cacheItems s).

(** [delete(key, _cache = this._cacheItems.get(key))]. The recursion through
    [related] ends because every call that does anything first takes its
    key out of the index; [fuel] bounds the depth. *)
Fixpoint delete_fuel (fuel : nat) (rm : nat -> bool) (key : string)
    (_cache : option nat) : M unit :=
  match fuel with
  | O => fun _ => OutOfFuel
  | S fuel' =>
      items <- reads _cacheItems ;;
      match from_option Some (Map_get key items) _cache with
      | None => ret tt
      | Some c =>
          modify (with_cacheItems (Map_delete key)) ;;
          it <- deref c ;;
          clear_if_any (timeout it) ;;
          it <- deref c ;;
          match related it with
          | Some rel => for_of rel (fun item => delete_fuel fuel' rm item None)
          | None => ret tt
          end ;;
          it <- deref c ;;
          fs_remove rm (fileName it) ;;
          it <- deref c ;;
          modify (with_currentSize (fun n => n - fileSize it))
      end
  end.

Definition delete (rm : nat -> bool) (key : string) (_cache : option nat) : M unit :=
  fun s => delete_fuel (S (S (length (_cacheItems s)))) rm key _cache s.

(** [empty()] *)
Definition empty (rm : nat -> bool) : M unit :=
  for_of_Map (fun key cache =>
    modify (with_cacheItems (Map_delete key)) ;;
    it <- deref cache ;;
    clear_if_any (timeout it) ;;
    try_catch
      (it <- deref cache ;;
       fs_remove rm (fileName it) ;;
       it <- deref cache ;;
       modify (with_currentSize (fun n => n - fileSize it)))
      (fun e => console_error (RemoveCacheFailed e)) ;;
    ret Continue).

(** [destroy()] *)
Definition destroy (rm : nat -> bool) : M unit :=
  modify (with_cleanerTimer (fun _ => None)) ;;
  empty rm.

(** ** The background engines *)

(** The walk shared by the two policies:
    [for (const item of this._cacheItems)
       if (this._currentSize > downTo) await this.delete(item[0], item[1]);
       else break;] *)
Definition evict (rm : nat -> bool) (downTo : Q) : M unit :=
  for_of_Map (fun key cache =>
    n <- reads _currentSize ;;
    if Qltb downTo (inject_Z n)
    then delete rm key (Some cache) ;; ret Continue
    else ret Break).

(** The callback given to [setInterval] under the absolute ceiling. *)
Definition clean_absolute (rm : nat -> bool) (upLimit downTo : Q) : M unit :=
  try_catch
    (n <- reads _currentSize ;;
     if Qltb upLimit (inject_Z n) then evict rm downTo else ret tt)
    (fun e => console_error (CleanFailed e)).

(** The callback given to [setInterval] under the available space ratio;
    [usage] is the answer of [diskusage.check], [None] when it rejects. *)
Definition clean_ratio (rm : nat -> bool) (usage : option DiskUsage)
    (upLimitRate downLimitRate cleanAmount : Q) : M unit :=
  try_catch
    (u <- match usage with Some u => ret u | None => throw DiskUsageFailed end ;;
     try_catch
       (if ratio_lt (available u) (total u) downLimitRate
        then
          n <- reads _currentSize ;;
          evict rm (inject_Z n - inject_Z (total u) * upLimitRate * cleanAmount)%Q
        else ret tt)
       (fun e => console_error (CleanFailed e)))
    (fun e => console_error (UsageProbeFailed e)).

(** One tick of the cleaner interval; nothing runs once [clearInterval] has
    been called or when no policy was configured. *)
Definition cleaner_tick (rm : nat -> bool) (usage : option DiskUsage) : M unit :=
  armed <- reads _cleanerTimer ;;
  policy <- reads _cleaner ;;
  match armed, policy with
  | Some _, AbsoluteCeiling upLimit downTo => clean_absolute rm upLimit downTo
  | Some _, SpaceRatio upLimitRate downLimitRate cleanAmount =>
      clean_ratio rm usage upLimitRate downLimitRate cleanAmount
  | _, _ => ret tt
  end.

Definition fire_timer (tm : Timer) : Timer :=
  mkTimer (t_key tm) (t_cache tm) (t_delay tm) (t_start tm) Fired.

(** The runtime runs the callback of timer [t] if it is armed and due:
    [() => this.delete(key, cache).catch(err => console.error(..., err))]. *)
Definition fire (rm : nat -> bool) (t : nat) : M unit :=
  ts <- reads timers ;;
  now <- reads clock ;;
  match ts !! t with
  | Some tm =>
      if decide (t_status tm = Armed) then
        if deadline tm <=? now then
          modify (with_timers (alter fire_timer t)) ;;
          try_catch (delete rm (t_key tm) (Some (t_cache tm)))
                    (fun e => console_error (CleanFailed e))
        else ret tt
      else ret tt
  | None => ret tt
  end.

(** Time passes. *)
Definition elapse (ms : Z) : M unit :=
  modify (with_clock (fun now => now + Z.max 0 ms)).

(** ** Construction and the registry of cache directories *)

Module Options.
(** Modelled from the spec: the declaration of [NodeDiskCacheOptions] (file
    ./NodeDiskCacheOptions) is not part of the sources at hand; the fields
    are the options the constructor reads, as listed in the spec's
    configuration surface. *)
Record t : Type := mk {
  cacheDir : option string;
  volumeUpLimit : option Q;
  volumeUpLimitRate : option Q;
  cleanAmount : option Q;
  cleanInterval : option Z;
  timeout : option Z;
  refreshTimeoutWhenGet : option bool
}.
Definition none : t := mk None None None None None None None.
End Options.

(** [x as number > 0] for an optional number. *)
Definition positive_opt (x : option Q) : bool :=
  match x with Some q => Qltb 0 q | None => false end.

(** The policy and the interval the constructor installs. *)
Definition new_cleaner (o : Options.t) : Cleaner * option Z :=
  if positive_opt (Options.volumeUpLimit o) then
    let upLimit := default 0%Q (Options.volumeUpLimit o) in
    let cleanAmount := Qmin' (default (1 # 10)%Q (Options.cleanAmount o)) 1 in
    let downTo := (upLimit * (1 - cleanAmount))%Q in
    (AbsoluteCeiling upLimit downTo, Some (default (60 * 1000) (Options.cleanInterval o)))
  else if positive_opt (Options.volumeUpLimitRate o) then
    let upLimitRate := Qmin' (default 0%Q (Options.volumeUpLimitRate o)) 1 in
    let downLimitRate := (1 - upLimitRate)%Q in
    let cleanAmount := Qmin' (default (1 # 10)%Q (Options.cleanAmount o)) 1 in
    (SpaceRatio upLimitRate downLimitRate cleanAmount,
     Some (default (60 * 1000) (Options.cleanInterval o)))
  else (NoCleaner, None).

Inductive NewRes : Type :=
  | Constructed (dirs : list string) (c : Cache)
  | NewThrow (e : Error) (dirs : list string).

(** The instance a successful [new NodeDiskCache(options)] builds for the
    directory [dir]: the field initialisers and the assignments of the
    constructor. *)
Definition initial (options : Options.t) (dir : string) (now : Z) : Cache :=
  let '(policy, interval) := new_cleaner options in
  mkCache dir []
    (match Options.timeout options with
     | Some ms => if 0 <? ms then ms else 0
     | None => 0
     end)
    (default false (Options.refreshTimeoutWhenGet options))
    policy interval 0 0%nat [] [] now [] [].

(** [new NodeDiskCache(options)] against the static [_cacheDirList]
    ([dirs]). [tmp] is the random directory name the constructor would
    draw, [emptyDirOk] whether [fs.emptyDirSync] succeeds. *)
Definition constructor (options : Options.t) (tmp : string) (emptyDirOk : bool)
    (now : Z) (dirs : list string) : NewRes :=
  let dir := default tmp (Options.cacheDir options) in
  if bool_decide (dir ∈ dirs) then NewThrow (DirInUse dir) dirs
  else if negb emptyDirOk then NewThrow (EmptyDirFailed dir) dirs
  else Constructed (dirs ++ [dir]) (initial options dir now).

(** ** Everything that can happen to an instance *)

Inductive Action : Type :=
  | ASet (store : Writer) (key : string) (timeout_ms : option Z) (refreshWhenGet : option bool)
  | AMove (store : Writer) (key from : string) (timeout_ms : option Z)
      (refreshWhenGet : option bool)
  | ASetGroup (items : list GroupItem)
  | AGet (key : string)
  | AGetStream (key : string)
  | AHas (key : string)
  | ADelete (rm : nat -> bool) (key : string)
  | AEmpty (rm : nat -> bool)
  | ADestroy (rm : nat -> bool)
  | ATick (rm : nat -> bool) (usage : option DiskUsage)
  | AFire (rm : nat -> bool) (t : nat)
  | AElapse (ms : Z).

Definition step (a : Action) : M unit :=
  match a with
  | ASet store key t r => set store key t r None
  | AMove store key from t r => move store key from t r None
  | ASetGroup items => setGroup items
  | AGet key => get key ;; ret tt
  | AGetStream key => getStream key ;; ret tt
  | AHas key => ret tt
  | ADelete rm key => delete rm key None
  | AEmpty rm => empty rm
  | ADestroy rm => destroy rm
  | ATick rm usage => cleaner_tick rm usage
  | AFire rm t => fire rm t
  | AElapse ms => elapse ms
  end.

Definition exec (a : Action) (s : Cache) : Cache := state_of s (step a s).

Definition run (l : list Action) (s : Cache) : Cache := foldl (fun s a => exec a s) s l.

(** ** Several instances in one process *)

(** The static [_cacheDirList] and the instances created so far. *)
Record Process : Type := mkProcess {
  _cacheDirList : list string;
  instances : list Cache
}.

Inductive PAction : Type :=
  | PNew (options : Options.t) (tmp : string) (emptyDirOk : bool)
  | PCall (i : nat) (a : Action).

Definition pstep (a : PAction) (p : Process) : Process :=
  match a with
  | PNew options tmp emptyDirOk =>
      match constructor options tmp emptyDirOk 0 (_cacheDirList p) with
      | Constructed dirs c => mkProcess dirs (instances p ++ [c])
      | NewThrow _ dirs => mkProcess dirs (instances p)
      end
  | PCall i a => mkProcess (_cacheDirList p) (alter (exec a) i (instances p))
  end.

Definition prun (l : list PAction) (p : Process) : Process :=
  foldl (fun p a => pstep a p) p l.

(** ** Vocabulary of the statements *)

Definition keys (s : Cache) : list string := (_cacheItems s).*1.

Definition item_of (s : Cache) (c : nat) : CacheItem := heap s !!! c.

Definition entry_file (s : Cache) (e : string * nat) : nat := fileName (item_of s e.2).
Definition entry_size (s : Cache) (e : string * nat) : Z := fileSize (item_of s e.2).

Definition Zsum (l : list Z) : Z := foldr Z.add 0 l.

Definition sum_sizes (s : Cache) (l : list (string * nat)) : Z :=
  Zsum (map (entry_size s) l).

(** [_currentSize] is the sum of the sizes of the indexed items. *)
Definition size_consistent (s : Cache) : Prop :=
  _currentSize s = sum_sizes s (_cacheItems s).

(** A timer that can still run is the one its item holds, and the item is
    the one indexed under the timer's key. *)
Definition timer_ok (s : Cache) (p : nat * Timer) : Prop :=
  t_status p.2 ≠ Fired ∧
  (t_status p.2 = Armed ->
     Map_get (t_key p.2) (_cacheItems s) = Some (t_cache p.2) ∧
     timeout (item_of s (t_cache p.2)) = Some p.1).

(** The shape of the states the class produces when its operations do not
    overlap: unique keys, every key its own item, items named by the
    counter in the order of their creation, timers as above. *)
Definition wf (s : Cache) : Prop :=
  NoDup (_cacheItems s).*1 ∧
  NoDup (_cacheItems s).*2 ∧
  Forall (fun e => (e.2 < length (heap s))%nat) (_cacheItems s) ∧
  length (heap s) = _fileNameIndex s ∧
  map fileName (heap s) = seq 0 (length (heap s)) ∧
  Forall (timer_ok s) (imap pair (timers s)).

#[export] Instance timer_ok_dec s p : Decision (timer_ok s p).
Proof. unfold timer_ok. apply _. Defined.

#[export] Instance wf_dec s : Decision (wf s).
Proof. unfold wf. apply _. Defined.

(** What no deletion touches. *)
Definition same_items (s s' : Cache) : Prop :=
  heap s' = heap s ∧ _fileNameIndex s' = _fileNameIndex s ∧
  _cleaner s' = _cleaner s ∧ _cleanerTimer s' = _cleanerTimer s ∧
  _defaultTimeout s' = _defaultTimeout s ∧
  _defaultRefreshTimeoutWhenGet s' = _defaultRefreshTimeoutWhenGet s ∧
  _cacheDir s' = _cacheDir s ∧ clock s' = clock s ∧
  console s' = console s.

(** The timers of [s'] are those of [s], some of them cleared. *)
Definition only_cleared (s s' : Cache) : Prop :=
  length (timers s') = length (timers s) ∧
  forall t tm', timers s' !! t = Some tm' ->
    exists tm, timers s !! t = Some tm ∧ (tm' = tm ∨ tm' = clear_timer tm).


(** The index of [s'] is the index of [s] restricted to the keys still
    present: nothing was added, nothing reordered. *)
Definition survives (s s' : Cache) : Prop :=
  _cacheItems s' = filter (fun e => e.1 ∈ keys s') (_cacheItems s).

(** The entries of [s] that are no longer indexed in [s']. *)
Definition gone (s s' : Cache) : list (string * nat) :=
  filter (fun e => e.1 ∉ keys s') (_cacheItems s).

(** The artifacts removed between [s] and [s'] are those of the entries
    that left the index, each one once, and [_currentSize] went down by
    their sizes. *)
Definition removed_of (D : list (string * nat)) (s s' : Cache) : Prop :=
  exists L, removed s' = removed s ++ L ∧
            L ≡ₚ map (entry_file s) D ∧
            _currentSize s' = _currentSize s - sum_sizes s D.

Definition accounted (s s' : Cache) : Prop := removed_of (gone s s') s s'.

(** What a call of [delete] leaves as it was. *)
Definition delete_keeps (s s' : Cache) : Prop :=
  same_items s s' ∧ only_cleared s s' ∧ survives s s'.

(** The state just after [delete] has taken [key] out of the index and
    cleared the timer of its item [c]. *)
Definition detach (key : string) (c : nat) (s : Cache) : Cache :=
  let s1 := with_cacheItems (Map_delete key) s in
  match timeout (item_of s1 c) with
  | Some t => with_timers (alter clear_timer t) s1
  | None => s1
  end.

(** The last two statements of [delete] and of the [try] block of [empty]:
    remove the artifact of [c], then subtract its size. *)
Definition remove_artifact (rm : nat -> bool) (c : nat) : M unit :=
  it <- deref c ;;
  fs_remove rm (fileName it) ;;
  it <- deref c ;;
  modify (with_currentSize (fun n => n - fileSize it)).

Definition and_then {A B} (r : Res A) (k : A -> M B) : Res B :=
  match r with
  | Ret a s => k a s
  | Throw e s => Throw e s
  | OutOfFuel => OutOfFuel
  end.

(** The call tree of [delete]: a call on an absent key returns at once; a
    call on a present key detaches it, runs the calls for the related keys
    in order until one throws, and then removes the artifact. *)
Inductive Deletes (rm : nat -> bool) : string -> option nat -> Cache -> Res unit -> Prop :=
  | Deletes_absent key s :
      Map_get key (_cacheItems s) = None ->
      Deletes rm key None s (Ret tt s)
  | Deletes_present key oc c s r :
      from_option Some (Map_get key (_cacheItems s)) oc = Some c ->
      DeletesAll rm (default [] (related (item_of s c))) (detach key c s) r ->
      Deletes rm key oc s (and_then r (fun _ => remove_artifact rm c))
with DeletesAll (rm : nat -> bool) : list string -> Cache -> Res unit -> Prop :=
  | DeletesAll_nil s : DeletesAll rm [] s (Ret tt s)
  | DeletesAll_ret item rest s s1 r :
      Deletes rm item None s (Ret tt s1) ->
      DeletesAll rm rest s1 r ->
      DeletesAll rm (item :: rest) s r
  | DeletesAll_throw item rest s e s1 :
      Deletes rm item None s (Throw e s1) ->
      DeletesAll rm (item :: rest) s (Throw e s1).

Scheme Deletes_mut := Induction for Deletes Sort Prop
  with DeletesAll_mut := Induction for DeletesAll Sort Prop.
Combined Scheme Deletes_mutind from Deletes_mut, DeletesAll_mut.

(** The eviction walk: while [_currentSize] is above [downTo], the oldest
    entry of the index is deleted; the walk ends when the target is reached,
    when nothing is left, or when a deletion throws. *)
Inductive Walk (rm : nat -> bool) (downTo : Q) : Cache -> Res unit -> Prop :=
  | Walk_reached s :
      (inject_Z (_currentSize s) <= downTo)%Q ->
      Walk rm downTo s (Ret tt s)
  | Walk_exhausted s :
      _cacheItems s = [] ->
      (downTo < inject_Z (_currentSize s))%Q ->
      Walk rm downTo s (Ret tt s)
  | Walk_evict k c rest s s1 r :
      _cacheItems s = (k, c) :: rest ->
      (downTo < inject_Z (_currentSize s))%Q ->
      delete rm k (Some c) s = Ret tt s1 ->
      Walk rm downTo s1 r ->
      Walk rm downTo s r
  | Walk_failed k c rest s e s1 :
      _cacheItems s = (k, c) :: rest ->
      (downTo < inject_Z (_currentSize s))%Q ->
      delete rm k (Some c) s = Throw e s1 ->
      Walk rm downTo s (Throw e s1).

(** Where the entries of [s'] come from: an entry indexed in [s'] was
    indexed in [s] under the same key, or its item was created after [s]. *)
Definition origin (s s' : Cache) : Prop :=
  (length (heap s) <= length (heap s'))%nat ∧
  forall k c, Map_get k (_cacheItems s') = Some c ->
    Map_get k (_cacheItems s) = Some c ∨ (length (heap s) <= c)%nat.

(** Well-formed and reached from [s0]. *)
Definition stable (s0 s : Cache) : Prop := wf s ∧ origin s0 s.

(** The keys of [R] that are indexed all carry [R] as their related list:
    what [setGroup] leaves for its batch. *)
Definition is_group (R : list string) (s : Cache) : Prop :=
  forall k c, k ∈ R -> Map_get k (_cacheItems s) = Some c ->
    related (item_of s c) = Some R.

(** [key] is indexed and its item has [R] as related list. *)
Definition grouped (R : list string) (s : Cache) (key : string) : Prop :=
  exists c, Map_get key (_cacheItems s) = Some c ∧ related (item_of s c) = Some R.

(** No entry other than the one of [key] lists [key] as related. *)
Definition unlisted (key : string) (s : Cache) : Prop :=
  forall k' c', Map_get k' (_cacheItems s) = Some c' -> k' ≠ key ->
    key ∉ default [] (related (item_of s c')).

(** No timer that can still run is a timer of [key]. *)
Definition no_own_timer (key : string) (s : Cache) : Prop :=
  forall t tm, timers s !! t = Some tm -> t_status tm = Armed -> t_key tm ≠ key.

(** [key] is indexed on item [c], has no timer of its own and is listed by
    no other entry. *)
Definition settled (key : string) (c : nat) (s : Cache) : Prop :=
  wf s ∧ Map_get key (_cacheItems s) = Some c ∧ no_own_timer key s ∧ unlisted key s.

(** A [set] or a [move] on [key], as the caller issues them. *)
Definition is_write (a : Action) (key : string) : Prop :=
  match a with
  | ASet _ k _ _ => k = key
  | AMove _ k _ _ _ => k = key
  | _ => False
  end.

(** The file name [_prepareWrite] hands to the writer for [key]. *)
Definition write_target (key : string) (s : Cache) : nat :=
  match Map_get key (_cacheItems s) with
  | Some c => fileName (item_of s c)
  | None => _fileNameIndex s
  end.

(** The three stages of [_prepareWrite]: the item is looked up or created,
    its old timer is cleared, and after a successful write the item and the
    index are updated. *)
Definition reserve (key : string) (s : Cache) : nat * Cache :=
  match Map_get key (_cacheItems s) with
  | Some c => (c, s)
  | None =>
      (length (heap s),
       with_heap (fun h => h ++ [mkCacheItem (_fileNameIndex s) 0 None false None])
         (with_fileNameIndex S s))
  end.

Definition clear_old (c : nat) (s : Cache) : Cache :=
  match timeout (item_of s c) with
  | Some t => with_timers (alter clear_timer t) s
  | None => s
  end.

Definition commit (key : string) (c : nat) (status_size timeout_ms : Z)
    (refreshWhenGet : bool) (rel : option (list string)) (s : Cache) : Cache :=
  let s := with_currentSize (fun n => n - fileSize (item_of s c)) s in
  let s := with_heap (alter (set_fileSize status_size) c) s in
  let s := with_currentSize (fun n => n + fileSize (item_of s c)) s in
  let s := with_heap (alter (set_refreshTimeoutWhenGet refreshWhenGet) c) s in
  let s := with_heap (alter (set_related rel) c) s in
  let s :=
    if 0 <? timeout_ms then
      with_heap (alter (set_timeout (Some (length (timers s)))) c)
        (with_timers (fun ts => ts ++ [mkTimer key c timeout_ms (clock s) Armed]) s)
    else s in
  with_cacheItems (Map_set key c) (with_cacheItems (Map_delete key) s).

Arguments commit : simpl never.

(** What [commit] makes of the item. *)
Definition written_item (status_size timeout_ms : Z) (refreshWhenGet : bool)
    (rel : option (list string)) (new_timer : nat) (it : CacheItem) : CacheItem :=
  mkCacheItem (fileName it) status_size
    (if 0 <? timeout_ms then Some new_timer else timeout it) refreshWhenGet rel.

(** The move to the end of the order done by a refreshing read. *)
Definition touch (key : string) (c : nat) (t : nat) (s : Cache) : Cache :=
  with_cacheItems (Map_set key c)
    (with_cacheItems (Map_delete key)
       (with_timers (alter (refresh_timer (clock s)) t) s)).

(** The body of the loop of [empty], and the state it leaves for one
    entry. *)
Definition empty_body (rm : nat -> bool) (key : string) (cache : nat) : M LoopCtl :=
  modify (with_cacheItems (Map_delete key)) ;;
  it <- deref cache ;;
  clear_if_any (timeout it) ;;
  try_catch
    (it <- deref cache ;;
     fs_remove rm (fileName it) ;;
     it <- deref cache ;;
     modify (with_currentSize (fun n => n - fileSize it)))
    (fun e => console_error (RemoveCacheFailed e)) ;;
  ret Continue.

Definition empty_step (rm : nat -> bool) (s : Cache) (e : string * nat) : Cache :=
  let s1 := detach e.1 e.2 s in
  if rm (fileName (item_of s1 e.2))
  then with_currentSize (fun n => n - fileSize (item_of s1 e.2))
         (with_removed (fun l => l ++ [fileName (item_of s1 e.2)]) s1)
  else with_console
         (fun l => l ++ [RemoveCacheFailed (RemoveFailed (fileName (item_of s1 e.2)))]) s1.

(** Whether the store removes the artifact of an entry. *)
Definition removable (rm : nat -> bool) (s : Cache) (e : string * nat) : Prop :=
  rm (entry_file s e) = true.

#[export] Instance removable_dec rm s e : Decision (removable rm s e).
Proof. unfold removable. apply _. Defined.

Definition remove_failure (s : Cache) (e : string * nat) : ConsoleMsg :=
  RemoveCacheFailed (RemoveFailed (entry_file s e)).

(** The body of the loop of [evict]. *)
Definition evict_body (rm : nat -> bool) (downTo : Q) (key : string) (cache : nat) :
    M LoopCtl :=
  n <- reads _currentSize ;;
  if Qltb downTo (inject_Z n)
  then delete rm key (Some cache) ;; ret Continue
  else ret Break.

(** Reads and the passing of time: the actions that are neither a write nor
    a deletion asked for by the caller or by the cleaner. *)
Definition passive (a : Action) : bool :=
  match a with
  | AGet _ | AGetStream _ | AHas _ | AFire _ _ | AElapse _ => true
  | _ => false
  end.

(** ** Vocabulary of the statements about whole runs *)

(** What the class declares [readonly] keeps its value; the cleaner
    interval is what it was, or has been cleared. *)
Definition keeps_config (s s' : Cache) : Prop :=
  _cacheDir s' = _cacheDir s ∧
  _defaultTimeout s' = _defaultTimeout s ∧
  _defaultRefreshTimeoutWhenGet s' = _defaultRefreshTimeoutWhenGet s ∧
  _cleaner s' = _cleaner s ∧
  (_cleanerTimer s' = _cleanerTimer s ∨ _cleanerTimer s' = None).

(** The store removes every artifact the action asks it to remove. *)
Definition reliable (a : Action) : Prop :=
  match a with
  | ADelete rm _ | AEmpty rm | ADestroy rm | ATick rm _ | AFire rm _ =>
      forall f, rm f = true
  | _ => True
  end.

(** The size recorded for [key], 0 when the key is not indexed. *)
Definition recorded_size (key : string) (s : Cache) : Z :=
  match Map_get key (_cacheItems s) with
  | Some c => fileSize (item_of s c)
  | None => 0
  end.

(** No timer of the instance can still run. *)
Definition nothing_armed (s : Cache) : Prop :=
  forall t tm, timers s !! t = Some tm -> t_status tm = Cleared.

(** The registry lists the directories of the instances created so far, in
    the order of their creation and each one once, and the instances are
    well formed. *)
Definition registry_ok (p : Process) : Prop :=
  _cacheDirList p = _cacheDir <$> instances p ∧
  NoDup (_cacheDirList p) ∧
  Forall wf (instances p).

(** The keys an action writes. *)
Definition written_keys (a : Action) : list string :=
  match a with
  | ASet _ k _ _ => [k]
  | AMove _ k _ _ _ => [k]
  | ASetGroup items => map gi_key items
  | _ => []
  end.

(** If [key] is indexed in [s'], it was indexed in [s], on the same item,
    and the item is what it was. *)
Definition untouched (key : string) (s s' : Cache) : Prop :=
  forall c, Map_get key (_cacheItems s') = Some c ->
    Map_get key (_cacheItems s) = Some c ∧ item_of s' c = item_of s c.

(** The artifacts the store has removed were each removed once, carry file
    names the counter has handed out, and none of them is the artifact of
    an indexed entry. *)
Definition clean_store (s : Cache) : Prop :=
  NoDup (removed s) ∧
  (forall f, f ∈ removed s -> (f < _fileNameIndex s)%nat) ∧
  (forall e, e ∈ _cacheItems s -> entry_file s e ∉ removed s).

(** ** Concrete instances used as witnesses *)

Definition fresh : Cache := initial Options.none "/tmp/NodeDiskCache_1" 0.

Definition stores (bytes : Z) : Writer := fun _ => Written bytes.
Definition store_fails : Writer := fun _ => WriterFails.
Definition rm_ok : nat -> bool := fun _ => true.
Definition rm_fails_on (file : nat) : nat -> bool := fun f => negb (Nat.eqb f file).

(** Two plain entries, "a" (5 bytes) older than "b" (7 bytes). *)
Definition two_entries : Cache :=
  run [ASet (stores 5) "a" None None; ASet (stores 7) "b" None None] fresh.

(** A process that creates a cache on "/data/cache", uses it and destroys
    it. *)
Definition on_data_cache : Options.t :=
  Options.mk (Some "/data/cache") None None None None None None.

Definition used_and_destroyed : list PAction :=
  [PCall 0 (ASet (stores 5) "a" None None); PCall 0 (ADestroy rm_ok)].

(** A group of two: "a" with a timeout of 50 ms, "b" with timeout 0. *)
Definition group_ab : list GroupItem :=
  [mkGroupItem "a" None (Some 50) None (stores 1);
   mkGroupItem "b" None (Some 0) None (stores 2)].

Definition grouped_ab : Cache := run [ASetGroup group_ab] fresh.

(** The example of the spec: a ceiling of 1000 bytes, [cleanAmount] 0.5,
    and three entries of 400 bytes. *)
Definition ceiling_1000 : Options.t :=
  Options.mk None (Some 1000%Q) None (Some (1 # 2)%Q) None None None.

Definition over_ceiling : Cache :=
  run [ASet (stores 400) "a" None None; ASet (stores 400) "b" None None;
       ASet (stores 400) "c" None None]
      (initial ceiling_1000 "/tmp/NodeDiskCache_2" 0).




(** "k" written with a timeout of 50 ms and refresh on read, written again
    with timeout 0, then "j" written. *)
Definition stale_handle : Cache :=
  run [ASet (stores 5) "k" (Some 50) (Some true);
       ASet (stores 5) "k" (Some 0) (Some true);
       ASet (stores 3) "j" None None] fresh.

(** "k" written with a timeout of 50 ms and refresh on read, then written
    again with timeout 0. *)
Definition once_timed : Cache :=
  run [ASet (stores 5) "k" (Some 50) (Some true)] fresh.

Definition retimed : Cache :=
  run [ASet (stores 5) "k" (Some 0) (Some true)] once_timed.

Definition reads_and_time : list Action :=
  [AGet "k"; AElapse 100; AFire rm_ok 0; AGetStream "k"; AElapse 100; AFire rm_ok 0].

(** An instance whose default timeout is 50 ms, and "k" written without a
    timeout of its own. *)
Definition default_50 : Options.t :=
  Options.mk None None None None None (Some 50) None.

Definition defaulted : Cache :=
  run [ASet (stores 5) "k" None None] (initial default_50 "/tmp/NodeDiskCache_4" 0).

(** A run that uses every operation, with a store that removes what it is
    asked to remove. *)
Definition busy_day : list Action :=
  [ASet (stores 5) "a" (Some 50) (Some true);
   ASetGroup group_ab;
   AMove (stores 9) "c" "/incoming/c" None None;
   AGet "a"; AGetStream "c"; AHas "b";
   ASet store_fails "c" None None;
   AElapse 60; AFire rm_ok 1;
   ASet (stores 3) "d" None None;
   ADelete rm_ok "c";
   ATick rm_ok None;
   AEmpty rm_ok;
   ASet (stores 4) "e" (Some 10) None;
   ADestroy rm_ok].

(** A cache allowed to use the whole volume, and a volume with nothing
    available. *)
Definition whole_volume : Options.t :=
  Options.mk None None (Some 2%Q) None None None None.

Definition volume_full : DiskUsage := mkDiskUsage 0 10000.

Definition on_whole_volume : Cache :=
  run [ASet (stores 100) "a" None None] (initial whole_volume "/tmp/NodeDiskCache_5" 0).

(** Constructions that succeed, fail on the directory, and repeat a
    directory, with calls in between. *)
Definition three_news : list PAction :=
  [PNew on_data_cache "/tmp/NodeDiskCache_7" true;
   PCall 0 (ASet (stores 5) "a" None None);
   PNew on_data_cache "/tmp/NodeDiskCache_8" true;
   PNew Options.none "/tmp/NodeDiskCache_9" false;
   PNew Options.none "/tmp/NodeDiskCache_9" true;
   PCall 1 (ADestroy rm_ok)].

(** A batch whose second member cannot be written. *)
Definition batch_written : list GroupItem := [mkGroupItem "a" None None None (stores 1)].
Definition batch_bad : GroupItem := mkGroupItem "b" None None None store_fails.
Definition batch_rest : list GroupItem := [mkGroupItem "c" None None None (stores 3)].

(** Calls that do not write "a". *)
Definition around_a : list Action :=
  [ASet (stores 1) "b" None None; AGet "a"; ADelete rm_ok "b";
   ATick rm_ok None; AElapse 10; AFire rm_ok 0].

(** The group of "a" and "b", 60 ms after it was written. *)
Definition grouped_ab_later : Cache := run [AElapse 60] grouped_ab.

Definition only_ceiling_and_rate : Options.t :=
  Options.mk None (Some 1000%Q) (Some (1 # 2)%Q) None None None None.

(** The group of "a" and "b", after "b" was written again on its own. *)
Definition b_rewritten : Cache := run [ASet (stores 4) "b" None None] grouped_ab.

(** * Properties *)

(** ** The index as a Map *)

Section MapFacts.
Implicit Types (m : list (string * nat)) (k : string) (v : nat).

Lemma Map_get_elem m k v : Map_get k m = Some v -> (k, v) ∈ m.
Proof.
  induction m as [|[k' v'] m IH]; simpl; [done|].
  destruct (decide (k' = k)) as [->|Hne].
  - intros [= ->]. left.
  - intros H. right. auto.
Qed.

Lemma Map_get_None m k : Map_get k m = None <-> k ∉ m.*1.
Proof.
  induction m as [|[k' v'] m IH]; simpl.
  - split; [intros _; apply not_elem_of_nil | done].
  - destruct (decide (k' = k)) as [->|Hne].
    + split; [done|]. intros H. exfalso. apply H. left.
    + rewrite IH. rewrite not_elem_of_cons. naive_solver.
Qed.

Lemma Map_get_is_Some m k : is_Some (Map_get k m) <-> k ∈ m.*1.
Proof.
  destruct (Map_get k m) eqn:E.
  - split; [|eauto]. intros _. apply Map_get_elem in E.
    apply (list_elem_of_fmap_2 fst) in E. done.
  - apply Map_get_None in E. split; [intros [? ?]; done | done].
Qed.

Lemma Map_get_NoDup m k v : NoDup m.*1 -> (k, v) ∈ m -> Map_get k m = Some v.
Proof.
  induction m as [|[k' v'] m IH]; simpl; intros Hnd Hin.
  - by apply elem_of_nil in Hin.
  - apply NoDup_cons in Hnd as [Hk Hnd].
    apply elem_of_cons in Hin as [[= <- <-]|Hin].
    + by rewrite decide_True.
    + destruct (decide (k' = k)) as [->|Hne]; [|auto].
      exfalso. apply Hk. by apply (list_elem_of_fmap_2 fst) in Hin.
Qed.

Lemma Map_has_true m k : Map_has k m = true <-> k ∈ m.*1.
Proof.
  unfold Map_has. rewrite bool_decide_eq_true. apply Map_get_is_Some.
Qed.

Lemma Map_has_false m k : Map_has k m = false <-> k ∉ m.*1.
Proof.
  unfold Map_has. rewrite bool_decide_eq_false, Map_get_is_Some. done.
Qed.

Lemma elem_of_Map_delete m k e : e ∈ Map_delete k m <-> e ∈ m ∧ e.1 ≠ k.
Proof. unfold Map_delete. rewrite list_elem_of_filter. naive_solver. Qed.

Lemma Map_delete_fst m k : (Map_delete k m).*1 = filter (fun x => x ≠ k) m.*1.
Proof.
  unfold Map_delete. induction m as [|[k' v'] m IH]; [done|].
  rewrite fmap_cons, !filter_cons. simpl.
  destruct (decide (k' ≠ k)); [rewrite fmap_cons; simpl|]; by rewrite IH.
Qed.

Lemma Map_get_delete_eq m k : Map_get k (Map_delete k m) = None.
Proof.
  apply Map_get_None. rewrite Map_delete_fst, list_elem_of_filter. naive_solver.
Qed.

Lemma Map_get_delete_ne m k k' : k' ≠ k -> Map_get k' (Map_delete k m) = Map_get k' m.
Proof.
  intros Hne. unfold Map_delete. induction m as [|[k0 v0] m IH]; [done|].
  rewrite filter_cons. simpl. destruct (decide (k0 ≠ k)) as [H0|H0]; simpl.
  - destruct (decide (k0 = k')); [done|apply IH].
  - apply dec_stable in H0. subst k0. by rewrite decide_False.
Qed.

Lemma Map_delete_absent m k : k ∉ m.*1 -> Map_delete k m = m.
Proof.
  intros H. unfold Map_delete. induction m as [|[k' v'] m IH]; [done|].
  rewrite fmap_cons, not_elem_of_cons in H. destruct H as [H1 H2].
  rewrite filter_cons. simpl. rewrite decide_True by done. f_equal. by apply IH.
Qed.

Lemma Map_delete_length m k : (length (Map_delete k m) <= length m)%nat.
Proof. apply length_filter. Qed.

Lemma Map_delete_length_lt m k :
  k ∈ m.*1 -> (length (Map_delete k m) < length m)%nat.
Proof.
  unfold Map_delete. induction m as [|[k' v'] m IH]; simpl.
  - intros H. by apply elem_of_nil in H.
  - rewrite filter_cons. simpl. intros H.
    destruct (decide (k' ≠ k)) as [Hd|Hd]; simpl.
    + apply elem_of_cons in H as [->|H]; [done|]. specialize (IH H). lia.
    + pose proof (length_filter (fun e : string * nat => e.1 ≠ k) m). lia.
Qed.

Lemma Map_delete_NoDup_fst m k : NoDup m.*1 -> NoDup (Map_delete k m).*1.
Proof. rewrite Map_delete_fst. apply NoDup_filter. Qed.

Lemma Map_delete_NoDup_snd m k : NoDup m.*2 -> NoDup (Map_delete k m).*2.
Proof.
  unfold Map_delete. induction m as [|[k' v'] m IH]; [done|].
  rewrite fmap_cons, filter_cons. simpl. intros Hnd.
  apply NoDup_cons in Hnd as [Hv Hnd].
  destruct (decide (k' ≠ k)); simpl; [|auto].
  apply NoDup_cons. split; [|auto].
  intros Hin. apply Hv. apply list_elem_of_fmap in Hin as [e [-> He]].
  apply list_elem_of_filter in He as [_ He]. by apply (list_elem_of_fmap_2 snd) in He.
Qed.

(** Delete then set: the entry goes to the end of the order. *)
Lemma Map_touch m k v : Map_set k v (Map_delete k m) = Map_delete k m ++ [(k, v)].
Proof.
  unfold Map_set.
  assert (Map_has k (Map_delete k m) = false) as ->; [|done].
  apply Map_has_false. rewrite Map_delete_fst, list_elem_of_filter. naive_solver.
Qed.

Lemma Map_get_app m1 m2 k :
  Map_get k (m1 ++ m2) = match Map_get k m1 with Some v => Some v | None => Map_get k m2 end.
Proof.
  induction m1 as [|[k' v'] m1 IH]; simpl; [done|].
  destruct (decide (k' = k)); [done|apply IH].
Qed.

Lemma Map_get_touch_eq m k v : Map_get k (Map_delete k m ++ [(k, v)]) = Some v.
Proof. rewrite Map_get_app, Map_get_delete_eq. simpl. by rewrite decide_True. Qed.

Lemma Map_get_touch_ne m k k' v :
  k' ≠ k -> Map_get k' (Map_delete k m ++ [(k, v)]) = Map_get k' m.
Proof.
  intros Hne. rewrite Map_get_app, Map_get_delete_ne by done. simpl.
  rewrite decide_False by done. by destruct (Map_get k' m).
Qed.

Lemma Map_get_snd m k v : Map_get k m = Some v -> v ∈ m.*2.
Proof. intros H. apply Map_get_elem in H. by apply (list_elem_of_fmap_2 snd) in H. Qed.

Lemma Map_get_head m k v rest : m = (k, v) :: rest -> Map_get k m = Some v.
Proof. intros ->. simpl. by rewrite decide_True. Qed.

End MapFacts.

(** ** The call tree of [delete] *)

Ltac unfold_M :=
  unfold bind, reads, modify, ret, throw, try_catch, deref, update,
    clearTimeout, clear_if_any, console_error, fs_remove, and_then in *.

Section DeleteFacts.
Variable rm : nat -> bool.

Lemma delete_fuel_unfold n key oc s :
  delete_fuel (S n) rm key oc s =
  match from_option Some (Map_get key (_cacheItems s)) oc with
  | None => Ret tt s
  | Some c =>
      and_then
        (for_of (default [] (related (item_of s c)))
                (fun item => delete_fuel n rm item None) (detach key c s))
        (fun _ => remove_artifact rm c)
  end.
Proof.
  simpl. unfold bind at 1. unfold reads at 1.
  destruct (from_option Some (Map_get key (_cacheItems s)) oc) as [c|]; [|done].
  unfold detach, item_of, remove_artifact. unfold_M. simpl.
  destruct (timeout (heap s !!! c)) as [t|]; simpl;
    (destruct (related (heap s !!! c)) as [rel|]; simpl; [|done]);
    match goal with
    | |- context [for_of rel ?b ?st] => destruct (for_of rel b st); done
    end.
Qed.

Lemma detach_cacheItems key c s :
  _cacheItems (detach key c s) = Map_delete key (_cacheItems s).
Proof. unfold detach. by destruct (timeout _). Qed.

Lemma detach_heap key c s : heap (detach key c s) = heap s.
Proof. unfold detach. by destruct (timeout _). Qed.

Lemma remove_artifact_cases c s :
  (rm (fileName (item_of s c)) = true ∧
   remove_artifact rm c s =
     Ret tt (with_currentSize (fun n => n - fileSize (item_of s c))
               (with_removed (fun l => l ++ [fileName (item_of s c)]) s))) ∨
  (rm (fileName (item_of s c)) = false ∧
   remove_artifact rm c s = Throw (RemoveFailed (fileName (item_of s c))) s).
Proof.
  unfold remove_artifact, item_of. unfold_M. simpl.
  destruct (rm (fileName (heap s !!! c))); simpl; auto.
Qed.

Lemma remove_artifact_cacheItems c s0 s :
  _cacheItems (state_of s0 (remove_artifact rm c s)) = _cacheItems s.
Proof. destruct (remove_artifact_cases c s) as [[_ ->]|[_ ->]]; done. Qed.

Lemma remove_artifact_terminated c s : terminated (remove_artifact rm c s).
Proof. destruct (remove_artifact_cases c s) as [[_ ->]|[_ ->]]; done. Qed.

(** Enough fuel: the depth of the recursion is bounded by the number of
    indexed keys, because every call on a present key removes it first. *)
Lemma delete_fuel_enough n :
  forall key s, (length (_cacheItems s) < n)%nat ->
    terminated (delete_fuel n rm key None s) ∧
    (length (_cacheItems (state_of s (delete_fuel n rm key None s)))
       <= length (_cacheItems s))%nat.
Proof.
  induction n as [|n IH]; intros key s Hlen; [lia|].
  rewrite delete_fuel_unfold. simpl.
  destruct (Map_get key (_cacheItems s)) as [c|] eqn:Hget; simpl; [|done].
  assert (Hshrink : (length (_cacheItems (detach key c s)) < length (_cacheItems s))%nat).
  { rewrite detach_cacheItems. apply Map_delete_length_lt.
    apply Map_get_is_Some. eauto. }
  assert (Hloop : forall l s1, (length (_cacheItems s1) < n)%nat ->
     terminated (for_of l (fun item => delete_fuel n rm item None) s1) ∧
     (length (_cacheItems (state_of s1 (for_of l (fun item => delete_fuel n rm item None) s1)))
        <= length (_cacheItems s1))%nat).
  { induction l as [|item l IHl]; intros s1 H1; simpl; [done|].
    unfold bind. destruct (IH item s1 H1) as [Ht Hl].
    destruct (delete_fuel n rm item None s1) as [[] s2|e s2|]; simpl in *; [|done|done].
    destruct (IHl s2 ltac:(lia)) as [Ht2 Hl2].
    split; [done|].
    destruct (for_of l _ s2) as [[] s3|e s3|]; simpl in *; lia. }
  destruct (Hloop (default [] (related (item_of s c))) (detach key c s) ltac:(lia))
    as [Ht Hl].
  destruct (for_of _ _ (detach key c s)) as [[] s2|e s2|]; simpl in *; [|split; [done|lia]|done].
  split; [apply remove_artifact_terminated|].
  rewrite remove_artifact_cacheItems. lia.
Qed.

Lemma for_of_delete_enough n l s :
  (length (_cacheItems s) < n)%nat ->
  terminated (for_of l (fun item => delete_fuel n rm item None) s).
Proof.
  revert s. induction l as [|item l IHl]; intros s H; simpl; [done|].
  unfold bind. destruct (delete_fuel_enough n item s H) as [Ht Hl].
  destruct (delete_fuel n rm item None s) as [[] s2|e s2|]; simpl in *; [|done|done].
  apply IHl. lia.
Qed.

(** [delete] always comes back, whatever the related lists look like. *)
Lemma delete_terminates key oc s : terminated (delete rm key oc s).
Proof.
  unfold delete. rewrite delete_fuel_unfold.
  destruct (from_option Some (Map_get key (_cacheItems s)) oc) as [c|]; [|done].
  pose proof (for_of_delete_enough (S (length (_cacheItems s)))
                (default [] (related (item_of s c))) (detach key c s)) as Ht.
  rewrite detach_cacheItems in Ht.
  specialize (Ht ltac:(pose proof (Map_delete_length (_cacheItems s) key); lia)).
  destruct (for_of _ _ (detach key c s)) as [[] s2|e s2|]; simpl in *; [|done|done].
  apply remove_artifact_terminated.
Qed.

(** The function follows the call tree. *)
Lemma delete_fuel_Deletes n :
  forall key oc s, terminated (delete_fuel n rm key oc s) ->
    Deletes rm key oc s (delete_fuel n rm key oc s).
Proof.
  induction n as [|n IH]; intros key oc s Ht; [done|].
  rewrite delete_fuel_unfold in *.
  destruct (from_option Some (Map_get key (_cacheItems s)) oc) as [c|] eqn:Hc.
  - apply Deletes_present; [done|].
    assert (Hloop : forall l s1,
      terminated (for_of l (fun item => delete_fuel n rm item None) s1) ->
      DeletesAll rm l s1 (for_of l (fun item => delete_fuel n rm item None) s1)).
    { induction l as [|item l IHl]; intros s1 H1; simpl in *; [constructor|].
      unfold bind in *. specialize (IH item None s1).
      destruct (delete_fuel n rm item None s1) as [[] s2|e s2|]; simpl in *; [| |done].
      - eapply DeletesAll_ret; [by apply IH|by apply IHl].
      - apply DeletesAll_throw. by apply IH. }
    apply Hloop.
    destruct (for_of _ _ (detach key c s)); done.
  - destruct oc as [c|]; simpl in Hc; [done|]. by apply Deletes_absent.
Qed.

Lemma delete_Deletes key oc s : Deletes rm key oc s (delete rm key oc s).
Proof. apply delete_fuel_Deletes, delete_terminates. Qed.

End DeleteFacts.

(** ** What a deletion preserves *)

Section DeleteClosure.
Variable rm : nat -> bool.

(** A call of [delete] is a sequence of detachments of indexed keys and of
    artifact removals: what both keep, the call keeps, also when it throws. *)
Lemma Deletes_closure (P : Cache -> Prop) :
  (forall key c s, Map_get key (_cacheItems s) = Some c -> P s -> P (detach key c s)) ->
  (forall c s, P s -> after (remove_artifact rm c s) P) ->
  (forall key oc s r, Deletes rm key oc s r ->
     oc = None ∨ Map_get key (_cacheItems s) = oc -> P s -> after r P) ∧
  (forall l s r, DeletesAll rm l s r -> P s -> after r P).
Proof.
  intros Hdetach Hremove.
  apply (Deletes_mutind rm
    (fun key oc s r _ =>
       oc = None ∨ Map_get key (_cacheItems s) = oc -> P s -> after r P)
    (fun l s r _ => P s -> after r P)); simpl; auto.
  intros key oc c s r Hc _ IH Hoc HP.
  assert (Hget : Map_get key (_cacheItems s) = Some c).
  { destruct Hoc as [->|Hoc]; simpl in Hc; [done|].
    rewrite Hoc. destruct oc; simpl in Hc; congruence. }
  specialize (IH (Hdetach _ _ _ Hget HP)).
  destruct r as [[] s2|e s2|]; simpl in *; auto.
Qed.

Lemma delete_closure (P : Cache -> Prop) key oc s :
  (forall key c s, Map_get key (_cacheItems s) = Some c -> P s -> P (detach key c s)) ->
  (forall c s, P s -> after (remove_artifact rm c s) P) ->
  oc = None ∨ Map_get key (_cacheItems s) = oc ->
  P s -> after (delete rm key oc s) P.
Proof.
  intros H1 H2 Hoc HP.
  destruct (Deletes_closure P H1 H2) as [HD _].
  eapply HD; eauto. apply delete_Deletes.
Qed.

End DeleteClosure.

(** ** Well-formed states *)

Lemma timers_ok_lookup s (ts : list Timer) :
  Forall (timer_ok s) (imap pair ts) <->
  forall t tm, ts !! t = Some tm -> timer_ok s (t, tm).
Proof.
  rewrite Forall_lookup. split.
  - intros H t tm Ht. apply (H t). rewrite list_lookup_imap, Ht. done.
  - intros H i [t tm] Hi. rewrite list_lookup_imap in Hi.
    destruct (ts !! i) as [tm'|] eqn:E; simpl in Hi; [|done].
    injection Hi as <- <-. by apply H.
Qed.

Lemma names_ok_lookup (h : list CacheItem) :
  map fileName h = seq 0 (length h) <->
  forall c it, h !! c = Some it -> fileName it = c.
Proof.
  split.
  - intros H c it Hc.
    assert (map fileName h !! c = Some (fileName it)) as Hm.
    { change (map fileName h) with (fileName <$> h). by rewrite list_lookup_fmap, Hc. }
    rewrite H in Hm. apply lookup_seq in Hm. lia.
  - intros H. apply list_eq. intros c.
    change (map fileName h) with (fileName <$> h). rewrite list_lookup_fmap.
    destruct (h !! c) as [it|] eqn:E; simpl.
    + rewrite (H _ _ E). symmetry. apply lookup_seq. split; [lia|].
      by apply lookup_lt_Some in E.
    + symmetry. apply lookup_seq_ge. apply lookup_ge_None in E. lia.
Qed.

Lemma wf_intro s :
  NoDup (_cacheItems s).*1 ->
  NoDup (_cacheItems s).*2 ->
  (forall e, e ∈ _cacheItems s -> (e.2 < length (heap s))%nat) ->
  length (heap s) = _fileNameIndex s ->
  (forall c it, heap s !! c = Some it -> fileName it = c) ->
  (forall t tm, timers s !! t = Some tm -> timer_ok s (t, tm)) ->
  wf s.
Proof.
  intros H1 H2 H3 H4 H5 H6. unfold wf. repeat split; try done.
  - by apply Forall_forall.
  - by apply names_ok_lookup.
  - by apply timers_ok_lookup.
Qed.

Lemma wf_keys s : wf s -> NoDup (_cacheItems s).*1.
Proof. intros H. apply H. Qed.
Lemma wf_refs s : wf s -> NoDup (_cacheItems s).*2.
Proof. intros H. apply H. Qed.
Lemma wf_valid s e : wf s -> e ∈ _cacheItems s -> (e.2 < length (heap s))%nat.
Proof. intros (_ & _ & H & _) He. rewrite Forall_forall in H. auto. Qed.
Lemma wf_counter s : wf s -> length (heap s) = _fileNameIndex s.
Proof. intros H. apply H. Qed.
Lemma wf_names s c it : wf s -> heap s !! c = Some it -> fileName it = c.
Proof. intros (_ & _ & _ & _ & H & _). by apply names_ok_lookup. Qed.
Lemma wf_timer s t tm : wf s -> timers s !! t = Some tm -> timer_ok s (t, tm).
Proof. intros (_ & _ & _ & _ & _ & H). by apply timers_ok_lookup. Qed.

Lemma wf_get_valid s k c :
  wf s -> Map_get k (_cacheItems s) = Some c -> (c < length (heap s))%nat.
Proof. intros Hwf Hg. apply Map_get_elem in Hg. apply (wf_valid s (k, c) Hwf Hg). Qed.

Lemma item_of_lookup s c : (c < length (heap s))%nat -> heap s !! c = Some (item_of s c).
Proof. intros H. unfold item_of. by apply list_lookup_lookup_total_lt. Qed.

Lemma wf_item_name s c : wf s -> (c < length (heap s))%nat -> fileName (item_of s c) = c.
Proof. intros Hwf Hc. eapply wf_names; [done|]. by apply item_of_lookup. Qed.

(** In a well-formed state two keys never share an item. *)
Lemma wf_get_inj s k1 k2 c :
  wf s -> Map_get k1 (_cacheItems s) = Some c -> Map_get k2 (_cacheItems s) = Some c ->
  k1 = k2.
Proof.
  intros Hwf H1 H2. apply Map_get_elem in H1, H2.
  pose proof (wf_refs s Hwf) as Hnd.
  apply list_elem_of_lookup in H1 as [i Hi], H2 as [j Hj].
  assert (i = j) as ->.
  { eapply NoDup_lookup; [exact Hnd| |].
    - rewrite list_lookup_fmap, Hi. done.
    - rewrite list_lookup_fmap, Hj. done. }
  congruence.
Qed.

Section WfDelete.
Variable rm : nat -> bool.

Lemma wf_detach key c s :
  Map_get key (_cacheItems s) = Some c -> wf s -> wf (detach key c s).
Proof.
  intros Hget Hwf.
  assert (Hframe : heap (detach key c s) = heap s ∧
                   _fileNameIndex (detach key c s) = _fileNameIndex s).
  { unfold detach. destruct (timeout _); done. }
  destruct Hframe as [Hh Hn].
  apply wf_intro; rewrite ?detach_cacheItems, ?Hh, ?Hn.
  - apply Map_delete_NoDup_fst, wf_keys, Hwf.
  - apply Map_delete_NoDup_snd, wf_refs, Hwf.
  - intros e He. apply elem_of_Map_delete in He as [He _]. by apply wf_valid.
  - by apply wf_counter.
  - intros c' it. by apply wf_names.
  - intros t tm Ht.
    assert (Hcases : exists tm0, timers s !! t = Some tm0 ∧
              ((tm = tm0 ∧ timeout (item_of s c) ≠ Some t) ∨
               (tm = clear_timer tm0 ∧ timeout (item_of s c) = Some t))).
    { unfold detach, item_of in *. simpl in Ht.
      destruct (timeout (heap s !!! c)) as [t0|] eqn:Et; simpl in Ht.
      - destruct (decide (t0 = t)) as [->|Hne].
        + rewrite list_lookup_alter_eq in Ht.
          destruct (timers s !! t) as [tm0|] eqn:E0; simplify_eq/=.
          exists tm0. split; [done|]. right. done.
        + rewrite list_lookup_alter_ne in Ht by done.
          exists tm. split; [done|]. left. split; [done|]. congruence.
      - exists tm. split; [done|]. left. done. }
    destruct Hcases as (tm0 & Ht0 & [[-> Hne]|[-> Heq]]).
    + destruct (wf_timer s t tm0 Hwf Ht0) as [Hf Ha]. split; [done|].
      simpl in *. intros Harmed. destruct (Ha Harmed) as [Hg Hto].
      rewrite detach_cacheItems. unfold item_of in *. rewrite Hh.
      destruct (decide (t_key tm0 = key)) as [Hk|Hk].
      * exfalso. rewrite Hk in Hg. rewrite Hget in Hg. injection Hg as Hc.
        rewrite <- Hc in Hto. done.
      * rewrite Map_get_delete_ne by done. done.
    + split; simpl; done.
Qed.

Lemma wf_remove_artifact c s : wf s -> after (remove_artifact rm c s) wf.
Proof.
  intros Hwf. destruct (remove_artifact_cases rm c s) as [[_ ->]|[_ ->]]; simpl; done.
Qed.

(** [delete] keeps the state well formed, whether it returns or throws. *)
Lemma wf_delete key oc s :
  oc = None ∨ Map_get key (_cacheItems s) = oc ->
  wf s -> after (delete rm key oc s) wf.
Proof.
  intros Hoc Hwf. apply delete_closure; auto using wf_detach, wf_remove_artifact.
Qed.

End WfDelete.

(** ** Accounting of a deletion *)

Section FilterFacts.
Context {A : Type}.
Implicit Types (P Q : A -> Prop) (l : list A).

Lemma filter_ext_elem P Q `{DP : !forall x, Decision (P x)} `{DQ : !forall x, Decision (Q x)} l :
  (forall x, x ∈ l -> (P x <-> Q x)) -> filter P l = filter Q l.
Proof.
  induction l as [|x l IH]; intros H; [done|].
  rewrite !filter_cons.
  assert (Hx : P x <-> Q x) by (apply H; left).
  rewrite IH by (intros y Hy; apply H; by right).
  destruct (decide (P x)), (decide (Q x)); tauto.
Qed.

Lemma filter_all P `{DP : !forall x, Decision (P x)} l :
  (forall x, x ∈ l -> P x) -> filter P l = l.
Proof.
  induction l as [|x l IH]; intros H; [done|].
  rewrite filter_cons_True by (apply H; left).
  f_equal. apply IH. intros y Hy. apply H. by right.
Qed.

Lemma filter_none P `{DP : !forall x, Decision (P x)} l :
  (forall x, x ∈ l -> ¬ P x) -> filter P l = [].
Proof.
  induction l as [|x l IH]; intros H; [done|].
  rewrite filter_cons_False by (apply H; left).
  apply IH. intros y Hy. apply H. by right.
Qed.

(** Splitting what a first filter drops from what a second one drops. *)
Lemma filter_two_stage P Q `{DP : !forall x, Decision (P x)} `{DQ : !forall x, Decision (Q x)} l :
  (forall x, Q x -> P x) ->
  filter (fun x => ¬ Q x) l ≡ₚ
    filter (fun x => ¬ P x) l ++ filter (fun x => ¬ Q x) (filter P l).
Proof.
  intros HQP. induction l as [|x l IH]; [done|].
  rewrite !filter_cons.
  destruct (decide (P x)) as [HP|HP].
  - rewrite filter_cons. rewrite (decide_False (P := ¬ P x)) by tauto.
    destruct (decide (¬ Q x)) as [HQ|HQ]; [|done].
    rewrite <- Permutation_middle. by constructor.
  - rewrite (decide_True (P := ¬ P x)) by done.
    rewrite (decide_True (P := ¬ Q x)) by (intros HQ; auto).
    simpl. by constructor.
Qed.

End FilterFacts.

Lemma Zsum_app l1 l2 : Zsum (l1 ++ l2) = Zsum l1 + Zsum l2.
Proof. unfold Zsum. induction l1 as [|x l1 IH]; simpl; lia. Qed.

Lemma Zsum_perm l1 l2 : l1 ≡ₚ l2 -> Zsum l1 = Zsum l2.
Proof. unfold Zsum. induction 1; simpl; lia. Qed.

Lemma sum_sizes_app s l1 l2 : sum_sizes s (l1 ++ l2) = sum_sizes s l1 + sum_sizes s l2.
Proof. unfold sum_sizes. by rewrite map_app, Zsum_app. Qed.

Lemma sum_sizes_app_cons s e l : sum_sizes s (e :: l) = entry_size s e + sum_sizes s l.
Proof. done. Qed.

Lemma sum_sizes_perm s l1 l2 : l1 ≡ₚ l2 -> sum_sizes s l1 = sum_sizes s l2.
Proof. intros H. unfold sum_sizes. apply Zsum_perm. by apply Permutation_map. Qed.

Lemma sum_sizes_heap s s' l : heap s' = heap s -> sum_sizes s' l = sum_sizes s l.
Proof. intros H. unfold sum_sizes, entry_size, item_of. by rewrite H. Qed.

Lemma survives_refl s : survives s s.
Proof.
  unfold survives, keys. symmetry. apply filter_all.
  intros e He. by apply (list_elem_of_fmap_2 fst) in He.
Qed.

Lemma survives_keys s s' k : survives s s' -> k ∈ keys s' -> k ∈ keys s.
Proof.
  unfold survives, keys. intros H Hk. rewrite H in Hk.
  apply list_elem_of_fmap in Hk as [e [-> He]].
  apply list_elem_of_filter in He as [_ He]. by apply (list_elem_of_fmap_2 fst) in He.
Qed.

Lemma survives_elem s s' e : survives s s' -> e ∈ _cacheItems s' -> e ∈ _cacheItems s.
Proof.
  unfold survives. intros H He. rewrite H in He. by apply list_elem_of_filter in He as [_ He].
Qed.

Lemma survives_trans s s1 s2 : survives s s1 -> survives s1 s2 -> survives s s2.
Proof.
  intros H1 H2. unfold survives in *. rewrite H2 at 1. rewrite H1 at 1.
  rewrite list_filter_filter. apply filter_ext_elem. intros e _. split; [tauto|].
  intros He. split; [done|]. eapply survives_keys; [exact H2|done].
Qed.

Lemma survives_Map_delete s s' k :
  _cacheItems s' = Map_delete k (_cacheItems s) -> survives s s'.
Proof.
  intros H. unfold survives, keys. rewrite H at 1. unfold Map_delete.
  apply filter_ext_elem. intros e He. rewrite H, Map_delete_fst, list_elem_of_filter.
  split; [|tauto]. intros Hne. split; [done|]. by apply (list_elem_of_fmap_2 fst) in He.
Qed.

Lemma survives_same s s' : _cacheItems s' = _cacheItems s -> survives s s'.
Proof. intros H. unfold survives, keys. rewrite H. apply survives_refl. Qed.

Lemma survives_NoDup s s' : survives s s' -> NoDup (keys s) -> NoDup (keys s').
Proof.
  unfold survives, keys. intros H Hnd. rewrite H.
  assert (Hgen : forall (P : string * nat -> Prop) `{DP : !forall x, Decision (P x)}
                   (m : list (string * nat)), NoDup m.*1 -> NoDup (filter P m).*1).
  { intros P DP m. induction m as [|[k v] m IH]; [done|].
    rewrite fmap_cons. intros Hm. apply NoDup_cons in Hm as [Hk Hm].
    rewrite filter_cons. destruct (decide (P (k, v))); [|auto].
    rewrite fmap_cons. apply NoDup_cons. split; [|auto].
    intros Hin. apply Hk. apply list_elem_of_fmap in Hin as [e [-> He]].
    apply list_elem_of_filter in He as [_ He]. by apply (list_elem_of_fmap_2 fst) in He. }
  by apply Hgen.
Qed.

Lemma gone_refl s : gone s s = [].
Proof.
  unfold gone, keys. apply filter_none. intros e He Hn. apply Hn.
  by apply (list_elem_of_fmap_2 fst) in He.
Qed.

Lemma gone_same s s1 s2 :
  _cacheItems s2 = _cacheItems s1 -> gone s s2 = gone s s1.
Proof. intros H. unfold gone, keys. by rewrite H. Qed.

Lemma gone_trans s s1 s2 :
  survives s s1 -> survives s1 s2 -> gone s s2 ≡ₚ gone s s1 ++ gone s1 s2.
Proof.
  intros H1 H2. unfold gone.
  trans (filter (fun e => e.1 ∉ keys s1) (_cacheItems s) ++
         filter (fun e => e.1 ∉ keys s2)
           (filter (fun e => e.1 ∈ keys s1) (_cacheItems s))).
  - apply (filter_two_stage (fun e => e.1 ∈ keys s1) (fun e => e.1 ∈ keys s2)).
    intros e He. eapply survives_keys; [exact H2|done].
  - unfold survives in H1. by rewrite <- H1.
Qed.

Lemma filter_key_NoDup (m : list (string * nat)) k c :
  NoDup m.*1 -> Map_get k m = Some c -> filter (fun e => e.1 = k) m = [(k, c)].
Proof.
  induction m as [|[k' v'] m IH]; [done|].
  rewrite fmap_cons. intros Hnd. apply NoDup_cons in Hnd as [Hk Hnd].
  rewrite filter_cons. simpl. destruct (decide (k' = k)) as [->|Hne].
  - intros [= ->]. f_equal. apply filter_none. intros e He Hek. apply Hk.
    apply (list_elem_of_fmap_2 fst) in He. by rewrite Hek in He.
  - auto.
Qed.

Lemma gone_detach s key c :
  NoDup (keys s) -> Map_get key (_cacheItems s) = Some c ->
  gone s (detach key c s) = [(key, c)].
Proof.
  intros Hnd Hget. unfold gone, keys. rewrite detach_cacheItems.
  rewrite <- (filter_key_NoDup (_cacheItems s) key c Hnd Hget).
  apply filter_ext_elem. intros e He.
  rewrite Map_delete_fst, list_elem_of_filter.
  apply (list_elem_of_fmap_2 fst) in He.
  destruct (decide (e.1 = key)); split; tauto.
Qed.

Lemma gone_survives_split s s' :
  survives s s' -> _cacheItems s ≡ₚ _cacheItems s' ++ gone s s'.
Proof.
  intros H. unfold gone. unfold survives in H. rewrite H at 1.
  symmetry. apply filter_app_complement.
Qed.

Lemma same_items_refl s : same_items s s.
Proof. unfold same_items. tauto. Qed.

Lemma same_items_trans s s1 s2 : same_items s s1 -> same_items s1 s2 -> same_items s s2.
Proof. unfold same_items. intros H1 H2. intuition congruence. Qed.

Lemma only_cleared_refl s : only_cleared s s.
Proof. split; [done|]. intros t tm H. exists tm. auto. Qed.

Lemma only_cleared_trans s s1 s2 :
  only_cleared s s1 -> only_cleared s1 s2 -> only_cleared s s2.
Proof.
  intros [L1 H1] [L2 H2]. split; [congruence|].
  intros t tm2 Ht2. destruct (H2 t tm2 Ht2) as (tm1 & Ht1 & Hc2).
  destruct (H1 t tm1 Ht1) as (tm & Ht & Hc1). exists tm. split; [done|].
  destruct Hc1 as [->| ->], Hc2 as [->| ->]; auto.
Qed.

Lemma only_cleared_alter s s' t :
  timers s' = alter clear_timer t (timers s) -> only_cleared s s'.
Proof.
  intros H. split; [by rewrite H, length_alter|].
  intros t' tm' Ht'. rewrite H in Ht'.
  destruct (decide (t = t')) as [->|Hne].
  - rewrite list_lookup_alter_eq in Ht'.
    destruct (timers s !! t') as [tm|] eqn:E; simplify_eq/=. eauto.
  - rewrite list_lookup_alter_ne in Ht' by done. eauto.
Qed.

Lemma only_cleared_same s s' : timers s' = timers s -> only_cleared s s'.
Proof. intros H. split; [by rewrite H|]. intros t tm Ht. rewrite H in Ht. eauto. Qed.

Lemma delete_keeps_refl s : delete_keeps s s.
Proof. split; [apply same_items_refl|]. split; [apply only_cleared_refl|apply survives_refl]. Qed.

Lemma delete_keeps_trans s s1 s2 :
  delete_keeps s s1 -> delete_keeps s1 s2 -> delete_keeps s s2.
Proof.
  intros (A1 & B1 & C1) (A2 & B2 & C2).
  split; [by eapply same_items_trans|].
  split; [by eapply only_cleared_trans|by eapply survives_trans].
Qed.

Lemma delete_keeps_detach key c s : delete_keeps s (detach key c s).
Proof.
  split; [|split].
  - unfold detach, same_items. destruct (timeout _); simpl; tauto.
  - unfold detach. destruct (timeout _) as [t|]; simpl.
    + by apply (only_cleared_alter _ _ t).
    + by apply only_cleared_same.
  - apply (survives_Map_delete _ _ key), detach_cacheItems.
Qed.

Section DeleteFrame.
Variable rm : nat -> bool.

Lemma delete_keeps_remove_artifact c s :
  after (remove_artifact rm c s) (delete_keeps s).
Proof.
  destruct (remove_artifact_cases rm c s) as [[_ ->]|[_ ->]]; simpl.
  - split; [|split].
    + unfold same_items. simpl. tauto.
    + by apply only_cleared_same.
    + by apply survives_same.
  - apply delete_keeps_refl.
Qed.

Lemma Deletes_keeps :
  (forall key oc s r, Deletes rm key oc s r ->
     oc = None ∨ Map_get key (_cacheItems s) = oc -> after r (delete_keeps s)) ∧
  (forall l s r, DeletesAll rm l s r -> after r (delete_keeps s)).
Proof.
  split.
  - intros key oc s r HD Hoc.
    destruct (Deletes_closure rm (delete_keeps s)) as [H _].
    + intros k c s1 _ Hk. eapply delete_keeps_trans; [exact Hk|apply delete_keeps_detach].
    + intros c s1 Hk. pose proof (delete_keeps_remove_artifact c s1) as Hr.
      destruct (remove_artifact rm c s1); simpl in *; auto;
        eapply delete_keeps_trans; eauto.
    + eapply H; eauto. apply delete_keeps_refl.
  - intros l s r HD.
    destruct (Deletes_closure rm (delete_keeps s)) as [_ H].
    + intros k c s1 _ Hk. eapply delete_keeps_trans; [exact Hk|apply delete_keeps_detach].
    + intros c s1 Hk. pose proof (delete_keeps_remove_artifact c s1) as Hr.
      destruct (remove_artifact rm c s1); simpl in *; auto;
        eapply delete_keeps_trans; eauto.
    + eapply H; eauto. apply delete_keeps_refl.
Qed.

Lemma delete_keeps_delete key oc s :
  oc = None ∨ Map_get key (_cacheItems s) = oc ->
  after (delete rm key oc s) (delete_keeps s).
Proof. intros Hoc. exact (proj1 Deletes_keeps _ _ _ _ (delete_Deletes rm key oc s) Hoc). Qed.

Lemma removed_of_nil s s' :
  removed s' = removed s -> _currentSize s' = _currentSize s -> removed_of [] s s'.
Proof.
  intros H1 H2. exists []. rewrite app_nil_r. split; [done|]. split; [done|].
  unfold sum_sizes. simpl. lia.
Qed.

Lemma removed_of_app D1 D2 s s1 s2 :
  heap s1 = heap s ->
  removed_of D1 s s1 -> removed_of D2 s1 s2 -> removed_of (D1 ++ D2) s s2.
Proof.
  intros Hh (L1 & R1 & P1 & Z1) (L2 & R2 & P2 & Z2).
  exists (L1 ++ L2). split; [by rewrite R2, R1, app_assoc|]. split.
  - rewrite map_app, P1, P2. apply Permutation_app; [done|].
    unfold entry_file, item_of. by rewrite Hh.
  - rewrite Z2, Z1, sum_sizes_app, (sum_sizes_heap s s1) by done. lia.
Qed.

Lemma removed_of_perm D1 D2 s s' : D1 ≡ₚ D2 -> removed_of D1 s s' -> removed_of D2 s s'.
Proof.
  intros HD (L & R & P & Z). exists L. split; [done|]. split.
  - by rewrite P, HD.
  - by rewrite <- (sum_sizes_perm s _ _ HD).
Qed.

Lemma accounted_refl s : accounted s s.
Proof. unfold accounted. rewrite gone_refl. by apply removed_of_nil. Qed.

Lemma accounted_trans s s1 s2 :
  delete_keeps s s1 -> delete_keeps s1 s2 ->
  accounted s s1 -> accounted s1 s2 -> accounted s s2.
Proof.
  intros (F1 & _ & S1) (F2 & _ & S2) A1 A2.
  eapply removed_of_perm; [symmetry; by apply (gone_trans s s1 s2)|].
  eapply removed_of_app; [apply F1|exact A1|exact A2].
Qed.

Lemma removed_of_remove_artifact c k s s' :
  remove_artifact rm c s = Ret tt s' -> removed_of [(k, c)] s s'.
Proof.
  intros H. destruct (remove_artifact_cases rm c s) as [[_ Hr]|[_ Hr]];
    rewrite Hr in H; [|done].
  injection H as <-. exists [fileName (item_of s c)]. simpl.
  split; [done|]. split; [done|]. unfold sum_sizes, entry_size. simpl. lia.
Qed.

(** A call of [delete] that returns has removed the artifact of every entry
    it took out of the index, once, and subtracted its size, once; the
    artifact of the key it was called for goes last. *)
Lemma Deletes_accounted :
  (forall key oc s r, Deletes rm key oc s r ->
     oc = None ∨ Map_get key (_cacheItems s) = oc -> NoDup (keys s) ->
     forall s', r = Ret tt s' ->
       accounted s s' ∧
       forall c, Map_get key (_cacheItems s) = Some c ->
         exists L0, removed s' = removed s ++ L0 ++ [fileName (item_of s c)]) ∧
  (forall l s r, DeletesAll rm l s r -> NoDup (keys s) ->
     forall s', r = Ret tt s' -> accounted s s').
Proof.
  apply (Deletes_mutind rm
    (fun key oc s r _ =>
       oc = None ∨ Map_get key (_cacheItems s) = oc -> NoDup (keys s) ->
       forall s', r = Ret tt s' ->
         accounted s s' ∧
         forall c, Map_get key (_cacheItems s) = Some c ->
           exists L0, removed s' = removed s ++ L0 ++ [fileName (item_of s c)])
    (fun l s r _ => NoDup (keys s) -> forall s', r = Ret tt s' -> accounted s s')).
  - intros key s Habs _ _ s' [= <-]. split; [apply accounted_refl|]. congruence.
  - intros key oc c s r Hc HD IH Hoc Hnd s' Hr.
    assert (Hget : Map_get key (_cacheItems s) = Some c).
    { destruct Hoc as [->|Hoc]; simpl in Hc; [done|].
      rewrite Hoc. destruct oc; simpl in Hc; congruence. }
    destruct r as [[] s2|e s2|]; simpl in Hr; [|done|done].
    pose proof (delete_keeps_detach key c s) as K1.
    assert (Hnd1 : NoDup (keys (detach key c s))).
    { eapply survives_NoDup; [apply K1|done]. }
    specialize (IH Hnd1 s2 eq_refl).
    pose proof (proj2 Deletes_keeps _ _ _ HD) as K2. simpl in K2.
    pose proof (delete_keeps_trans _ _ _ K1 K2) as K12.
    assert (Hh1 : heap (detach key c s) = heap s) by apply K1.
    assert (Hh2 : heap s2 = heap s) by apply K12.
    assert (Hit : item_of s2 c = item_of s c) by (unfold item_of; by rewrite Hh2).
    pose proof (removed_of_remove_artifact c key s2 s' Hr) as A3.
    assert (Hidx : _cacheItems s' = _cacheItems s2).
    { pose proof (remove_artifact_cacheItems rm c s s2) as E. by rewrite Hr in E. }
    assert (A0 : removed_of [] s (detach key c s)).
    { apply removed_of_nil; unfold detach; destruct (timeout _); done. }
    destruct IH as (L1 & R1 & P1 & Z1).
    split.
    + unfold accounted.
      apply (removed_of_perm (([] ++ gone (detach key c s) s2) ++ [(key, c)])).
      * symmetry. rewrite (gone_same s s2 s' Hidx).
        etrans; [apply (gone_trans s (detach key c s) s2); [apply K1|apply K2]|].
        rewrite gone_detach by done. rewrite app_nil_l.
        apply Permutation_cons_append.
      * eapply removed_of_app; [exact Hh2| |exact A3].
        eapply removed_of_app; [exact Hh1|exact A0|]. by exists L1.
    + intros c' Hc'. assert (c' = c) as -> by congruence.
      destruct A3 as (L3 & R3 & P3 & _). simpl in P3.
      apply Permutation_singleton_r in P3. subst L3.
      exists L1. rewrite R3, R1.
      assert (removed (detach key c s) = removed s) as ->
        by (unfold detach; destruct (timeout _); done).
      unfold entry_file. simpl. by rewrite Hit, app_assoc.
  - intros s _ s' [= <-]. apply accounted_refl.
  - intros item rest s s1 r HD1 IH1 HD2 IH2 Hnd s' Hr.
    pose proof (proj1 Deletes_keeps _ _ _ _ HD1 (or_introl eq_refl)) as K1. simpl in K1.
    destruct (IH1 (or_introl eq_refl) Hnd s1 eq_refl) as [A1 _].
    assert (Hnd1 : NoDup (keys s1)) by (eapply survives_NoDup; [apply K1|done]).
    specialize (IH2 Hnd1 s' Hr).
    pose proof (proj2 Deletes_keeps _ _ _ HD2) as K2. rewrite Hr in K2. simpl in K2.
    by apply (accounted_trans s s1 s').
  - intros item rest s e s1 _ _ _ s' Hr. done.
Qed.

Lemma Deletes_returns :
  (forall f, rm f = true) ->
  (forall key oc s r, Deletes rm key oc s r -> returned r) ∧
  (forall l s r, DeletesAll rm l s r -> returned r).
Proof.
  intros Hrm.
  apply (Deletes_mutind rm (fun _ _ _ r _ => returned r) (fun _ _ r _ => returned r));
    simpl; auto.
  intros key oc c s r _ _ IH. destruct r as [[] s2|e s2|]; simpl in *; try done.
  destruct (remove_artifact_cases rm c s2) as [[_ ->]|[H _]]; [done|].
  by rewrite Hrm in H.
Qed.

Lemma delete_returns key oc s :
  (forall f, rm f = true) -> exists s', delete rm key oc s = Ret tt s'.
Proof.
  intros Hrm. pose proof (proj1 (Deletes_returns Hrm) _ _ _ _ (delete_Deletes rm key oc s)) as H.
  destruct (delete rm key oc s) as [[] s'|e s'|]; simpl in H; try done. eauto.
Qed.

Lemma delete_accounted key oc s s' :
  oc = None ∨ Map_get key (_cacheItems s) = oc -> NoDup (keys s) ->
  delete rm key oc s = Ret tt s' ->
  accounted s s' ∧
  forall c, Map_get key (_cacheItems s) = Some c ->
    exists L0, removed s' = removed s ++ L0 ++ [fileName (item_of s c)].
Proof.
  intros Hoc Hnd Hr.
  apply (proj1 Deletes_accounted key oc s (delete rm key oc s)); auto.
  apply delete_Deletes.
Qed.

(** The key [delete] is called for is no longer indexed afterwards. *)
Lemma Deletes_key_gone key oc s r :
  Deletes rm key oc s r -> oc = None ∨ Map_get key (_cacheItems s) = oc ->
  after r (fun s' => key ∉ keys s').
Proof.
  intros HD Hoc. inversion HD as [k s0 Habs|k oc' c s0 r0 Hc HDA]; subst.
  - simpl. by apply Map_get_None.
  - pose proof (proj2 Deletes_keeps _ _ _ HDA) as K.
    assert (Hk : key ∉ keys (detach key c s)).
    { unfold keys. rewrite detach_cacheItems. apply Map_get_None, Map_get_delete_eq. }
    assert (forall s2, delete_keeps (detach key c s) s2 -> key ∉ keys s2) as Hs.
    { intros s2 (_ & _ & S) Hin. apply Hk. by eapply survives_keys. }
    destruct r0 as [[] s2|e s2|]; simpl in *; auto.
    pose proof (remove_artifact_cacheItems rm c s s2) as E.
    destruct (remove_artifact rm c s2) as [[] s3|e s3|]; simpl in *; auto;
      unfold keys; rewrite E; by apply Hs.
Qed.

Lemma delete_key_gone key oc s :
  oc = None ∨ Map_get key (_cacheItems s) = oc ->
  after (delete rm key oc s) (fun s' => key ∉ keys s').
Proof. intros Hoc. eapply Deletes_key_gone; [apply delete_Deletes|done]. Qed.

Lemma size_consistent_accounted s s' :
  delete_keeps s s' -> accounted s s' -> size_consistent s -> size_consistent s'.
Proof.
  intros (F & _ & S) (L & _ & _ & Z) Hs. unfold size_consistent in *.
  rewrite Z, Hs. rewrite (sum_sizes_perm s _ _ (gone_survives_split s s' S)).
  rewrite sum_sizes_app. rewrite (sum_sizes_heap s s') by apply F. lia.
Qed.

End DeleteFrame.

(** ** [delete] does not depend on the fuel *)

Section DeleteFuel.
Variable rm : nat -> bool.

Lemma delete_fuel_any n :
  forall m key s,
    (length (_cacheItems s) < n)%nat -> (length (_cacheItems s) < m)%nat ->
    delete_fuel n rm key None s = delete_fuel m rm key None s.
Proof.
  induction n as [|n IH]; intros m key s Hn Hm; [lia|].
  destruct m as [|m]; [lia|]. rewrite !delete_fuel_unfold. simpl.
  destruct (Map_get key (_cacheItems s)) as [c|] eqn:Hg; [|done].
  assert (Hshrink : (length (_cacheItems (detach key c s)) < length (_cacheItems s))%nat).
  { rewrite detach_cacheItems. apply Map_delete_length_lt. apply Map_get_is_Some. eauto. }
  assert (Hloop : forall l s1, (length (_cacheItems s1) < n)%nat ->
            (length (_cacheItems s1) < m)%nat ->
            for_of l (fun item => delete_fuel n rm item None) s1
            = for_of l (fun item => delete_fuel m rm item None) s1).
  { induction l as [|item l IHl]; intros s1 H1 H2; [done|].
    simpl. unfold bind. rewrite (IH m item s1 H1 H2).
    destruct (delete_fuel_enough rm m item s1 H2) as [_ Hlen].
    destruct (delete_fuel m rm item None s1) as [[] s2|e s2|]; simpl in *; [|done|done].
    apply IHl; lia. }
  rewrite Hloop by lia. done.
Qed.

Lemma for_of_delete_fuel n l :
  forall s, (length (_cacheItems s) < n)%nat ->
    for_of l (fun item => delete_fuel n rm item None) s
    = for_of l (fun item => delete rm item None) s.
Proof.
  induction l as [|item l IH]; intros s Hn; [done|].
  simpl. unfold bind. unfold delete at 1.
  rewrite (delete_fuel_any n (S (S (length (_cacheItems s)))) item s Hn) by lia.
  destruct (delete_fuel_enough rm (S (S (length (_cacheItems s)))) item s ltac:(lia))
    as [_ Hlen].
  fold (delete rm item None s) in *.
  destruct (delete rm item None s) as [[] s2|e s2|]; simpl in *; [|done|done].
  apply IH. lia.
Qed.

(** The order of the statements of [delete], with the recursive calls
    written as calls of [delete] itself. *)
Lemma delete_present key c s :
  Map_get key (_cacheItems s) = Some c ->
  delete rm key None s =
  and_then
    (for_of (default [] (related (item_of s c))) (fun item => delete rm item None)
            (detach key c s))
    (fun _ => remove_artifact rm c).
Proof.
  intros Hg. unfold delete at 1. rewrite delete_fuel_unfold. cbn [from_option].
  rewrite Hg. rewrite for_of_delete_fuel; [done|].
  rewrite detach_cacheItems.
  pose proof (Map_delete_length (_cacheItems s) key). lia.
Qed.

Lemma delete_absent key s :
  Map_get key (_cacheItems s) = None -> delete rm key None s = Ret tt s.
Proof. intros Hg. unfold delete. rewrite delete_fuel_unfold. simpl. by rewrite Hg. Qed.

End DeleteFuel.

Lemma NoDup_map_filter {A B} (f : A -> B) (P : A -> Prop) `{DP : !forall x, Decision (P x)}
    (l : list A) :
  NoDup (map f l) -> NoDup (map f (filter P l)).
Proof.
  induction l as [|x l IH]; [done|]. simpl. intros Hnd.
  apply NoDup_cons in Hnd as [Hx Hnd]. rewrite filter_cons.
  destruct (decide (P x)); [|auto]. simpl. apply NoDup_cons. split; [|auto].
  intros Hin. apply Hx. apply list_elem_of_In, in_map_iff in Hin as (y & Hy & Hin).
  apply list_elem_of_In. apply in_map_iff. exists y. split; [done|].
  apply list_elem_of_In in Hin. apply list_elem_of_filter in Hin as [_ Hin].
  by apply list_elem_of_In.
Qed.

(** In a well-formed state the artifacts of the indexed entries are
    pairwise distinct. *)
Lemma wf_files_NoDup s : wf s -> NoDup (map (entry_file s) (_cacheItems s)).
Proof.
  intros Hwf.
  assert (E : map (entry_file s) (_cacheItems s) = (_cacheItems s).*2).
  { apply map_ext_in. intros e He. unfold entry_file.
    apply wf_item_name; [done|]. apply wf_valid; [done|]. by apply list_elem_of_In. }
  rewrite E. by apply wf_refs.
Qed.

(** ** The eviction walk *)

Lemma Qltb_true x y : Qltb x y = true <-> (x < y)%Q.
Proof.
  unfold Qltb. rewrite negb_true_iff. split.
  - intros H. apply Qnot_le_lt. intros Hle. apply Qle_bool_iff in Hle. congruence.
  - intros H. destruct (Qle_bool y x) eqn:E; [|done].
    apply Qle_bool_iff in E. exfalso. by apply (Qlt_not_le x y).
Qed.

Lemma Qltb_false x y : Qltb x y = false <-> (y <= x)%Q.
Proof.
  unfold Qltb. rewrite negb_false_iff. apply Qle_bool_iff.
Qed.

Section WalkFacts.
Variable rm : nat -> bool.
Variable downTo : Q.

Lemma evict_unfold s :
  evict rm downTo s = for_of_entries (_cacheItems s) (evict_body rm downTo) s.
Proof. done. Qed.

Lemma for_of_entries_Walk L :
  forall s, NoDup L.*1 ->
    _cacheItems s = filter (fun e => e.1 ∈ keys s) L ->
    Walk rm downTo s (for_of_entries L (evict_body rm downTo) s).
Proof.
  induction L as [|[k c] L IH]; intros s Hnd Hidx.
  - simpl. rewrite filter_nil in Hidx.
    destruct (Qlt_le_dec downTo (inject_Z (_currentSize s))).
    + by apply Walk_exhausted.
    + by apply Walk_reached.
  - rewrite fmap_cons in Hnd. apply NoDup_cons in Hnd as [Hk Hnd].
    rewrite filter_cons in Hidx. simpl in Hidx. simpl.
    destruct (decide (k ∈ keys s)) as [Hin|Hout].
    + rewrite (Map_get_head _ k c _ Hidx), decide_True by done.
      unfold evict_body at 1. unfold bind at 1. unfold reads at 1.
      destruct (Qltb downTo (inject_Z (_currentSize s))) eqn:Hq.
      * apply Qltb_true in Hq. unfold bind.
        pose proof (delete_terminates rm k (Some c) s) as Ht.
        assert (Hoc : Some c = None ∨ Map_get k (_cacheItems s) = Some c).
        { right. by apply (Map_get_head _ k c _ Hidx). }
        pose proof (delete_keeps_delete rm k (Some c) s Hoc) as Hk'.
        pose proof (delete_key_gone rm k (Some c) s Hoc) as Hg.
        destruct (delete rm k (Some c) s) as [[] s1|e s1|] eqn:Hd; simpl in *; [| |done].
        -- eapply Walk_evict; [exact Hidx|done|exact Hd|].
           apply IH; [done|].
           destruct Hk' as (_ & _ & S). unfold survives in S. rewrite S, Hidx.
           rewrite filter_cons. simpl. rewrite decide_False by done.
           rewrite list_filter_filter. apply filter_ext_elem. intros e _.
           split; [tauto|]. intros He. split; [done|].
           eapply survives_keys; [exact S|done].
        -- eapply Walk_failed; [exact Hidx|done|exact Hd].
      * apply Qltb_false in Hq. unfold ret. by apply Walk_reached.
    + assert (Map_get k (_cacheItems s) = None) as Hn by (by apply Map_get_None).
      rewrite Hn, decide_False by done. by apply IH.
Qed.

(** The walk of the code is the walk that always takes the oldest entry
    left in the index. *)
Lemma evict_Walk s : NoDup (keys s) -> Walk rm downTo s (evict rm downTo s).
Proof.
  intros Hnd. rewrite evict_unfold. apply for_of_entries_Walk; [done|].
  apply survives_refl.
Qed.

Lemma Walk_terminated s r : Walk rm downTo s r -> terminated r.
Proof. induction 1; done. Qed.


End WalkFacts.

(** ** Writes *)

Lemma _prepareWrite_eq writer key timeout_ms refreshWhenGet rel s :
  _prepareWrite writer key timeout_ms refreshWhenGet rel s =
  let c := (reserve key s).1 in
  let s1 := clear_old c (reserve key s).2 in
  match writer (fileName (item_of s1 c)) with
  | WriterFails => Throw (WriteFailed (fileName (item_of s1 c))) s1
  | StatFails => Throw (StatFailed (fileName (item_of s1 c))) s1
  | Written status_size =>
      Ret tt (commit key c status_size timeout_ms refreshWhenGet rel s1)
  end.
Proof.
  unfold _prepareWrite, reserve, clear_old, commit, item_of, alloc, setTimeout.
  unfold_M. simpl.
  destruct (Map_get key (_cacheItems s)) as [c|]; simpl.
  - destruct (timeout (heap s !!! c)) as [t|]; simpl;
      destruct (writer (fileName (heap s !!! c))); simpl; try done;
      destruct (0 <? timeout_ms); done.
  - match goal with |- context [timeout ?x] => destruct (timeout x) as [t|] end; simpl;
      match goal with |- context [writer ?x] => destruct (writer x) end; simpl; try done;
      destruct (0 <? timeout_ms); done.
Qed.

Lemma set_eq store key t r rel s :
  set store key t r rel s =
  _prepareWrite store key (default (_defaultTimeout s) t)
    (default (_defaultRefreshTimeoutWhenGet s) r) rel s.
Proof. done. Qed.

Lemma move_eq store key from t r rel s :
  move store key from t r rel s =
  _prepareWrite store key (default (_defaultTimeout s) t)
    (default (_defaultRefreshTimeoutWhenGet s) r) rel s.
Proof. done. Qed.

Lemma refresh_on_read_eq key c s :
  refresh_on_read key c s =
  match refreshTimeoutWhenGet (item_of s c), timeout (item_of s c) with
  | true, Some t => Ret tt (touch key c t s)
  | _, _ => Ret tt s
  end.
Proof.
  unfold refresh_on_read, touch, refresh, item_of. unfold_M. simpl.
  destruct (refreshTimeoutWhenGet (heap s !!! c)), (timeout (heap s !!! c)); done.
Qed.

Lemma get_eq key s :
  get key s =
  match Map_get key (_cacheItems s) with
  | Some c =>
      match refresh_on_read key c s with
      | Ret _ s' => Ret (Some (fileName (item_of s' c))) s'
      | Throw e s' => Throw e s'
      | OutOfFuel => OutOfFuel
      end
  | None => Ret None s
  end.
Proof.
  unfold get. unfold_M. simpl. destruct (Map_get key (_cacheItems s)); [|done].
  destruct (refresh_on_read key n s); done.
Qed.

Lemma getStream_get key s : getStream key s = get key s.
Proof. done. Qed.

Lemma write_target_reserved key s :
  fileName (item_of (clear_old (reserve key s).1 (reserve key s).2) (reserve key s).1)
  = write_target key s.
Proof.
  unfold write_target, reserve, clear_old, item_of.
  destruct (Map_get key (_cacheItems s)) as [c|]; simpl.
  - by destruct (timeout (heap s !!! c)).
  - match goal with |- context [timeout ?x] => destruct (timeout x) end; simpl;
      rewrite lookup_total_app_r, Nat.sub_diag by done; done.
Qed.

Lemma failed_write_state key s :
  let s' := clear_old (reserve key s).1 (reserve key s).2 in
  _currentSize s' = _currentSize s ∧ _cacheItems s' = _cacheItems s ∧
  (forall c, Map_get key (_cacheItems s) = Some c -> heap s' = heap s).
Proof.
  unfold reserve, clear_old, item_of.
  destruct (Map_get key (_cacheItems s)) as [c|]; simpl.
  - destruct (timeout (heap s !!! c)); simpl; auto.
  - match goal with |- context [timeout ?x] => destruct (timeout x) end; simpl;
      repeat split; done.
Qed.


(** ** [empty] *)

Section EmptyFacts.
Variable rm : nat -> bool.

Lemma empty_unfold s : empty rm s = for_of_entries (_cacheItems s) (empty_body rm) s.
Proof. done. Qed.

Lemma empty_body_step k c s :
  empty_body rm k c s = Ret Continue (empty_step rm s (k, c)).
Proof.
  unfold empty_body, empty_step, detach, item_of. unfold_M. simpl.
  destruct (timeout (heap s !!! c)) as [t|]; simpl;
    destruct (rm (fileName (heap s !!! c))); done.
Qed.

Lemma empty_step_heap s e : heap (empty_step rm s e) = heap s.
Proof.
  unfold empty_step. destruct (rm _); simpl; apply detach_heap.
Qed.

Lemma empty_step_cacheItems s e :
  _cacheItems (empty_step rm s e) = Map_delete e.1 (_cacheItems s).
Proof.
  unfold empty_step. destruct (rm _); simpl; apply detach_cacheItems.
Qed.

Lemma empty_step_cases s e :
  (removable rm s e ∧
   _currentSize (empty_step rm s e) = _currentSize s - entry_size s e ∧
   removed (empty_step rm s e) = removed s ++ [entry_file s e] ∧
   console (empty_step rm s e) = console s) ∨
  (¬ removable rm s e ∧
   _currentSize (empty_step rm s e) = _currentSize s ∧
   removed (empty_step rm s e) = removed s ∧
   console (empty_step rm s e) = console s ++ [remove_failure s e]).
Proof.
  unfold removable, remove_failure, entry_file, entry_size, empty_step.
  assert (Hitem : item_of (detach e.1 e.2 s) e.2 = item_of s e.2)
    by (unfold item_of; by rewrite detach_heap).
  assert (Hfr : removed (detach e.1 e.2 s) = removed s ∧
                console (detach e.1 e.2 s) = console s ∧
                _currentSize (detach e.1 e.2 s) = _currentSize s).
  { unfold detach. destruct (timeout _); done. }
  destruct Hfr as (F1 & F2 & F3). rewrite Hitem.
  destruct (rm (fileName (item_of s e.2))); simpl; rewrite ?F1, ?F2, ?F3.
  - left. done.
  - right. done.
Qed.

Lemma Map_delete_head (m : list (string * nat)) k c :
  k ∉ m.*1 -> Map_delete k ((k, c) :: m) = m.
Proof.
  intros H. unfold Map_delete. rewrite filter_cons. simpl.
  rewrite decide_False by (intros Hn; by apply Hn).
  by apply Map_delete_absent.
Qed.

(** Every entry is visited: the loop is the fold of its body over the
    index, oldest first. *)
Lemma for_of_entries_empty L :
  forall s, NoDup L.*1 -> _cacheItems s = L ->
    for_of_entries L (empty_body rm) s = Ret tt (foldl (empty_step rm) s L).
Proof.
  induction L as [|[k c] L IH]; intros s Hnd Hidx; [done|].
  rewrite fmap_cons in Hnd. apply NoDup_cons in Hnd as [Hk Hnd]. simpl.
  rewrite (Map_get_head _ k c _ Hidx), decide_True by done.
  rewrite empty_body_step. apply IH; [done|].
  rewrite empty_step_cacheItems, Hidx. simpl. by apply Map_delete_head.
Qed.

Lemma foldl_empty_step L :
  forall s, NoDup L.*1 -> _cacheItems s = L ->
    let s' := foldl (empty_step rm) s L in
    _cacheItems s' = [] ∧
    heap s' = heap s ∧
    _currentSize s' = _currentSize s - sum_sizes s (filter (removable rm s) L) ∧
    removed s' = removed s ++ map (entry_file s) (filter (removable rm s) L) ∧
    console s' =
      console s ++ map (remove_failure s) (filter (fun e => ¬ removable rm s e) L).
Proof.
  induction L as [|[k c] L IH]; intros s Hnd Hidx.
  - simpl. rewrite !app_nil_r. unfold sum_sizes. simpl. repeat split; [done|lia].
  - rewrite fmap_cons in Hnd. apply NoDup_cons in Hnd as [Hk Hnd]. simpl.
    assert (Hidx1 : _cacheItems (empty_step rm s (k, c)) = L).
    { rewrite empty_step_cacheItems, Hidx. simpl. by apply Map_delete_head. }
    destruct (IH (empty_step rm s (k, c)) Hnd Hidx1) as (I1 & I2 & I3 & I4 & I5).
    pose proof (empty_step_heap s (k, c)) as Hh.
    assert (Hfile : entry_file (empty_step rm s (k, c)) = entry_file s).
    { unfold entry_file, item_of. by rewrite Hh. }
    assert (Hrem : filter (removable rm (empty_step rm s (k, c))) L
                   = filter (removable rm s) L).
    { apply filter_ext_elem. intros e _. unfold removable. by rewrite Hfile. }
    assert (Hbad : filter (fun e => ¬ removable rm (empty_step rm s (k, c)) e) L
                   = filter (fun e => ¬ removable rm s e) L).
    { apply filter_ext_elem. intros e _. unfold removable. by rewrite Hfile. }
    assert (Hmsg : remove_failure (empty_step rm s (k, c)) = remove_failure s).
    { unfold remove_failure. by rewrite Hfile. }
    rewrite Hrem in I3, I4. rewrite Hbad in I5. rewrite Hfile in I4. rewrite Hmsg in I5.
    rewrite (sum_sizes_heap s _ _ Hh) in I3.
    split; [done|]. split; [congruence|].
    rewrite I3, I4, I5. rewrite !filter_cons.
    destruct (empty_step_cases s (k, c)) as [(Hr & E1 & E2 & E3)|(Hr & E1 & E2 & E3)];
      rewrite E1, E2, E3.
    + rewrite (decide_True (P := removable rm s (k, c))) by done.
      rewrite (decide_False (P := ¬ removable rm s (k, c))) by tauto.
      rewrite sum_sizes_app_cons. simpl. rewrite <- app_assoc. simpl.
      repeat split; try done; lia.
    + rewrite (decide_False (P := removable rm s (k, c))) by done.
      rewrite (decide_True (P := ¬ removable rm s (k, c))) by done.
      simpl. rewrite <- app_assoc. simpl. done.
Qed.

End EmptyFacts.

(** ** Invariants of the operations *)

Lemma after_mono {A} (r : Res A) (P Q : Cache -> Prop) :
  (forall s, P s -> Q s) -> after r P -> after r Q.
Proof. destruct r; simpl; auto. Qed.

Lemma after_state_of {A} (r : Res A) (P : Cache -> Prop) s0 :
  P s0 -> after r P -> P (state_of s0 r).
Proof. destruct r; simpl; auto. Qed.

Lemma bind_after {A B} (m : M A) (k : A -> M B) (P : Cache -> Prop) s :
  after (m s) (fun s' => P s' ∧ forall a, after (k a s') P) -> after (bind m k s) P.
Proof.
  unfold bind. destruct (m s) as [a s'|e s'|]; simpl; [|tauto|done].
  intros [_ H]. apply H.
Qed.

Lemma try_catch_after {A} (m : M A) (h : Error -> M A) (P : Cache -> Prop) s :
  after (m s) (fun s' => P s' ∧ forall e, after (h e s') P) -> after (try_catch m h s) P.
Proof.
  unfold try_catch. destruct (m s) as [a s'|e s'|]; simpl; [tauto| |done].
  intros [_ H]. apply H.
Qed.

Lemma for_of_after {A} (P : Cache -> Prop) (l : list A) (body : A -> M unit) :
  (forall x s, x ∈ l -> P s -> after (body x s) P) ->
  forall s, P s -> after (for_of l body s) P.
Proof.
  induction l as [|x l IH]; intros Hbody s HP; [done|].
  simpl. unfold bind.
  pose proof (Hbody x s ltac:(left) HP) as Hx.
  destruct (body x s) as [[] s'|e s'|]; simpl in *; [|done|done].
  apply IH; [|done]. intros y s0 Hy. apply Hbody. by right.
Qed.

Lemma for_of_entries_after (P : Cache -> Prop) L (body : string -> nat -> M LoopCtl) :
  (forall k c s, P s -> Map_get k (_cacheItems s) = Some c -> after (body k c s) P) ->
  forall s, P s -> after (for_of_entries L body s) P.
Proof.
  intros Hbody. induction L as [|[k c] L IH]; intros s HP; [done|].
  simpl. destruct (decide (Map_get k (_cacheItems s) = Some c)) as [Hg|Hg]; [|by apply IH].
  pose proof (Hbody k c s HP Hg) as Hb.
  destruct (body k c s) as [[] s'|e s'|]; simpl in *; auto.
Qed.

Lemma origin_refl s : origin s s.
Proof. split; [done|]. auto. Qed.

Lemma origin_trans s s1 s2 : origin s s1 -> origin s1 s2 -> origin s s2.
Proof.
  intros [L1 H1] [L2 H2]. split; [lia|].
  intros k c Hg. destruct (H2 k c Hg) as [Hg1|Hc]; [|right; lia].
  apply H1. done.
Qed.

Lemma origin_survives s s' :
  heap s' = heap s -> (forall k c, Map_get k (_cacheItems s') = Some c ->
                                   Map_get k (_cacheItems s) = Some c) ->
  origin s s'.
Proof. intros Hh H. split; [by rewrite Hh|]. auto. Qed.

Lemma stable_refl s : wf s -> stable s s.
Proof. intros H. split; [done|apply origin_refl]. Qed.

(** A step that keeps the state well formed and only moves entries
    around keeps it stable. *)
Lemma stable_step s0 s s' :
  stable s0 s -> wf s' -> origin s s' -> stable s0 s'.
Proof. intros [_ Ho] Hwf Ho'. split; [done|]. by eapply origin_trans. Qed.

Lemma origin_detach key c s : origin s (detach key c s).
Proof.
  apply origin_survives; [apply detach_heap|].
  intros k c' Hg. rewrite detach_cacheItems in Hg.
  destruct (decide (k = key)) as [->|Hne].
  - by rewrite Map_get_delete_eq in Hg.
  - by rewrite Map_get_delete_ne in Hg.
Qed.

Section StableDelete.
Variable rm : nat -> bool.

Lemma origin_remove_artifact c s : after (remove_artifact rm c s) (origin s).
Proof.
  destruct (remove_artifact_cases rm c s) as [[_ ->]|[_ ->]]; simpl;
    by apply origin_survives.
Qed.

Lemma stable_delete s0 key oc s :
  oc = None ∨ Map_get key (_cacheItems s) = oc ->
  stable s0 s -> after (delete rm key oc s) (stable s0).
Proof.
  intros Hoc Hs. apply delete_closure; auto.
  - intros k c s1 Hg Hs1. eapply stable_step; [exact Hs1| |apply origin_detach].
    apply wf_detach; [done|apply Hs1].
  - intros c s1 Hs1. pose proof (wf_remove_artifact rm c s1 (proj1 Hs1)) as H1.
    pose proof (origin_remove_artifact c s1) as H2.
    destruct (remove_artifact rm c s1); simpl in *; auto;
      eapply stable_step; eauto.
Qed.

End StableDelete.

(** ** The cleaner ticks *)

Section TickFacts.
Variable rm : nat -> bool.

Lemma Walk_same_items downTo s r :
  Walk rm downTo s r -> after r (same_items s).
Proof.
  induction 1 as [s Hle|s Hnil Hlt|k c rest s s1 r Hidx Hlt Hd HW IH|
                  k c rest s e s1 Hidx Hlt Hd]; simpl.
  - apply same_items_refl.
  - apply same_items_refl.
  - pose proof (delete_keeps_delete rm k (Some c) s
                  (or_intror (Map_get_head _ k c _ Hidx))) as K.
    rewrite Hd in K. simpl in K. eapply after_mono; [|exact IH].
    intros s2 H2. eapply same_items_trans; [apply K|exact H2].
  - pose proof (delete_keeps_delete rm k (Some c) s
                  (or_intror (Map_get_head _ k c _ Hidx))) as K.
    rewrite Hd in K. apply K.
Qed.


Lemma clean_absolute_eq upLimit downTo s :
  clean_absolute rm upLimit downTo s =
  if Qltb upLimit (inject_Z (_currentSize s)) then
    match evict rm downTo s with
    | Ret _ s' => Ret tt s'
    | Throw e s' => Ret tt (with_console (fun l => l ++ [CleanFailed e]) s')
    | OutOfFuel => OutOfFuel
    end
  else Ret tt s.
Proof.
  unfold clean_absolute, try_catch, bind, reads, console_error, modify, ret.
  destruct (Qltb _ _); [|done]. by destruct (evict rm downTo s) as [[] ?|? ?|].
Qed.

Lemma clean_ratio_eq usage rate drate ca s :
  clean_ratio rm usage rate drate ca s =
  match usage with
  | None => Ret tt (with_console (fun l => l ++ [UsageProbeFailed DiskUsageFailed]) s)
  | Some u =>
      if ratio_lt (available u) (total u) drate then
        match evict rm (inject_Z (_currentSize s) - inject_Z (total u) * rate * ca)%Q s with
        | Ret _ s' => Ret tt s'
        | Throw e s' => Ret tt (with_console (fun l => l ++ [CleanFailed e]) s')
        | OutOfFuel => OutOfFuel
        end
      else Ret tt s
  end.
Proof.
  unfold clean_ratio, try_catch, bind, reads, console_error, modify, ret, throw.
  destruct usage as [u|]; [|done].
  destruct (ratio_lt _ _ _); [|done].
  match goal with |- context [evict rm ?d s] => by destruct (evict rm d s) as [[] ?|? ?|] end.
Qed.

Lemma cleaner_tick_eq usage s :
  cleaner_tick rm usage s =
  match _cleanerTimer s, _cleaner s with
  | Some _, AbsoluteCeiling upLimit downTo => clean_absolute rm upLimit downTo s
  | Some _, SpaceRatio rate drate ca => clean_ratio rm usage rate drate ca s
  | _, _ => Ret tt s
  end.
Proof.
  unfold cleaner_tick, bind, reads. destruct (_cleanerTimer s); [|done].
  by destruct (_cleaner s).
Qed.

End TickFacts.

Lemma Qmin'_le_r x y : (Qmin' x y <= y)%Q.
Proof.
  unfold Qmin'. destruct (Qle_bool x y) eqn:E.
  - by apply Qle_bool_iff.
  - apply Qle_refl.
Qed.

(** What the constructor installs for a positive [volumeUpLimit]. *)
Lemma new_cleaner_absolute o upLimit :
  Options.volumeUpLimit o = Some upLimit -> (0 < upLimit)%Q ->
  exists cleanAmount interval,
    new_cleaner o =
      (AbsoluteCeiling upLimit (upLimit * (1 - cleanAmount)), Some interval) ∧
    cleanAmount = Qmin' (default (1 # 10)%Q (Options.cleanAmount o)) 1 ∧
    (cleanAmount <= 1)%Q.
Proof.
  intros Hu Hpos. unfold new_cleaner, positive_opt. rewrite Hu.
  apply Qltb_true in Hpos. rewrite Hpos. simpl.
  eexists _, _. split; [reflexivity|]. split; [reflexivity|]. apply Qmin'_le_r.
Qed.

(** ** Invariants of a write *)

Lemma commit_fields key c sz t r rel s :
  _cacheItems (commit key c sz t r rel s) = Map_delete key (_cacheItems s) ++ [(key, c)] ∧
  heap (commit key c sz t r rel s)
    = alter (written_item sz t r rel (length (timers s))) c (heap s) ∧
  timers (commit key c sz t r rel s)
    = (if 0 <? t then timers s ++ [mkTimer key c t (clock s) Armed] else timers s) ∧
  _fileNameIndex (commit key c sz t r rel s) = _fileNameIndex s ∧
  ((c < length (heap s))%nat ->
     _currentSize (commit key c sz t r rel s)
       = _currentSize s - fileSize (item_of s c) + sz) ∧
  _cleaner (commit key c sz t r rel s) = _cleaner s ∧
  _cleanerTimer (commit key c sz t r rel s) = _cleanerTimer s ∧
  _defaultTimeout (commit key c sz t r rel s) = _defaultTimeout s ∧
  _defaultRefreshTimeoutWhenGet (commit key c sz t r rel s)
    = _defaultRefreshTimeoutWhenGet s ∧
  _cacheDir (commit key c sz t r rel s) = _cacheDir s ∧
  clock (commit key c sz t r rel s) = clock s ∧
  removed (commit key c sz t r rel s) = removed s ∧
  console (commit key c sz t r rel s) = console s.
Proof.
  unfold commit, item_of. simpl. destruct (0 <? t) eqn:Et; simpl.
  - rewrite Map_touch. rewrite !list_alter_alter_eq.
    split; [done|]. split.
    { apply list_alter_ext; [|done]. intros it _. unfold written_item. by rewrite Et. }
    repeat split; try done.
    intros Hc. rewrite list_lookup_total_alter_eq by done. simpl. lia.
  - rewrite Map_touch. rewrite !list_alter_alter_eq.
    split; [done|]. split.
    { apply list_alter_ext; [|done]. intros it _. unfold written_item. by rewrite Et. }
    repeat split; try done.
    intros Hc. rewrite list_lookup_total_alter_eq by done. simpl. lia.
Qed.

Lemma timer_ok_same s s' p :
  _cacheItems s' = _cacheItems s -> heap s' = heap s -> timer_ok s p -> timer_ok s' p.
Proof. unfold timer_ok, item_of. intros -> ->. done. Qed.

Lemma wf_clear_timer t s : wf s -> wf (with_timers (alter clear_timer t) s).
Proof.
  intros Hwf. apply wf_intro; simpl; try apply Hwf.
  - intros e. by apply wf_valid.
  - intros c it. by apply wf_names.
  - intros t' tm' Ht'. destruct (decide (t = t')) as [->|Hne].
    + rewrite list_lookup_alter_eq in Ht'.
      destruct (timers s !! t') as [tm|] eqn:E; simplify_eq/=. split; simpl; done.
    + rewrite list_lookup_alter_ne in Ht' by done.
      apply (timer_ok_same s); [done..|]. by apply wf_timer.
Qed.

Lemma wf_clear_old c s : wf s -> wf (clear_old c s).
Proof. intros H. unfold clear_old. destruct (timeout _); [by apply wf_clear_timer|done]. Qed.

Lemma clear_old_fields c s :
  _cacheItems (clear_old c s) = _cacheItems s ∧ heap (clear_old c s) = heap s ∧
  _fileNameIndex (clear_old c s) = _fileNameIndex s ∧
  _currentSize (clear_old c s) = _currentSize s.
Proof. unfold clear_old. destruct (timeout _); done. Qed.

(** After [clear_old], no timer that can still run belongs to the item. *)
Lemma clear_old_disarms c s t tm :
  wf s -> timers (clear_old c s) !! t = Some tm -> t_status tm = Armed -> t_cache tm ≠ c.
Proof.
  intros Hwf Ht Harmed Hc. unfold clear_old in Ht.
  destruct (timeout (item_of s c)) as [t0|] eqn:E0; simpl in Ht.
  - destruct (decide (t0 = t)) as [->|Hne].
    + rewrite list_lookup_alter_eq in Ht.
      destruct (timers s !! t) as [tm0|]; simplify_eq/=.
    + rewrite list_lookup_alter_ne in Ht by done.
      destruct (wf_timer s t tm Hwf Ht) as [_ Ha]. destruct (Ha Harmed) as [_ Hto].
      simpl in Hto. rewrite Hc, E0 in Hto. congruence.
  - destruct (wf_timer s t tm Hwf Ht) as [_ Ha]. destruct (Ha Harmed) as [_ Hto].
    simpl in Hto. rewrite Hc, E0 in Hto. done.
Qed.

Lemma wf_reserve key s :
  wf s ->
  wf (reserve key s).2 ∧
  ((reserve key s).1 < length (heap (reserve key s).2))%nat ∧
  (forall k', (k', (reserve key s).1) ∈ _cacheItems (reserve key s).2 -> k' = key) ∧
  _cacheItems (reserve key s).2 = _cacheItems s ∧
  origin s (reserve key s).2 ∧
  (Map_get key (_cacheItems s) = Some (reserve key s).1 ∨
   (Map_get key (_cacheItems s) = None ∧ (reserve key s).1 = length (heap s))).
Proof.
  intros Hwf. unfold reserve.
  destruct (Map_get key (_cacheItems s)) as [c|] eqn:Hg; simpl.
  - split; [done|]. split; [by eapply wf_get_valid|]. split.
    { intros k' Hk'. apply (wf_get_inj s k' key c Hwf); [|done].
      apply Map_get_NoDup; [by apply wf_keys|done]. }
    split; [done|]. split; [apply origin_refl|]. by left.
  - assert (Hvalid : forall e, e ∈ _cacheItems s -> (e.2 < length (heap s))%nat)
      by (intros e; by apply wf_valid).
    split; [|split; [|split; [|split; [|split]]]].
    + apply wf_intro; simpl.
      * by apply wf_keys.
      * by apply wf_refs.
      * intros e He. rewrite length_app. specialize (Hvalid e He). simpl. lia.
      * rewrite length_app. simpl. rewrite (wf_counter s Hwf). lia.
      * intros c it Hc. apply lookup_app_Some in Hc as [Hc|[Hlen Hc]].
        -- by eapply wf_names.
        -- destruct (c - length (heap s))%nat as [|n] eqn:En; simpl in Hc; [|done].
           injection Hc as <-. simpl. rewrite <- (wf_counter s Hwf). lia.
      * intros t tm Ht. destruct (wf_timer s t tm Hwf Ht) as [Hf Ha].
        split; [done|]. intros Harmed. destruct (Ha Harmed) as [Hget Hto].
        split; [done|]. simpl in *. unfold item_of in *. simpl.
        rewrite lookup_total_app_l; [done|].
        apply Map_get_elem in Hget. apply (Hvalid _ Hget).
    + rewrite length_app. simpl. lia.
    + intros k' Hk'. specialize (Hvalid _ Hk'). simpl in Hvalid. lia.
    + done.
    + split; [simpl; rewrite length_app; simpl; lia|]. simpl. auto.
    + right. done.
Qed.

Lemma wf_commit key c sz t r rel s :
  wf s -> (c < length (heap s))%nat ->
  (forall k', (k', c) ∈ _cacheItems s -> k' = key) ->
  (forall c', Map_get key (_cacheItems s) = Some c' -> c' = c) ->
  (forall t' tm, timers s !! t' = Some tm -> t_status tm = Armed -> t_cache tm ≠ c) ->
  wf (commit key c sz t r rel s).
Proof.
  intros Hwf Hc Hown Hkey Hno.
  destruct (commit_fields key c sz t r rel s) as (Fi & Fh & Ft & Fn & _).
  assert (Hlen : length (heap (commit key c sz t r rel s)) = length (heap s))
    by (rewrite Fh; apply length_alter).
  apply wf_intro; rewrite ?Fi, ?Hlen, ?Fn.
  - rewrite fmap_app. simpl. apply NoDup_app. split; [|split].
    + apply Map_delete_NoDup_fst, wf_keys, Hwf.
    + intros k Hk Hk'. apply list_elem_of_singleton in Hk'. subst k.
      rewrite Map_delete_fst in Hk. apply list_elem_of_filter in Hk as [Hk _]. done.
    + apply NoDup_singleton.
  - rewrite fmap_app. simpl. apply NoDup_app. split; [|split].
    + apply Map_delete_NoDup_snd, wf_refs, Hwf.
    + intros c' Hc1 Hc2. apply list_elem_of_singleton in Hc2. subst c'.
      apply list_elem_of_fmap in Hc1 as [[k' c'] [Heq He]]. simpl in Heq. subst c'.
      apply elem_of_Map_delete in He as [He Hne]. simpl in Hne.
      apply Hne. by apply Hown.
    + apply NoDup_singleton.
  - intros e He. apply elem_of_app in He as [He|He].
    + apply elem_of_Map_delete in He as [He _]. by apply wf_valid.
    + apply list_elem_of_singleton in He. by subst e.
  - by apply wf_counter.
  - intros c' it Hc'. rewrite Fh in Hc'.
    destruct (decide (c = c')) as [->|Hne].
    + rewrite list_lookup_alter_eq in Hc'.
      destruct (heap s !! c') as [it0|] eqn:E; simplify_eq/=. by eapply wf_names.
    + rewrite list_lookup_alter_ne in Hc' by done. by eapply wf_names.
  - intros t' tm' Ht'. rewrite Ft in Ht'.
    assert (Hold : timers s !! t' = Some tm' -> timer_ok (commit key c sz t r rel s) (t', tm')).
    { intros Hs. destruct (wf_timer s t' tm' Hwf Hs) as [Hf Ha].
      split; [done|]. intros Harmed. destruct (Ha Harmed) as [Hget Hto].
      pose proof (Hno t' tm' Hs Harmed) as Hnc. cbn [fst snd] in *.
      rewrite Fi. unfold item_of in *. rewrite Fh. split.
      - destruct (decide (t_key tm' = key)) as [Hk|Hk].
        + exfalso. apply Hnc. rewrite Hk in Hget. by apply Hkey.
        + by rewrite Map_get_touch_ne.
      - rewrite list_lookup_total_alter_ne by done. done. }
    destruct (0 <? t) eqn:Et; [|by apply Hold].
    apply lookup_app_Some in Ht' as [Ht'|[Hlen' Ht']]; [by apply Hold|].
    destruct (t' - length (timers s))%nat as [|n] eqn:En; simpl in Ht'; [|done].
    injection Ht' as <-. split; [done|]. intros _. cbn [fst snd t_key t_cache].
    split.
    + rewrite Fi. apply Map_get_touch_eq.
    + unfold item_of. rewrite Fh, list_lookup_total_alter_eq by done.
      unfold written_item. simpl. rewrite Et. f_equal. lia.
Qed.

Lemma origin_commit key c sz t r rel s :
  (forall c', Map_get key (_cacheItems s) = Some c' -> c' = c) ->
  forall s0, origin s0 s ->
    (Map_get key (_cacheItems s) = None -> (length (heap s0) <= c)%nat) ->
    origin s0 (commit key c sz t r rel s).
Proof.
  intros Hkey s0 [Hlen Ho] Hfresh.
  destruct (commit_fields key c sz t r rel s) as (Fi & Fh & _).
  split; [rewrite Fh, length_alter; lia|].
  intros k c' Hg. rewrite Fi in Hg.
  destruct (decide (k = key)) as [->|Hne].
  - rewrite Map_get_touch_eq in Hg. injection Hg as <-.
    destruct (Map_get key (_cacheItems s)) as [c0|] eqn:E.
    + rewrite (Hkey c0 eq_refl) in E. by apply Ho.
    + right. by apply Hfresh.
  - rewrite Map_get_touch_ne in Hg by done. by apply Ho.
Qed.

(** A write keeps the state well formed, whether it succeeds or not, and
    the only entry it may add is one on a newly created item. *)
Lemma stable_prepareWrite s0 writer key t r rel s :
  stable s0 s -> after (_prepareWrite writer key t r rel s) (stable s0).
Proof.
  intros [Hwf Ho]. rewrite _prepareWrite_eq. cbv zeta.
  destruct (wf_reserve key s Hwf) as (Hwf0 & Hc & Hown & Hidx & Ho0 & Hcase).
  set (c := (reserve key s).1) in *. set (sr := (reserve key s).2) in *.
  pose proof (wf_clear_old c sr Hwf0) as Hwf1.
  destruct (clear_old_fields c sr) as (Ci & Ch & Cn & Cs).
  assert (Ho1 : origin s0 (clear_old c sr)).
  { eapply origin_trans; [exact Ho|]. eapply origin_trans; [exact Ho0|].
    apply origin_survives; [done|]. intros k c'. by rewrite Ci. }
  destruct (writer _); simpl; try (split; done).
  split.
  - apply wf_commit; [done|by rewrite Ch|by rewrite Ci| |].
    + intros c'. rewrite Ci, Hidx. destruct Hcase as [Hg|[Hg _]]; rewrite Hg; congruence.
    + intros t' tm. by apply clear_old_disarms.
  - apply origin_commit.
    + intros c'. rewrite Ci, Hidx. destruct Hcase as [Hg|[Hg _]]; rewrite Hg; congruence.
    + done.
    + rewrite Ci, Hidx. intros Hn. destruct Hcase as [Hg|[_ Hg]]; [congruence|].
      rewrite Hg. destruct Ho as [Hl _]. lia.
Qed.

(** ** Every action keeps the state well formed *)

Lemma wf_ext s s' :
  _cacheItems s' = _cacheItems s -> heap s' = heap s ->
  _fileNameIndex s' = _fileNameIndex s -> timers s' = timers s ->
  wf s -> wf s'.
Proof. unfold wf, timer_ok, item_of. intros -> -> -> ->. done. Qed.

Lemma stable_ext s0 s s' :
  _cacheItems s' = _cacheItems s -> heap s' = heap s ->
  _fileNameIndex s' = _fileNameIndex s -> timers s' = timers s ->
  stable s0 s -> stable s0 s'.
Proof.
  intros Hi Hh Hn Ht [Hwf [Hl Ho]]. split; [by apply (wf_ext s)|].
  split; [by rewrite Hh|]. intros k c. rewrite Hi. apply Ho.
Qed.

Lemma Map_get_touch_same (m : list (string * nat)) key c k :
  Map_get key m = Some c -> Map_get k (Map_delete key m ++ [(key, c)]) = Map_get k m.
Proof.
  intros Hg. destruct (decide (k = key)) as [->|Hne].
  - by rewrite Map_get_touch_eq.
  - by rewrite Map_get_touch_ne.
Qed.

Lemma wf_touch key c t s :
  wf s -> Map_get key (_cacheItems s) = Some c -> wf (touch key c t s).
Proof.
  intros Hwf Hg. unfold touch.
  apply wf_intro; simpl; rewrite ?Map_touch.
  - rewrite fmap_app. simpl. apply NoDup_app. split; [|split].
    + apply Map_delete_NoDup_fst, wf_keys, Hwf.
    + intros k Hk Hk'. apply list_elem_of_singleton in Hk'. subst k.
      rewrite Map_delete_fst in Hk. apply list_elem_of_filter in Hk as [Hk _]. done.
    + apply NoDup_singleton.
  - rewrite fmap_app. simpl. apply NoDup_app. split; [|split].
    + apply Map_delete_NoDup_snd, wf_refs, Hwf.
    + intros c' Hc1 Hc2. apply list_elem_of_singleton in Hc2. subst c'.
      apply list_elem_of_fmap in Hc1 as [[k' c'] [Heq He]]. simpl in Heq. subst c'.
      apply elem_of_Map_delete in He as [He Hne]. simpl in Hne. apply Hne.
      apply (wf_get_inj s k' key c Hwf); [|done].
      apply Map_get_NoDup; [by apply wf_keys|done].
  + apply NoDup_singleton.
  - intros e He. apply elem_of_app in He as [He|He].
    + apply elem_of_Map_delete in He as [He _]. by apply wf_valid.
    + apply list_elem_of_singleton in He. subst e. simpl. by eapply wf_get_valid.
  - by apply wf_counter.
  - intros c' it. by apply wf_names.
  - intros t' tm' Ht'.
    assert (Hcases : exists tm, timers s !! t' = Some tm ∧ t_key tm' = t_key tm ∧
                       t_cache tm' = t_cache tm ∧ t_status tm' = t_status tm).
    { destruct (decide (t = t')) as [->|Hne].
      - rewrite list_lookup_alter_eq in Ht'.
        destruct (timers s !! t') as [tm|] eqn:E; simplify_eq/=.
        exists tm. split; [done|]. unfold refresh_timer.
        destruct (wf_timer s t' tm Hwf E) as [Hf _]. simpl in Hf.
        destruct (t_status tm) eqn:Est; simpl; rewrite ?Est; done.
      - rewrite list_lookup_alter_ne in Ht' by done. eauto. }
    destruct Hcases as (tm & Hs & E1 & E2 & E3).
    destruct (wf_timer s t' tm Hwf Hs) as [Hf Ha].
    unfold timer_ok, item_of in *. cbn [fst snd] in *. simpl.
    rewrite E1, E2, E3, Map_touch, Map_get_touch_same by done. done.
Qed.

Lemma stable_touch s0 key c t s :
  stable s0 s -> Map_get key (_cacheItems s) = Some c -> stable s0 (touch key c t s).
Proof.
  intros Hs Hg. eapply stable_step; [exact Hs|by apply wf_touch; [apply Hs|]|].
  apply origin_survives; [done|]. intros k c'. unfold touch. simpl.
  by rewrite Map_touch, Map_get_touch_same.
Qed.

Lemma stable_get s0 key s : stable s0 s -> after (get key s) (stable s0).
Proof.
  intros Hs. rewrite get_eq. destruct (Map_get key (_cacheItems s)) as [c|] eqn:Hg; [|done].
  rewrite refresh_on_read_eq.
  destruct (refreshTimeoutWhenGet (item_of s c)), (timeout (item_of s c)); simpl; try done.
  by apply stable_touch.
Qed.

Lemma stable_set s0 store key t r rel s :
  stable s0 s -> after (set store key t r rel s) (stable s0).
Proof. intros Hs. rewrite set_eq. by apply stable_prepareWrite. Qed.

Lemma stable_move s0 store key from t r rel s :
  stable s0 s -> after (move store key from t r rel s) (stable s0).
Proof. intros Hs. rewrite move_eq. by apply stable_prepareWrite. Qed.

Lemma stable_setGroup s0 items s :
  stable s0 s -> after (setGroup items s) (stable s0).
Proof.
  intros Hs. unfold setGroup. apply for_of_after; [|done].
  intros item s1 _ Hs1. destruct (truthy_from _); [by apply stable_move|by apply stable_set].
Qed.

Section StableBackground.
Variable rm : nat -> bool.

Lemma stable_empty_step s0 k c s :
  stable s0 s -> Map_get k (_cacheItems s) = Some c -> stable s0 (empty_step rm s (k, c)).
Proof.
  intros Hs Hg.
  assert (Hd : stable s0 (detach k c s)).
  { eapply stable_step; [exact Hs| |apply origin_detach]. apply wf_detach; [done|apply Hs]. }
  unfold empty_step. cbn [fst snd]. destruct (rm _); by apply (stable_ext s0 (detach k c s)).
Qed.

Lemma stable_empty s0 s : stable s0 s -> after (empty rm s) (stable s0).
Proof.
  intros Hs. rewrite empty_unfold. apply for_of_entries_after; [|done].
  intros k c s1 Hs1 Hg. rewrite empty_body_step. simpl. by apply stable_empty_step.
Qed.

Lemma stable_destroy s0 s : stable s0 s -> after (destroy rm s) (stable s0).
Proof.
  intros Hs. unfold destroy, bind, modify. apply stable_empty.
  by apply (stable_ext s0 s).
Qed.

Lemma stable_evict s0 downTo s : stable s0 s -> after (evict rm downTo s) (stable s0).
Proof.
  intros Hs. rewrite evict_unfold. apply for_of_entries_after; [|done].
  intros k c s1 Hs1 Hg. unfold evict_body, bind, reads, ret.
  destruct (Qltb _ _); [|done].
  pose proof (stable_delete rm s0 k (Some c) s1 (or_intror Hg) Hs1) as Hd.
  destruct (delete rm k (Some c) s1); done.
Qed.

Lemma stable_logged s0 (m : M unit) (msg : Error -> ConsoleMsg) s :
  after (m s) (stable s0) ->
  after (try_catch m (fun e => console_error (msg e)) s) (stable s0).
Proof.
  intros H. unfold try_catch, console_error, modify.
  destruct (m s) as [[] s1|e s1|]; simpl in *; [done| |done].
  by apply (stable_ext s0 s1).
Qed.

Lemma stable_cleaner_tick s0 usage s :
  stable s0 s -> after (cleaner_tick rm usage s) (stable s0).
Proof.
  intros Hs. unfold cleaner_tick, bind, reads.
  destruct (_cleanerTimer s); [|done].
  destruct (_cleaner s) as [|upLimit downTo|rate drate amount]; [done| |].
  - unfold clean_absolute. apply stable_logged. unfold bind, reads.
    destruct (Qltb _ _); [by apply stable_evict|done].
  - unfold clean_ratio. apply stable_logged. unfold bind at 1.
    destruct usage as [u|]; simpl; [|done].
    apply stable_logged. destruct (ratio_lt _ _ _); [|done].
    unfold bind, reads. by apply stable_evict.
Qed.

Lemma detach_fired key c t s :
  timeout (item_of s c) = Some t ->
  detach key c (with_timers (alter fire_timer t) s) = detach key c s.
Proof.
  intros Ht. unfold detach, item_of in *. simpl. rewrite Ht. unfold with_timers. simpl.
  f_equal. rewrite list_alter_alter_eq. by apply list_alter_ext.
Qed.

(** The callback of a well-formed armed timer finds the timer in its item
    and clears it first: the call is the deletion of an indexed entry. *)
Lemma delete_fired key c t s :
  timeout (item_of s c) = Some t ->
  delete rm key (Some c) (with_timers (alter fire_timer t) s) = delete rm key (Some c) s.
Proof.
  intros Ht. unfold delete. rewrite !delete_fuel_unfold. simpl.
  rewrite (detach_fired key c t s Ht). done.
Qed.

Lemma fire_eq t s :
  wf s ->
  fire rm t s =
  match timers s !! t with
  | Some tm =>
      if decide (t_status tm = Armed) then
        if deadline tm <=? clock s then
          try_catch (delete rm (t_key tm) (Some (t_cache tm)))
                    (fun e => console_error (CleanFailed e)) s
        else Ret tt s
      else Ret tt s
  | None => Ret tt s
  end.
Proof.
  intros Hwf. unfold fire, bind, reads. simpl.
  destruct (timers s !! t) as [tm|] eqn:E; [|done].
  destruct (decide (t_status tm = Armed)) as [Ha|]; [|done].
  destruct (deadline tm <=? clock s); [|done].
  unfold modify, try_catch.
  destruct (wf_timer s t tm Hwf E) as [_ H]. destruct (H Ha) as [_ Hto]. simpl in Hto.
  by rewrite (delete_fired _ _ t s Hto).
Qed.

Lemma stable_fire s0 t s : stable s0 s -> after (fire rm t s) (stable s0).
Proof.
  intros Hs. rewrite fire_eq by apply Hs.
  destruct (timers s !! t) as [tm|] eqn:E; [|done].
  destruct (decide (t_status tm = Armed)) as [Ha|]; [|done].
  destruct (deadline tm <=? clock s); [|done].
  apply stable_logged. apply stable_delete; [|done].
  right. destruct (wf_timer s t tm (proj1 Hs) E) as [_ H]. by destruct (H Ha).
Qed.

End StableBackground.

Lemma stable_step_action s0 a s : stable s0 s -> after (step a s) (stable s0).
Proof.
  intros Hs. destruct a; simpl.
  - by apply stable_set.
  - by apply stable_move.
  - by apply stable_setGroup.
  - unfold bind. pose proof (stable_get s0 key s Hs) as H.
    destruct (get key s); done.
  - unfold bind. pose proof (stable_get s0 key s Hs) as H.
    change (getStream key s) with (get key s). destruct (get key s); done.
  - done.
  - apply stable_delete; auto.
  - by apply stable_empty.
  - by apply stable_destroy.
  - by apply stable_cleaner_tick.
  - by apply stable_fire.
  - unfold elapse, modify. simpl. by apply (stable_ext s0 s).
Qed.

Lemma stable_exec s0 a s : stable s0 s -> stable s0 (exec a s).
Proof.
  intros Hs. unfold exec. apply after_state_of; [done|]. by apply stable_step_action.
Qed.

Lemma stable_run l : forall s0 s, stable s0 s -> stable s0 (run l s).
Proof.
  induction l as [|a l IH]; intros s0 s Hs; [done|].
  simpl. apply IH. by apply stable_exec.
Qed.

Lemma wf_run l s : wf s -> wf (run l s).
Proof. intros H. apply (stable_run l s s). by apply stable_refl. Qed.

Lemma wf_initial o dir now : wf (initial o dir now).
Proof.
  unfold initial. destruct (new_cleaner o). apply wf_intro; simpl; try done.
  - apply NoDup_nil_2.
  - apply NoDup_nil_2.
  - intros e He. by apply elem_of_nil in He.
Qed.

(** ** Groups *)

Lemma prepareWrite_written store key t r rel s sz :
  wf s -> store (write_target key s) = Written sz ->
  exists s' c,
    _prepareWrite store key t r rel s = Ret tt s' ∧ wf s' ∧
    Map_get key (_cacheItems s') = Some c ∧
    related (item_of s' c) = rel ∧
    fileSize (item_of s' c) = sz ∧
    refreshTimeoutWhenGet (item_of s' c) = r ∧
    forall k' c', k' ≠ key -> Map_get k' (_cacheItems s) = Some c' ->
      Map_get k' (_cacheItems s') = Some c' ∧ item_of s' c' = item_of s c'.
Proof.
  intros Hwf Hst.
  pose proof (stable_prepareWrite s store key t r rel s (stable_refl s Hwf)) as Hstable.
  rewrite _prepareWrite_eq in *. cbv zeta in *.
  rewrite write_target_reserved, Hst in *. simpl in Hstable.
  destruct (wf_reserve key s Hwf) as (Hwf0 & Hc & Hown & Hidx & Ho0 & Hcase).
  set (c := (reserve key s).1) in *. set (sr := (reserve key s).2) in *.
  destruct (clear_old_fields c sr) as (Ci & Ch & Cn & Cs).
  destruct (commit_fields key c sz t r rel (clear_old c sr)) as (Fi & Fh & _).
  exists (commit key c sz t r rel (clear_old c sr)), c.
  split; [done|]. split; [apply Hstable|].
  assert (Hitem : item_of (commit key c sz t r rel (clear_old c sr)) c
                  = written_item sz t r rel (length (timers (clear_old c sr)))
                      (item_of (clear_old c sr) c)).
  { unfold item_of. rewrite Fh. apply list_lookup_total_alter_eq. by rewrite Ch. }
  split; [rewrite Fi; apply Map_get_touch_eq|].
  rewrite Hitem. repeat split; try done.
  - rewrite Fi, Ci, Hidx. by rewrite Map_get_touch_ne.
  - assert (Hne : c ≠ c').
    { intros <-. apply H. apply Hown. rewrite Hidx. by apply Map_get_elem. }
    unfold item_of. rewrite Fh, list_lookup_total_alter_ne, Ch by done.
    pose proof (wf_get_valid s k' c' Hwf H0) as Hv.
    unfold sr, reserve. destruct (Map_get key (_cacheItems s)); simpl; [done|].
    by rewrite lookup_total_app_l.
Qed.

Lemma grouped_write R store key t r s sz k :
  wf s -> store (write_target key s) = Written sz ->
  exists s', _prepareWrite store key t r (Some R) s = Ret tt s' ∧ wf s' ∧
             grouped R s' key ∧ (grouped R s k -> grouped R s' k).
Proof.
  intros Hwf Hst.
  destruct (prepareWrite_written store key t r (Some R) s sz Hwf Hst)
    as (s' & c & Hr & Hwf' & Hg & Hrel & _ & _ & Hother).
  exists s'. split; [done|]. split; [done|]. split; [by exists c|].
  intros (c' & Hg' & Hrel'). destruct (decide (k = key)) as [->|Hne]; [by exists c|].
  destruct (Hother k c' Hne Hg') as [H1 H2]. exists c'. by rewrite H2.
Qed.

Lemma setGroup_body_eq R item s :
  (match truthy_from (gi_from item) with
   | Some from =>
       move (gi_store item) (gi_key item) from (gi_timeout item)
            (gi_refreshTimeoutWhenGet item) (Some R)
   | None =>
       set (gi_store item) (gi_key item) (gi_timeout item)
           (gi_refreshTimeoutWhenGet item) (Some R)
   end) s =
  _prepareWrite (gi_store item) (gi_key item)
    (default (_defaultTimeout s) (gi_timeout item))
    (default (_defaultRefreshTimeoutWhenGet s) (gi_refreshTimeoutWhenGet item)) (Some R) s.
Proof. by destruct (truthy_from _). Qed.

Lemma setGroup_loop R items :
  forall s, wf s ->
    (forall item f, item ∈ items -> exists sz, gi_store item f = Written sz) ->
    exists s',
      for_of items (fun item =>
        match truthy_from (gi_from item) with
        | Some from =>
            move (gi_store item) (gi_key item) from (gi_timeout item)
                 (gi_refreshTimeoutWhenGet item) (Some R)
        | None =>
            set (gi_store item) (gi_key item) (gi_timeout item)
                (gi_refreshTimeoutWhenGet item) (Some R)
        end) s = Ret tt s' ∧
      wf s' ∧
      (forall k, grouped R s k -> grouped R s' k) ∧
      (forall item, item ∈ items -> grouped R s' (gi_key item)).
Proof.
  induction items as [|item items IH]; intros s Hwf Hok.
  - exists s. split; [done|]. split; [done|]. split; [done|].
    intros item Hi. by apply elem_of_nil in Hi.
  - simpl. unfold bind. rewrite setGroup_body_eq.
    destruct (Hok item (write_target (gi_key item) s) ltac:(left)) as [sz Hsz].
    assert (Hw : forall k, exists s1,
      _prepareWrite (gi_store item) (gi_key item)
        (default (_defaultTimeout s) (gi_timeout item))
        (default (_defaultRefreshTimeoutWhenGet s) (gi_refreshTimeoutWhenGet item))
        (Some R) s = Ret tt s1 ∧ wf s1 ∧ grouped R s1 (gi_key item) ∧
        (grouped R s k -> grouped R s1 k)).
    { intros k. by eapply grouped_write. }
    destruct (Hw (gi_key item)) as (s1 & Hr & Hwf1 & Hg1 & _). rewrite Hr.
    destruct (IH s1 Hwf1) as (s' & Hr' & Hwf' & Hmono & Hall).
    { intros it f Hit. apply Hok. by right. }
    exists s'. split; [done|]. split; [done|]. split.
    + intros k Hk. apply Hmono. destruct (Hw k) as (s1' & Hr1' & _ & _ & Hk').
      rewrite Hr in Hr1'. injection Hr1' as <-. by apply Hk'.
    + intros it Hit. apply elem_of_cons in Hit as [->|Hit]; [by apply Hmono|by apply Hall].
Qed.

Section GroupDelete.
Variable rm : nat -> bool.
Variable R : list string.

Lemma is_group_keeps s s' :
  delete_keeps s s' -> NoDup (keys s) -> is_group R s -> is_group R s'.
Proof.
  intros (F & _ & S) Hnd HG k c Hk Hg.
  assert (Hh : heap s' = heap s) by apply F.
  unfold item_of. rewrite Hh. apply (HG k c Hk).
  apply Map_get_NoDup; [done|]. eapply survives_elem; [exact S|]. by apply Map_get_elem.
Qed.

Lemma remove_artifact_keys c s :
  after (remove_artifact rm c s) (fun s' => keys s' = keys s).
Proof.
  destruct (remove_artifact_cases rm c s) as [[_ ->]|[_ ->]]; done.
Qed.

Lemma detach_keys key c s k : k ∈ keys (detach key c s) <-> k ∈ keys s ∧ k ≠ key.
Proof.
  unfold keys. rewrite detach_cacheItems, Map_delete_fst, list_elem_of_filter. tauto.
Qed.

(** Deleting a member of a group takes every member out of the index, also
    when a removal throws on the way, and touches no key outside the
    group. *)
Lemma Deletes_group :
  (forall key oc s r, Deletes rm key oc s r ->
     oc = None -> NoDup (keys s) -> is_group R s -> key ∈ R ->
     (key ∉ keys s -> r = Ret tt s) ∧
     (key ∈ keys s -> after r (fun s' => forall k, k ∈ R -> k ∉ keys s')) ∧
     after r (fun s' => forall k, k ∉ R -> k ∈ keys s -> k ∈ keys s')) ∧
  (forall l s r, DeletesAll rm l s r ->
     NoDup (keys s) -> is_group R s -> (forall k, k ∈ l -> k ∈ R) ->
     ((forall k, k ∈ l -> k ∉ keys s) -> r = Ret tt s) ∧
     ((exists k, k ∈ l ∧ k ∈ keys s) ->
        after r (fun s' => forall k, k ∈ R -> k ∉ keys s')) ∧
     after r (fun s' => forall k, k ∉ R -> k ∈ keys s -> k ∈ keys s')).
Proof.
  apply (Deletes_mutind rm
    (fun key oc s r _ =>
       oc = None -> NoDup (keys s) -> is_group R s -> key ∈ R ->
       (key ∉ keys s -> r = Ret tt s) ∧
       (key ∈ keys s -> after r (fun s' => forall k, k ∈ R -> k ∉ keys s')) ∧
       after r (fun s' => forall k, k ∉ R -> k ∈ keys s -> k ∈ keys s'))
    (fun l s r _ =>
       NoDup (keys s) -> is_group R s -> (forall k, k ∈ l -> k ∈ R) ->
       ((forall k, k ∈ l -> k ∉ keys s) -> r = Ret tt s) ∧
       ((exists k, k ∈ l ∧ k ∈ keys s) ->
          after r (fun s' => forall k, k ∈ R -> k ∉ keys s')) ∧
       after r (fun s' => forall k, k ∉ R -> k ∈ keys s -> k ∈ keys s'))).
  - intros key s Habs _ _ _ _. split; [done|]. split; [|by simpl].
    intros Hin. by apply Map_get_None in Habs.
  - intros key oc c s r Hc HD IH -> Hnd HG Hkey. simpl in Hc.
    assert (Hin : key ∈ keys s) by (apply Map_get_is_Some; eauto).
    pose proof (HG key c Hkey Hc) as Hrel. rewrite Hrel in IH. simpl in IH.
    pose proof (delete_keeps_detach key c s) as K1.
    destruct IH as (IHa & IHb & IHc).
    { eapply survives_NoDup; [apply K1|done]. }
    { by apply (is_group_keeps s). }
    { done. }
    split; [done|]. split.
    + intros _.
      destruct (decide (Exists (fun k => k ∈ keys (detach key c s)) R)) as [He|He].
      * apply Exists_exists in He. specialize (IHb He).
        destruct r as [[] s2|e s2|]; simpl in *; [|done|done].
        pose proof (remove_artifact_keys c s2) as Hk.
        destruct (remove_artifact rm c s2); simpl in *; try done; by rewrite Hk.
      * rewrite Exists_exists in He.
        assert (Hall : forall k, k ∈ R -> k ∉ keys (detach key c s)) by naive_solver.
        rewrite (IHa Hall). simpl.
        pose proof (remove_artifact_keys c (detach key c s)) as Hk.
        destruct (remove_artifact rm c (detach key c s)); simpl in *; try done;
          by rewrite Hk.
    + assert (Hout : forall s2, (forall k, k ∉ R -> k ∈ keys (detach key c s) -> k ∈ keys s2) ->
                       forall k, k ∉ R -> k ∈ keys s -> k ∈ keys s2).
      { intros s2 H2 k Hk Hks. apply H2; [done|]. apply detach_keys. split; [done|].
        intros ->. done. }
      destruct r as [[] s2|e s2|]; simpl in *; [|by apply Hout|done].
      pose proof (remove_artifact_keys c s2) as Hk.
      destruct (remove_artifact rm c s2); simpl in *; try done; rewrite Hk; by apply Hout.
  - intros s _ _ _. split; [done|]. split; [|by simpl].
    intros (k & Hk & _). by apply elem_of_nil in Hk.
  - intros item rest s s1 r HD1 IH1 HD2 IH2 Hnd HG Hsub.
    destruct (IH1 eq_refl Hnd HG (Hsub item ltac:(left))) as (I1a & I1b & I1c).
    pose proof (proj1 (Deletes_keeps rm) _ _ _ _ HD1 (or_introl eq_refl)) as K1. simpl in K1.
    destruct IH2 as (I2a & I2b & I2c).
    { eapply survives_NoDup; [apply K1|done]. }
    { by apply (is_group_keeps s). }
    { intros k Hk. apply Hsub. by right. }
    simpl in I1b, I1c. split; [|split].
    + intros Habs. assert (Hs : s1 = s).
      { specialize (I1a (Habs item ltac:(left))). congruence. }
      subst s1. apply I2a. intros k Hk. apply Habs. by right.
    + intros (k & Hk & Hks). destruct (decide (item ∈ keys s)) as [Hi|Hi].
      * specialize (I1b Hi). rewrite I2a; [done|]. intros k' Hk'. apply I1b, Hsub. by right.
      * assert (Hs : s1 = s) by (specialize (I1a Hi); congruence). subst s1.
        apply I2b. exists k. split; [|done].
        apply elem_of_cons in Hk as [->|Hk]; done.
    + eapply after_mono; [|exact I2c]. simpl. auto.
  - intros item rest s e s1 HD1 IH1 Hnd HG Hsub.
    destruct (IH1 eq_refl Hnd HG (Hsub item ltac:(left))) as (I1a & I1b & I1c).
    assert (Hi : item ∈ keys s).
    { destruct (decide (item ∈ keys s)) as [Hi|Hi]; [done|]. by specialize (I1a Hi). }
    split; [|split].
    + intros Habs. exfalso. by apply (Habs item ltac:(left)).
    + intros _. by apply I1b.
    + done.
Qed.

Lemma delete_group m s :
  NoDup (keys s) -> is_group R s -> m ∈ R -> m ∈ keys s ->
  after (delete rm m None s)
    (fun s' => (forall k, k ∈ R -> k ∉ keys s') ∧
               _cacheItems s' = filter (fun e => e.1 ∉ R) (_cacheItems s)).
Proof.
  intros Hnd HG Hm Hin.
  destruct (proj1 Deletes_group m None s _ (delete_Deletes rm m None s) eq_refl Hnd HG Hm)
    as (_ & Hb & Hc).
  specialize (Hb Hin).
  pose proof (delete_keeps_delete rm m None s (or_introl eq_refl)) as Hk.
  destruct (delete rm m None s) as [[] s'|e s'|]; simpl in *; [| |done].
  all: split; [done|]; destruct Hk as (_ & _ & S); unfold survives in S; rewrite S;
    apply filter_ext_elem; intros x Hx; split;
    [ intros Hs Hr; by apply (Hb x.1)
    | intros Hr; apply Hc; [done|by apply (list_elem_of_fmap_2 fst) in Hx] ].
Qed.

End GroupDelete.

(** ** Entries without a timer of their own *)

Section Settled.
Variable key : string.

Lemma unlisted_keeps s s' :
  delete_keeps s s' -> NoDup (keys s) -> unlisted key s -> unlisted key s'.
Proof.
  intros (F & _ & S) Hnd Hu k' c' Hg Hne.
  assert (Hh : heap s' = heap s) by apply F.
  unfold item_of. rewrite Hh. apply (Hu k' c'); [|done].
  apply Map_get_NoDup; [done|]. eapply survives_elem; [exact S|]. by apply Map_get_elem.
Qed.

Lemma no_own_timer_cleared s s' :
  only_cleared s s' -> no_own_timer key s -> no_own_timer key s'.
Proof.
  intros [_ Hc] Hn t tm' Ht Ha. destruct (Hc t tm' Ht) as (tm & Hs & [->| ->]).
  - by apply (Hn t tm).
  - done.
Qed.

(** The deletion of another key does not reach an unlisted key. *)
Lemma Deletes_spares rm :
  (forall k0 oc s r, Deletes rm k0 oc s r ->
     k0 ≠ key -> oc = None ∨ Map_get k0 (_cacheItems s) = oc ->
     NoDup (keys s) -> unlisted key s ->
     after r (fun s' => Map_get key (_cacheItems s') = Map_get key (_cacheItems s))) ∧
  (forall l s r, DeletesAll rm l s r ->
     key ∉ l -> NoDup (keys s) -> unlisted key s ->
     after r (fun s' => Map_get key (_cacheItems s') = Map_get key (_cacheItems s))).
Proof.
  apply (Deletes_mutind rm
    (fun k0 oc s r _ =>
       k0 ≠ key -> oc = None ∨ Map_get k0 (_cacheItems s) = oc ->
       NoDup (keys s) -> unlisted key s ->
       after r (fun s' => Map_get key (_cacheItems s') = Map_get key (_cacheItems s)))
    (fun l s r _ =>
       key ∉ l -> NoDup (keys s) -> unlisted key s ->
       after r (fun s' => Map_get key (_cacheItems s') = Map_get key (_cacheItems s)))).
  - intros k0 s _ _ _ _ _. done.
  - intros k0 oc c s r Hc HD IH Hne Hoc Hnd Hu.
    assert (Hget : Map_get k0 (_cacheItems s) = Some c).
    { destruct Hoc as [->|Hoc]; simpl in Hc; [done|].
      rewrite Hoc. destruct oc; simpl in Hc; congruence. }
    pose proof (delete_keeps_detach k0 c s) as K1.
    assert (Hd : Map_get key (_cacheItems (detach k0 c s)) = Map_get key (_cacheItems s)).
    { rewrite detach_cacheItems. apply Map_get_delete_ne. done. }
    specialize (IH (Hu k0 c Hget Hne)
                   (survives_NoDup _ _ (proj2 (proj2 K1)) Hnd)
                   (unlisted_keeps _ _ K1 Hnd Hu)).
    destruct r as [[] s2|e s2|]; simpl in *; [|congruence|done].
    pose proof (remove_artifact_cacheItems rm c s s2) as E.
    destruct (remove_artifact rm c s2); simpl in *; try done; rewrite E; congruence.
  - intros s _ _ _. done.
  - intros item rest s s1 r HD1 IH1 HD2 IH2 Hl Hnd Hu.
    apply not_elem_of_cons in Hl as [Hne Hl].
    pose proof (proj1 (Deletes_keeps rm) _ _ _ _ HD1 (or_introl eq_refl)) as K1. simpl in K1.
    specialize (IH1 (not_eq_sym Hne) (or_introl eq_refl) Hnd Hu). simpl in IH1.
    specialize (IH2 Hl (survives_NoDup _ _ (proj2 (proj2 K1)) Hnd)
                    (unlisted_keeps _ _ K1 Hnd Hu)).
    eapply after_mono; [|exact IH2]. simpl. intros s2 H2. congruence.
  - intros item rest s e s1 HD1 IH1 Hl Hnd Hu.
    apply not_elem_of_cons in Hl as [Hne Hl].
    apply (IH1 (not_eq_sym Hne) (or_introl eq_refl) Hnd Hu).
Qed.

Lemma settled_ext c s s' :
  _cacheItems s' = _cacheItems s -> heap s' = heap s ->
  _fileNameIndex s' = _fileNameIndex s -> timers s' = timers s ->
  settled key c s -> settled key c s'.
Proof.
  intros Hi Hh Hn Ht (Hwf & Hg & Hno & Hu).
  split; [by apply (wf_ext s)|]. split; [by rewrite Hi|]. split.
  - intros t tm. rewrite Ht. apply Hno.
  - intros k' c'. unfold item_of. rewrite Hi, Hh. apply Hu.
Qed.

Lemma settled_fire rm c t s : settled key c s -> after (fire rm t s) (settled key c).
Proof.
  intros (Hwf & Hg & Hno & Hu).
  pose proof (stable_fire rm s t s (stable_refl s Hwf)) as Hst.
  rewrite fire_eq in * by done.
  destruct (timers s !! t) as [tm|] eqn:E; [|done].
  destruct (decide (t_status tm = Armed)) as [Ha|]; [|done].
  destruct (deadline tm <=? clock s); [|done].
  pose proof (Hno t tm E Ha) as Hne.
  destruct (wf_timer s t tm Hwf E) as [_ H]. destruct (H Ha) as [Hgt _]. simpl in Hgt.
  pose proof (proj1 (Deletes_spares rm) _ _ _ _
                (delete_Deletes rm (t_key tm) (Some (t_cache tm)) s)
                Hne (or_intror Hgt) (wf_keys s Hwf) Hu) as Hsp.
  pose proof (delete_keeps_delete rm (t_key tm) (Some (t_cache tm)) s (or_intror Hgt)) as K.
  unfold try_catch, console_error, modify in *.
  assert (Hafter : forall s', delete_keeps s s' ->
            Map_get key (_cacheItems s') = Map_get key (_cacheItems s) ->
            wf s' -> settled key c s').
  { intros s' K' Hm Hwf'. split; [done|]. split; [congruence|]. split.
    - eapply no_own_timer_cleared; [apply K'|done].
    - by apply (unlisted_keeps s); [|apply wf_keys|]. }
  destruct (delete rm (t_key tm) (Some (t_cache tm)) s) as [[] s'|e s'|]; simpl in *;
    [| |done].
  - apply Hafter; [done|done|apply Hst].
  - apply (settled_ext c s'); try done. apply Hafter; [done|done|].
    destruct Hst as [Hw _]. by apply (wf_ext _ s') in Hw.
Qed.

Lemma settled_touch c k c0 t0 s :
  settled key c s -> Map_get k (_cacheItems s) = Some c0 ->
  settled key c (touch k c0 t0 s).
Proof.
  intros (Hwf & Hg & Hno & Hu) Hk.
  split; [by apply wf_touch|]. unfold touch. simpl. rewrite Map_touch.
  split; [by rewrite Map_get_touch_same|]. split.
  - intros t tm' Ht Ha. simpl in Ht.
    destruct (decide (t0 = t)) as [->|Hne].
    + rewrite list_lookup_alter_eq in Ht.
      destruct (timers s !! t) as [tm|] eqn:E; simplify_eq/=.
      destruct (wf_timer s t tm Hwf E) as [Hf _]. simpl in Hf.
      unfold refresh_timer in *. destruct (t_status tm) eqn:Est; simpl in *.
      * apply (Hno t tm E Est).
      * done.
      * congruence.
    + rewrite list_lookup_alter_ne in Ht by done. by apply (Hno t tm').
  - intros k' c'. unfold item_of. simpl. rewrite Map_touch, Map_get_touch_same by done.
    apply Hu.
Qed.

Lemma settled_get c k s : settled key c s -> after (get k s) (settled key c).
Proof.
  intros Hs. rewrite get_eq. destruct (Map_get k (_cacheItems s)) as [c0|] eqn:Hk; [|done].
  rewrite refresh_on_read_eq.
  destruct (refreshTimeoutWhenGet (item_of s c0)), (timeout (item_of s c0)); simpl; try done.
  by apply settled_touch.
Qed.

(** Reads and the passing of time leave a settled entry where it is. *)
Lemma settled_exec c a s : passive a = true -> settled key c s -> settled key c (exec a s).
Proof.
  intros Hp Hs. unfold exec. apply after_state_of; [done|].
  destruct a as [| | |k|k|k| | | | |rm t|ms]; simpl in Hp; try discriminate; simpl.
  - unfold bind. pose proof (settled_get c k s Hs) as H. destruct (get k s); done.
  - unfold bind. pose proof (settled_get c k s Hs) as H.
    change (getStream k s) with (get k s). destruct (get k s); done.
  - done.
  - by apply settled_fire.
  - unfold elapse, modify. simpl. by apply (settled_ext c s).
Qed.

Lemma settled_run c acts :
  forall s, forallb passive acts = true -> settled key c s -> settled key c (run acts s).
Proof.
  induction acts as [|a acts IH]; intros s Hp Hs; [done|].
  simpl in Hp. apply andb_true_iff in Hp as [Ha Hp]. simpl. apply IH; [done|].
  by apply settled_exec.
Qed.

(** A successful write whose timeout is not positive leaves the entry
    without a timer of its own. *)
Lemma prepareWrite_no_own_timer store ms r rel s s1 :
  wf s -> ms <= 0 -> _prepareWrite store key ms r rel s = Ret tt s1 ->
  exists c, wf s1 ∧ Map_get key (_cacheItems s1) = Some c ∧ no_own_timer key s1.
Proof.
  intros Hwf Hms Hr.
  pose proof (stable_prepareWrite s store key ms r rel s (stable_refl s Hwf)) as Hst.
  rewrite Hr in Hst. simpl in Hst. destruct Hst as [Hwf1 _].
  rewrite _prepareWrite_eq in Hr. cbv zeta in Hr.
  destruct (wf_reserve key s Hwf) as (Hwf0 & _).
  set (c := (reserve key s).1) in *. set (sr := (reserve key s).2) in *.
  destruct (store _) as [| |sz]; try done. injection Hr as <-.
  destruct (commit_fields key c sz ms r rel (clear_old c sr)) as (Fi & _ & Ft & _).
  assert (Hg : Map_get key (_cacheItems (commit key c sz ms r rel (clear_old c sr))) = Some c).
  { rewrite Fi. apply Map_get_touch_eq. }
  exists c. split; [done|]. split; [done|].
  intros t tm Ht Ha Hk.
  destruct (wf_timer _ t tm Hwf1 Ht) as [_ H]. destruct (H Ha) as [Hgt _].
  cbn [fst snd] in Hgt. rewrite Hk, Hg in Hgt. injection Hgt as Hc.
  rewrite Ft in Ht. assert ((0 <? ms) = false) as E by lia. rewrite E in Ht.
  by apply (clear_old_disarms c sr t tm Hwf0 Ht Ha).
Qed.

End Settled.

(** * The claims *)

(** ** C3: a failed write *)

(** C3. When the writer of a [set] or [move] call rejects, the call throws
    the failure, [_currentSize] is what it was, and the index is what it
    was: a key that was absent is still absent, a key that was present has
    its place in the order, its item and the item's [fileSize]. *)
Theorem C3_failed_write_leaves_index
    (store : Writer) (key from : string) (t : option Z) (r : option bool)
    (rel : option (list string)) (s : Cache)
    (Hfail : store (write_target key s) = WriterFails) :
  exists s',
    set store key t r rel s = Throw (WriteFailed (write_target key s)) s' ∧
    move store key from t r rel s = Throw (WriteFailed (write_target key s)) s' ∧
    _currentSize s' = _currentSize s ∧
    _cacheItems s' = _cacheItems s ∧
    has key s' = has key s ∧
    (forall c, Map_get key (_cacheItems s) = Some c ->
       Map_get key (_cacheItems s') = Some c ∧
       fileSize (item_of s' c) = fileSize (item_of s c)).
Proof.
  exists (clear_old (reserve key s).1 (reserve key s).2).
  rewrite move_eq, set_eq, _prepareWrite_eq. simpl.
  rewrite write_target_reserved, Hfail.
  destruct (failed_write_state key s) as (Hsz & Hidx & Hheap).
  repeat split; try done.
  - unfold has. by rewrite Hidx.
  - by rewrite Hidx.
  - unfold item_of. by rewrite (Hheap c).
Qed.

Lemma C3_failed_write_witness :
  store_fails (write_target "a" two_entries) = WriterFails ∧
  exists s',
    set store_fails "a" None None None two_entries = Throw (WriteFailed 0%nat) s' ∧
    _currentSize s' = 12 ∧ has "a" s' = true.
Proof.
  split; [reflexivity|].
  destruct (C3_failed_write_leaves_index store_fails "a" "/elsewhere" None None None
              two_entries eq_refl) as (s' & Hset & _ & Hsz & _ & Hhas & _).
  exists s'. split; [exact Hset|]. split; [rewrite Hsz; reflexivity|].
  rewrite Hhas. reflexivity.
Defined.

(** ** C8: [empty] *)

(** The claim as stated fails: with "a" (5 bytes, file 0) and "b" (7 bytes,
    file 1) indexed and the removal of file 0 failing, [empty] leaves the
    index empty but [_currentSize] at 5. *)
Lemma C8_empty_failure_keeps_size :
  exists s', empty (rm_fails_on 0) two_entries = Ret tt s' ∧
             has "a" s' = false ∧ has "b" s' = false ∧
             _currentSize s' = 5 ∧ _currentSize s' ≠ 0.
Proof. eexists. vm_compute. repeat split; try reflexivity. discriminate. Qed.

(** C8, amended. [empty] returns, whatever removals fail; afterwards no key
    is indexed; every failed removal is logged and the loop goes on;
    [_currentSize] has gone down by the sizes of the entries whose artifact
    was removed, and by nothing for the others. So with an exact size
    bookkeeping before, what is left counted is the size of the entries
    whose removal failed, which is 0 when none failed. *)
Theorem C8_empty_clears_index (rm : nat -> bool) (s : Cache)
    (Hkeys : NoDup (keys s)) :
  exists s',
    empty rm s = Ret tt s' ∧
    _cacheItems s' = [] ∧
    (forall key, has key s' = false) ∧
    _currentSize s' =
      _currentSize s - sum_sizes s (filter (removable rm s) (_cacheItems s)) ∧
    console s' =
      console s ++
      map (remove_failure s) (filter (fun e => ¬ removable rm s e) (_cacheItems s)) ∧
    (size_consistent s ->
       _currentSize s' =
         sum_sizes s (filter (fun e => ¬ removable rm s e) (_cacheItems s))) ∧
    (size_consistent s -> (forall f, rm f = true) -> _currentSize s' = 0).
Proof.
  exists (foldl (empty_step rm) s (_cacheItems s)).
  rewrite empty_unfold, (for_of_entries_empty rm _ s Hkeys eq_refl).
  destruct (foldl_empty_step rm (_cacheItems s) s Hkeys eq_refl) as (I1 & I2 & I3 & I4 & I5).
  assert (Hsplit : sum_sizes s (_cacheItems s) =
            sum_sizes s (filter (removable rm s) (_cacheItems s)) +
            sum_sizes s (filter (fun e => ¬ removable rm s e) (_cacheItems s))).
  { rewrite <- sum_sizes_app. apply sum_sizes_perm. symmetry.
    apply filter_app_complement. }
  split; [done|]. split; [done|]. split.
  { intros key. unfold has. rewrite I1. done. }
  split; [done|]. split; [done|]. split.
  - intros Hsz. rewrite I3, Hsz, Hsplit. lia.
  - intros Hsz Hrm. rewrite I3, Hsz, Hsplit.
    rewrite (filter_none (fun e => ¬ removable rm s e)).
    + unfold sum_sizes at 2. simpl. lia.
    + intros e _ Hn. apply Hn. apply Hrm.
Qed.

Lemma C8_empty_witness :
  NoDup (keys two_entries) ∧
  exists s', empty (rm_fails_on 0) two_entries = Ret tt s' ∧ _cacheItems s' = [].
Proof.
  assert (Hk : NoDup (keys two_entries)) by (apply (bool_decide_unpack _); vm_compute; reflexivity).
  split; [exact Hk|].
  destruct (C8_empty_clears_index (rm_fails_on 0) two_entries Hk) as (s' & H1 & H2 & _).
  exists s'. split; [exact H1|exact H2].
Defined.

(** ** C10: the registry of cache directories *)

Lemma constructor_keeps_dirs o tmp ok now dirs d :
  d ∈ dirs ->
  d ∈ match constructor o tmp ok now dirs with
      | Constructed dirs' _ => dirs'
      | NewThrow _ dirs' => dirs'
      end.
Proof.
  intros Hd. unfold constructor.
  destruct (bool_decide _); [done|]. destruct (negb ok); [done|].
  apply elem_of_app. by left.
Qed.

Lemma pstep_keeps_dirs a p d : d ∈ _cacheDirList p -> d ∈ _cacheDirList (pstep a p).
Proof.
  intros Hd. destruct a as [o tmp ok|i a]; simpl; [|done].
  pose proof (constructor_keeps_dirs o tmp ok 0 (_cacheDirList p) d Hd) as H.
  by destruct (constructor o tmp ok 0 (_cacheDirList p)).
Qed.

Lemma prun_keeps_dirs l : forall p d, d ∈ _cacheDirList p -> d ∈ _cacheDirList (prun l p).
Proof.
  induction l as [|a l IH]; intros p d Hd; [done|].
  simpl. apply IH. by apply pstep_keeps_dirs.
Qed.

Lemma constructor_registers o tmp ok now dirs dirs' c :
  constructor o tmp ok now dirs = Constructed dirs' c ->
  _cacheDir c = default tmp (Options.cacheDir o) ∧ _cacheDir c ∈ dirs'.
Proof.
  unfold constructor. destruct (bool_decide _); [done|]. destruct (negb ok); [done|].
  intros [= <- <-]. split.
  - unfold initial. by destruct (new_cleaner o).
  - apply elem_of_app. right. unfold initial. destruct (new_cleaner o). simpl. left.
Qed.

(** C10. Once an instance has been constructed on a directory, every later
    construction on the same directory throws, whatever happened in between
    in the process, the [destroy] of the first instance included: nothing
    takes a directory out of [_cacheDirList]. *)
Theorem C10_directory_never_released
    (o : Options.t) (tmp : string) (ok : bool) (now : Z) (dirs dirs' : list string)
    (c : Cache) (others : list Cache) (acts : list PAction)
    (o' : Options.t) (tmp' : string) (ok' : bool) (now' : Z)
    (Hnew : constructor o tmp ok now dirs = Constructed dirs' c)
    (Hsame : default tmp' (Options.cacheDir o') = _cacheDir c) :
  let p := prun acts (mkProcess dirs' (others ++ [c])) in
  constructor o' tmp' ok' now' (_cacheDirList p)
  = NewThrow (DirInUse (_cacheDir c)) (_cacheDirList p).
Proof.
  intros p. destruct (constructor_registers _ _ _ _ _ _ _ Hnew) as [_ Hin].
  assert (Hp : _cacheDir c ∈ _cacheDirList p) by (by apply prun_keeps_dirs).
  unfold constructor. rewrite Hsame. by rewrite bool_decide_eq_true_2.
Qed.

Lemma C10_directory_witness :
  constructor on_data_cache "/tmp/x" true 0 []
    = Constructed ["/data/cache"] (initial on_data_cache "/data/cache" 0) ∧
  constructor on_data_cache "/tmp/y" true 9
    (_cacheDirList (prun used_and_destroyed
       (mkProcess ["/data/cache"] [initial on_data_cache "/data/cache" 0])))
  = NewThrow (DirInUse "/data/cache") ["/data/cache"].
Proof.
  split; [reflexivity|].
  exact (C10_directory_never_released on_data_cache "/tmp/x" true 0 [] ["/data/cache"]
           (initial on_data_cache "/data/cache" 0) [] used_and_destroyed
           on_data_cache "/tmp/y" true 9 eq_refl eq_refl).
Defined.

(** ** C9: the file name counter *)

Lemma write_step a key s :
  is_write a key ->
  exists store t r, step a s = _prepareWrite store key t r None s.
Proof.
  destruct a; simpl; try done; intros ->.
  - rewrite set_eq. eauto.
  - rewrite move_eq. eauto.
Qed.

Lemma prepareWrite_absent store key t r rel s s' :
  wf s -> Map_get key (_cacheItems s) = None ->
  _prepareWrite store key t r rel s = Ret tt s' ->
  Map_get key (_cacheItems s') = Some (_fileNameIndex s) ∧
  fileName (item_of s' (_fileNameIndex s)) = _fileNameIndex s ∧
  _fileNameIndex s' = S (_fileNameIndex s).
Proof.
  intros Hwf Hg. rewrite _prepareWrite_eq. cbv zeta.
  pose proof (stable_prepareWrite s store key t r rel s (stable_refl s Hwf)) as Hst.
  rewrite _prepareWrite_eq in Hst. cbv zeta in Hst.
  unfold reserve in *. rewrite Hg in *. cbn [fst snd] in *.
  destruct (store _) as [| |sz]; try done. intros [= <-]. simpl in Hst.
  match goal with |- context [commit key ?c sz t r rel ?s1] =>
    destruct (commit_fields key c sz t r rel s1) as (Fi & Fh & Ft & Fn & _);
    pose proof (clear_old_fields c (with_heap (fun h => h ++
       [mkCacheItem (_fileNameIndex s) 0 None false None]) (with_fileNameIndex S s)))
      as (Ci & Ch & Cn & Cs)
  end.
  rewrite (wf_counter s Hwf) in *.
  assert (Hget : Map_get key (_cacheItems
            (commit key (_fileNameIndex s) sz t r rel
               (clear_old (_fileNameIndex s)
                  (with_heap (fun h => h ++ [mkCacheItem (_fileNameIndex s) 0 None false None])
                     (with_fileNameIndex S s))))) = Some (_fileNameIndex s)).
  { rewrite Fi. apply Map_get_touch_eq. }
  split; [exact Hget|]. split.
  - apply wf_item_name; [apply Hst|]. eapply wf_get_valid; [apply Hst|exact Hget].
  - rewrite Fn, Cn. done.
Qed.

Lemma prepareWrite_present store key t r rel s s' c :
  wf s -> Map_get key (_cacheItems s) = Some c ->
  _prepareWrite store key t r rel s = Ret tt s' ->
  Map_get key (_cacheItems s') = Some c ∧
  fileName (item_of s' c) = fileName (item_of s c) ∧
  _fileNameIndex s' = _fileNameIndex s.
Proof.
  intros Hwf Hg. rewrite _prepareWrite_eq. cbv zeta.
  pose proof (stable_prepareWrite s store key t r rel s (stable_refl s Hwf)) as Hst.
  rewrite _prepareWrite_eq in Hst. cbv zeta in Hst.
  unfold reserve in *. rewrite Hg in *. cbn [fst snd] in *.
  destruct (store _) as [| |sz]; try done. intros [= <-]. simpl in Hst.
  destruct (commit_fields key c sz t r rel (clear_old c s)) as (Fi & Fh & Ft & Fn & _).
  destruct (clear_old_fields c s) as (Ci & Ch & Cn & Cs).
  assert (Hget : Map_get key (_cacheItems (commit key c sz t r rel (clear_old c s))) = Some c).
  { rewrite Fi. apply Map_get_touch_eq. }
  pose proof (wf_get_valid s key c Hwf Hg) as Hc.
  split; [exact Hget|]. split.
  - rewrite (wf_item_name s c Hwf Hc). apply wf_item_name; [apply Hst|].
    eapply wf_get_valid; [apply Hst|exact Hget].
  - rewrite Fn, Cn. done.
Qed.

(** C9. In a well-formed state every file name handed out so far is below
    the counter. From there on, whatever the instance does: the counter
    never goes down, and an entry of the index is either an entry that was
    already there, under the same key and with the same file, or carries a
    file name that had not been handed out yet; so a file name is never
    handed to another key, also not after its entry was deleted. A write to
    an absent key gives the entry the value of the counter as its file name
    and increments the counter; a write to a present key keeps the entry's
    file name and leaves the counter alone. *)
Theorem C9_fileName_counter (s : Cache) (Hwf : wf s) :
  (forall it, it ∈ heap s -> (fileName it < _fileNameIndex s)%nat) ∧
  (forall acts,
     (_fileNameIndex s <= _fileNameIndex (run acts s))%nat ∧
     forall k c, Map_get k (_cacheItems (run acts s)) = Some c ->
       Map_get k (_cacheItems s) = Some c ∨
       (_fileNameIndex s <= fileName (item_of (run acts s) c))%nat) ∧
  (forall a key s', is_write a key -> Map_get key (_cacheItems s) = None ->
     step a s = Ret tt s' ->
     exists c, Map_get key (_cacheItems s') = Some c ∧
               fileName (item_of s' c) = _fileNameIndex s ∧
               _fileNameIndex s' = S (_fileNameIndex s)) ∧
  (forall a key c s', is_write a key -> Map_get key (_cacheItems s) = Some c ->
     step a s = Ret tt s' ->
     Map_get key (_cacheItems s') = Some c ∧
     fileName (item_of s' c) = fileName (item_of s c) ∧
     _fileNameIndex s' = _fileNameIndex s).
Proof.
  split; [|split; [|split]].
  - intros it Hit. apply list_elem_of_lookup in Hit as [c Hc].
    rewrite (wf_names s c it Hwf Hc). rewrite <- (wf_counter s Hwf).
    by apply lookup_lt_Some in Hc.
  - intros acts. destruct (stable_run acts s s (stable_refl s Hwf)) as [Hwf' [Hlen Ho]].
    rewrite <- (wf_counter s Hwf), <- (wf_counter _ Hwf'). split; [done|].
    intros k c Hg. destruct (Ho k c Hg) as [H|H]; [by left|right].
    rewrite (wf_item_name _ c Hwf'); [done|]. by eapply wf_get_valid.
  - intros a key s' Ha Hg Hstep. destruct (write_step a key s Ha) as (store & t & r & E).
    rewrite E in Hstep. exists (_fileNameIndex s). by eapply prepareWrite_absent.
  - intros a key c s' Ha Hg Hstep. destruct (write_step a key s Ha) as (store & t & r & E).
    rewrite E in Hstep. by eapply prepareWrite_present.
Qed.

Lemma C9_fileName_counter_witness :
  wf two_entries ∧
  (_fileNameIndex two_entries
     <= _fileNameIndex (run [ADelete rm_ok "a"; ASet (stores 1) "a" None None] two_entries))%nat.
Proof.
  assert (Hwf : wf two_entries) by (apply (bool_decide_unpack _); vm_compute; reflexivity).
  split; [exact Hwf|].
  destruct (C9_fileName_counter two_entries Hwf) as (_ & H & _).
  apply (H [ADelete rm_ok "a"; ASet (stores 1) "a" None None]).
Defined.

(** ** C7: [setGroup] *)

(** The claim as stated fails: after [setGroup] of "a" and "b", the related
    list of "a" is the list of all the keys of the batch, its own
    included, not the list of the other keys. *)
Lemma C7_related_lists_own_key :
  exists c, Map_get "a" (_cacheItems grouped_ab) = Some c ∧
            related (item_of grouped_ab c) = Some ["a"; "b"] ∧
            related (item_of grouped_ab c) ≠ Some ["b"].
Proof. exists 0%nat. vm_compute. repeat split; try reflexivity. discriminate. Qed.

(** C7, amended. When every write of the batch succeeds, [setGroup]
    returns and every member is indexed with the list of all the keys of the
    batch, in batch order and its own key included, as related list.
    Deleting any member then leaves no key of the batch in the index, also
    when an artifact removal fails on the way. *)
Theorem C7_setGroup_related (items : list GroupItem) (s : Cache)
    (Hwf : wf s)
    (Hok : forall item f, item ∈ items -> exists bytes, gi_store item f = Written bytes) :
  exists s',
    setGroup items s = Ret tt s' ∧
    (forall item, item ∈ items -> grouped (map gi_key items) s' (gi_key item)) ∧
    (forall rm m k, m ∈ map gi_key items -> k ∈ map gi_key items ->
       terminated (delete rm m None s') ∧
       after (delete rm m None s') (fun s'' => has k s'' = false)).
Proof.
  destruct (setGroup_loop (map gi_key items) items s Hwf Hok) as (s' & Hr & Hwf' & _ & Hall).
  exists s'. split; [exact Hr|]. split; [exact Hall|].
  intros rm m k Hm Hk. split; [apply delete_terminates|].
  assert (HG : is_group (map gi_key items) s').
  { intros k' c Hk' Hg. apply list_elem_of_fmap in Hk' as [item [-> Hitem]].
    destruct (Hall item Hitem) as (c' & Hg' & Hrel). congruence. }
  assert (Hin : m ∈ keys s').
  { apply list_elem_of_fmap in Hm as [item [-> Hitem]].
    destruct (Hall item Hitem) as (c' & Hg' & _). apply Map_get_is_Some. eauto. }
  eapply after_mono; [|apply (delete_group rm _ m s' (wf_keys s' Hwf') HG Hm Hin)].
  intros s'' [Habs _]. apply Map_has_false. by apply Habs.
Qed.

Lemma C7_setGroup_witness :
  wf fresh ∧
  (forall item f, item ∈ group_ab -> exists bytes, gi_store item f = Written bytes) ∧
  exists s', setGroup group_ab fresh = Ret tt s' ∧
             after (delete (rm_fails_on 1) "a" None s') (fun s'' => has "b" s'' = false).
Proof.
  assert (Hwf : wf fresh) by (apply (bool_decide_unpack _); vm_compute; reflexivity).
  assert (Hok : forall item f, item ∈ group_ab ->
                  exists bytes, gi_store item f = Written bytes).
  { intros item f Hi. unfold group_ab in Hi.
    repeat (apply elem_of_cons in Hi as [->|Hi]; [simpl; eauto|]).
    by apply elem_of_nil in Hi. }
  split; [exact Hwf|]. split; [exact Hok|].
  destruct (C7_setGroup_related group_ab fresh Hwf Hok) as (s' & Hr & _ & Hdel).
  exists s'. split; [exact Hr|].
  apply (Hdel (rm_fails_on 1) "a" "b"); apply (bool_decide_unpack _); vm_compute; reflexivity.
Defined.

(** ** C2: the cascade of [delete] *)

(** C2. For a key that is indexed, [delete] first detaches the entry (out
    of the index, timer cleared), then runs [delete] on every related key
    in order, and only then removes the artifact and subtracts the size: its
    artifact is the last one removed. [delete] on an absent key changes
    nothing, and [delete] always comes back, whatever the related lists.
    When it returns, the artifacts removed are those of the entries that
    left the index, each removed once, and [_currentSize] has gone down by
    the sizes of exactly these entries, each counted once; it returns
    whenever no removal fails. For a group (every indexed member has the
    list of the members as related list) the entries that leave the index
    are the members, whichever member the deletion starts from. *)
Theorem C2_delete_cascade (rm : nat -> bool) (key : string) (c : nat) (s : Cache)
    (Hwf : wf s) (Hget : Map_get key (_cacheItems s) = Some c) :
  delete rm key None s =
    and_then
      (for_of (default [] (related (item_of s c))) (fun item => delete rm item None)
              (detach key c s))
      (fun _ => remove_artifact rm c) ∧
  (forall k s0, Map_get k (_cacheItems s0) = None -> delete rm k None s0 = Ret tt s0) ∧
  terminated (delete rm key None s) ∧
  ((forall f, rm f = true) -> returned (delete rm key None s)) ∧
  (forall s', delete rm key None s = Ret tt s' ->
     survives s s' ∧ (key ∉ keys s') ∧
     (exists L,
        removed s' = removed s ++ L ++ [fileName (item_of s c)] ∧
        NoDup (L ++ [fileName (item_of s c)]) ∧
        L ++ [fileName (item_of s c)] ≡ₚ map (entry_file s) (gone s s') ∧
        _currentSize s' = _currentSize s - sum_sizes s (gone s s'))) ∧
  (forall R, is_group R s -> key ∈ R ->
     after (delete rm key None s)
       (fun s' => _cacheItems s' = filter (fun e => e.1 ∉ R) (_cacheItems s))).
Proof.
  split; [by apply delete_present|].
  split; [intros k s0; apply delete_absent|].
  split; [apply delete_terminates|].
  split.
  { intros Hrm. destruct (delete_returns rm key None s Hrm) as [s' ->]. done. }
  split.
  - intros s' Hr.
    pose proof (delete_keeps_delete rm key None s (or_introl eq_refl)) as K.
    pose proof (delete_key_gone rm key None s (or_introl eq_refl)) as G.
    rewrite Hr in K, G. simpl in K, G.
    destruct (delete_accounted rm key None s s' (or_introl eq_refl) (wf_keys s Hwf) Hr)
      as [(L & HL & HP & HZ) Hlast].
    destruct (Hlast c Hget) as [L0 HL0].
    assert (L = L0 ++ [fileName (item_of s c)]) as ->.
    { rewrite HL in HL0. by apply app_inv_head in HL0. }
    split; [apply K|]. split; [done|]. exists L0.
    split; [done|]. split; [|split; done].
    rewrite HP. unfold gone. apply NoDup_map_filter. by apply wf_files_NoDup.
  - intros R HG Hkey. eapply after_mono;
      [|apply (delete_group rm R key s (wf_keys s Hwf) HG Hkey)].
    + intros s' [_ H]. exact H.
    + apply Map_get_is_Some. eauto.
Qed.

Lemma C2_delete_cascade_witness :
  wf grouped_ab ∧ Map_get "a" (_cacheItems grouped_ab) = Some 0%nat ∧
  terminated (delete rm_ok "a" None grouped_ab).
Proof.
  assert (Hwf : wf grouped_ab) by (apply (bool_decide_unpack _); vm_compute; reflexivity).
  split; [exact Hwf|]. split; [reflexivity|].
  destruct (C2_delete_cascade rm_ok "a" 0%nat grouped_ab Hwf eq_refl) as (_ & _ & Ht & _).
  exact Ht.
Defined.

(** ** C1: the absolute ceiling *)



(** ** C4: the available space ratio *)




(** ** C5: refresh on read *)

(** A read of an entry with the flag and an armed timer restarts the timer
    from the time of the read and moves the entry to the end of the order. *)
Lemma read_refreshes_armed key c t tm s :
  Map_get key (_cacheItems s) = Some c ->
  refreshTimeoutWhenGet (item_of s c) = true ->
  timeout (item_of s c) = Some t ->
  timers s !! t = Some tm -> t_status tm = Armed ->
  exists s' tm',
    get key s = Ret (Some (fileName (item_of s c))) s' ∧
    getStream key s = Ret (Some (fileName (item_of s c))) s' ∧
    timers s' !! t = Some tm' ∧ t_status tm' = Armed ∧
    deadline tm' = clock s + t_delay tm ∧
    _cacheItems s' = Map_delete key (_cacheItems s) ++ [(key, c)].
Proof.
  intros Hg Hf Ht Htm Ha.
  exists (touch key c t s), (refresh_timer (clock s) tm).
  change (getStream key s) with (get key s).
  rewrite get_eq, Hg, refresh_on_read_eq, Hf, Ht.
  split; [done|]. split; [done|]. unfold touch. simpl.
  rewrite list_lookup_alter_eq, Htm, Map_touch. unfold refresh_timer, deadline.
  rewrite Ha. simpl. rewrite Ha. done.
Qed.

(** A read of an entry without the flag, or whose item holds no timer,
    changes nothing. *)
Lemma read_leaves_plain key c s :
  Map_get key (_cacheItems s) = Some c ->
  refreshTimeoutWhenGet (item_of s c) = false ∨ timeout (item_of s c) = None ->
  get key s = Ret (Some (fileName (item_of s c))) s ∧
  getStream key s = Ret (Some (fileName (item_of s c))) s.
Proof.
  intros Hg Hc. change (getStream key s) with (get key s).
  rewrite get_eq, Hg, refresh_on_read_eq.
  destruct Hc as [-> | ->]; [done|]. by destruct (refreshTimeoutWhenGet _).
Qed.

(** C5, the code at the failing input. "k" was written with a timeout of
    50 ms and the flag, then written again with timeout 0: its timer is
    cleared but its item still holds the handle. "k" is older than "j". A
    [get] (or [getStream]) of "k" arms no timer, yet moves "k" behind "j":
    the index order changes for an entry without an armed timer. *)
Theorem C5_stale_handle_read_reorders :
  keys stale_handle = ["k"; "j"] ∧
  (exists c t tm,
     Map_get "k" (_cacheItems stale_handle) = Some c ∧
     refreshTimeoutWhenGet (item_of stale_handle c) = true ∧
     timeout (item_of stale_handle c) = Some t ∧
     timers stale_handle !! t = Some tm ∧ t_status tm = Cleared) ∧
  (exists s',
     get "k" stale_handle = Ret (Some 0%nat) s' ∧
     getStream "k" stale_handle = Ret (Some 0%nat) s' ∧
     timers s' = timers stale_handle ∧
     keys s' = ["j"; "k"]).
Proof.
  split; [reflexivity|]. split.
  - exists 0%nat, 0%nat. eexists. vm_compute. repeat split; reflexivity.
  - eexists. vm_compute. repeat split; reflexivity.
Qed.

(** ** C6: entries without a timeout *)

(** The claim as stated fails: "b" was written (by [setGroup], together
    with "a") with timeout 0, "a" with a timeout of 50 ms. After 60 ms the
    timer of "a" runs, [delete] of "a" cascades to "b", and "b" is gone
    without any delete, eviction, empty or destroy. Likewise a [set] that
    passes no timeout takes the default of the instance: where that is
    50 ms, the entry expires. *)
Lemma C6_cascade_removes_untimed :
  (has "b" grouped_ab = true ∧
   (exists c, Map_get "b" (_cacheItems grouped_ab) = Some c ∧
              timeout (item_of grouped_ab c) = None) ∧
   forallb passive [AElapse 60; AFire rm_ok 0] = true ∧
   has "b" (run [AElapse 60; AFire rm_ok 0] grouped_ab) = false) ∧
  (has "k" defaulted = true ∧
   has "k" (run [AElapse 60; AFire rm_ok 0] defaulted) = false).
Proof.
  split.
  - split; [reflexivity|]. split; [exists 1%nat; split; reflexivity|].
    split; reflexivity.
  - split; reflexivity.
Qed.

(** C6, amended. After a successful [set] or [move] whose timeout (the one
    given, or the default of the instance when none is given) is not
    positive, the entry has no timer of its own that can run, also when the
    key had a positive timeout before and its refresh flag is set. If no
    other entry lists the key as related, no sequence of [get] and
    [getStream] calls, of time passing and of timers running removes the
    entry or arms a timer for it. (An entry that another entry lists as
    related goes with that entry when it is deleted or expires.) *)
Theorem C6_timeout_zero_never_expires
    (store : Writer) (key : string) (t : option Z) (r : option bool)
    (rel : option (list string)) (s s1 : Cache) (acts : list Action)
    (Hwf : wf s)
    (Hzero : default (_defaultTimeout s) t <= 0)
    (Hwrite : set store key t r rel s = Ret tt s1 ∨
              exists from, move store key from t r rel s = Ret tt s1)
    (Halone : unlisted key s1)
    (Hpassive : forallb passive acts = true) :
  has key (run acts s1) = true ∧
  Map_get key (_cacheItems (run acts s1)) = Map_get key (_cacheItems s1) ∧
  no_own_timer key s1 ∧
  no_own_timer key (run acts s1).
Proof.
  assert (Hw : _prepareWrite store key (default (_defaultTimeout s) t)
                 (default (_defaultRefreshTimeoutWhenGet s) r) rel s = Ret tt s1).
  { destruct Hwrite as [H|[from H]]; [by rewrite set_eq in H|by rewrite move_eq in H]. }
  destruct (prepareWrite_no_own_timer key store _ _ rel s s1 Hwf Hzero Hw)
    as (c & Hwf1 & Hg & Hno).
  assert (Hs : settled key c s1) by done.
  destruct (settled_run key c acts s1 Hpassive Hs) as (_ & Hg' & Hno' & _).
  split; [|split; [congruence|split; done]].
  apply Map_has_true, Map_get_is_Some. eauto.
Qed.

Lemma C6_timeout_zero_witness :
  wf once_timed ∧
  default (_defaultTimeout once_timed) (Some 0) <= 0 ∧
  set (stores 5) "k" (Some 0) (Some true) None once_timed = Ret tt retimed ∧
  unlisted "k" retimed ∧
  forallb passive reads_and_time = true ∧
  has "k" (run reads_and_time retimed) = true.
Proof.
  assert (Hwf : wf once_timed) by (apply (bool_decide_unpack _); vm_compute; reflexivity).
  assert (Hz : default (_defaultTimeout once_timed) (Some 0) <= 0) by (vm_compute; discriminate).
  assert (Hset : set (stores 5) "k" (Some 0) (Some true) None once_timed = Ret tt retimed)
    by (vm_compute; reflexivity).
  assert (Hu : unlisted "k" retimed).
  { intros k' c' Hg Hne. change (_cacheItems retimed) with [("k", 0%nat)] in Hg.
    simpl in Hg. destruct (decide ("k" = k')); [by subst|done]. }
  assert (Hp : forallb passive reads_and_time = true) by reflexivity.
  repeat (split; [first [exact Hwf|exact Hz|exact Hset|exact Hu|exact Hp]|]).
  destruct (C6_timeout_zero_never_expires (stores 5) "k" (Some 0) (Some true) None
              once_timed retimed reads_and_time Hwf Hz (or_introl Hset) Hu Hp) as [H _].
  exact H.
Defined.

(** * Properties of whole runs *)

(** ** Lifting a property of every action to runs *)

Lemma after_and {A} (r : Res A) (P Q : Cache -> Prop) :
  after r P -> after r Q -> after r (fun s => P s ∧ Q s).
Proof. destruct r; simpl; auto. Qed.

Lemma wf_step a s : wf s -> after (step a s) wf.
Proof.
  intros Hwf. eapply after_mono; [|apply (stable_step_action s a s (stable_refl s Hwf))].
  intros s' H. apply H.
Qed.

Lemma wf_exec a s : wf s -> wf (exec a s).
Proof. intros Hwf. apply (wf_run [a] s Hwf). Qed.

Lemma run_cons a l s : run (a :: l) s = run l (exec a s).
Proof. done. Qed.

Lemma run_app l1 l2 s : run (l1 ++ l2) s = run l2 (run l1 s).
Proof. unfold run. apply foldl_app. Qed.

Lemma run_related (R : Cache -> Cache -> Prop) :
  (forall s, R s s) ->
  (forall s s1 s2, R s s1 -> R s1 s2 -> R s s2) ->
  (forall a s, wf s -> after (step a s) (R s)) ->
  forall l s, wf s -> R s (run l s).
Proof.
  intros Hrefl Htrans Hstep l. induction l as [|a l IH]; intros s Hwf; [apply Hrefl|].
  rewrite run_cons. apply (Htrans s (exec a s)).
  - unfold exec. apply after_state_of; [apply Hrefl|by apply Hstep].
  - apply IH. by apply wf_exec.
Qed.

Lemma run_invariant (I : Cache -> Prop) (ok : Action -> Prop) :
  (forall a s, ok a -> wf s -> I s -> after (step a s) I) ->
  forall l s, Forall ok l -> wf s -> I s -> I (run l s).
Proof.
  intros Hstep l. induction l as [|a l IH]; intros s Hok Hwf HI; [done|].
  apply Forall_cons in Hok as [Ha Hl]. rewrite run_cons. apply IH; [done|by apply wf_exec|].
  unfold exec. apply after_state_of; [done|by apply Hstep].
Qed.

(** ** The configuration of an instance *)

Lemma keeps_config_refl s : keeps_config s s.
Proof. unfold keeps_config. auto 10. Qed.

Lemma keeps_config_trans s s1 s2 :
  keeps_config s s1 -> keeps_config s1 s2 -> keeps_config s s2.
Proof.
  unfold keeps_config. intros (A1 & A2 & A3 & A4 & A5) (B1 & B2 & B3 & B4 & B5).
  repeat split; try congruence.
  destruct B5 as [B5|B5]; [|by right]. destruct A5 as [A5|A5]; [left|right]; congruence.
Qed.

Lemma keeps_config_same_items s s' : same_items s s' -> keeps_config s s'.
Proof.
  unfold same_items, keeps_config. intros (_ & _ & H1 & H2 & H3 & H4 & H5 & _). auto 10.
Qed.

Lemma keeps_config_fields s s' :
  _cacheDir s' = _cacheDir s -> _defaultTimeout s' = _defaultTimeout s ->
  _defaultRefreshTimeoutWhenGet s' = _defaultRefreshTimeoutWhenGet s ->
  _cleaner s' = _cleaner s -> _cleanerTimer s' = _cleanerTimer s ->
  keeps_config s s'.
Proof. unfold keeps_config. auto 10. Qed.

Lemma keeps_config_reserved key s :
  keeps_config s (clear_old (reserve key s).1 (reserve key s).2).
Proof.
  unfold clear_old, reserve. destruct (Map_get key (_cacheItems s)); cbn [fst snd];
    match goal with |- context [timeout ?x] => destruct (timeout x) end;
    by apply keeps_config_fields.
Qed.

Lemma keeps_config_prepareWrite writer key t r rel s :
  after (_prepareWrite writer key t r rel s) (keeps_config s).
Proof.
  rewrite _prepareWrite_eq. cbv zeta.
  pose proof (keeps_config_reserved key s) as K.
  destruct (writer _) as [| |sz]; simpl; try done.
  eapply keeps_config_trans; [exact K|].
  match goal with |- context [commit key ?c sz t r rel ?s1] =>
    destruct (commit_fields key c sz t r rel s1)
      as (_ & _ & _ & _ & _ & F1 & F2 & F3 & F4 & F5 & _)
  end.
  by apply keeps_config_fields.
Qed.

Lemma keeps_config_get key s : after (get key s) (keeps_config s).
Proof.
  rewrite get_eq. destruct (Map_get key (_cacheItems s)) as [c|]; [|apply keeps_config_refl].
  rewrite refresh_on_read_eq.
  destruct (refreshTimeoutWhenGet (item_of s c)), (timeout (item_of s c)); simpl;
    by apply keeps_config_fields.
Qed.

Lemma keeps_config_setGroup items s :
  wf s -> after (setGroup items s) (keeps_config s).
Proof.
  intros Hwf. unfold setGroup.
  eapply after_mono; [|apply (for_of_after (fun s' => wf s' ∧ keeps_config s s'))].
  - intros s' H. apply H.
  - intros item s1 _ [Hwf1 K]. rewrite setGroup_body_eq. apply after_and.
    + eapply after_mono;
        [|apply (stable_prepareWrite s1 _ _ _ _ _ s1 (stable_refl s1 Hwf1))].
      intros s' H. apply H.
    + eapply after_mono; [|apply keeps_config_prepareWrite].
      intros s' K'. by apply (keeps_config_trans s s1).
  - split; [done|apply keeps_config_refl].
Qed.

Section ConfigBackground.
Variable rm : nat -> bool.

Lemma keeps_config_delete key oc s :
  oc = None ∨ Map_get key (_cacheItems s) = oc ->
  after (delete rm key oc s) (keeps_config s).
Proof.
  intros Hoc. eapply after_mono; [|apply (delete_keeps_delete rm key oc s Hoc)].
  intros s' (H & _). by apply keeps_config_same_items.
Qed.

Lemma keeps_config_empty_step s e : keeps_config s (empty_step rm s e).
Proof.
  unfold empty_step, detach.
  destruct (timeout _); destruct (rm _); by apply keeps_config_fields.
Qed.

Lemma keeps_config_empty s : after (empty rm s) (keeps_config s).
Proof.
  rewrite empty_unfold. apply for_of_entries_after; [|apply keeps_config_refl].
  intros k c s1 K _. rewrite empty_body_step. simpl.
  eapply keeps_config_trans; [exact K|apply keeps_config_empty_step].
Qed.

Lemma keeps_config_destroy s : after (destroy rm s) (keeps_config s).
Proof.
  unfold destroy, bind, modify.
  eapply after_mono; [|apply keeps_config_empty].
  intros s' K. eapply keeps_config_trans; [|exact K].
  unfold keeps_config. simpl. auto 10.
Qed.

Lemma keeps_config_logged (m : M unit) (msg : Error -> ConsoleMsg) s0 s :
  after (m s) (keeps_config s0) ->
  after (try_catch m (fun e => console_error (msg e)) s) (keeps_config s0).
Proof.
  intros H. unfold try_catch, console_error, modify. destruct (m s) as [[] s'|e s'|]; try done.
  all: simpl in *; eapply keeps_config_trans; [exact H|]; by apply keeps_config_fields.
Qed.

Lemma keeps_config_evict downTo s :
  NoDup (keys s) -> after (evict rm downTo s) (keeps_config s).
Proof.
  intros Hk. eapply after_mono; [|apply (Walk_same_items rm downTo s _ (evict_Walk rm downTo s Hk))].
  intros s'. apply keeps_config_same_items.
Qed.

Lemma keeps_config_cleaner_tick usage s :
  NoDup (keys s) -> after (cleaner_tick rm usage s) (keeps_config s).
Proof.
  intros Hk. unfold cleaner_tick, bind, reads.
  destruct (_cleanerTimer s), (_cleaner s); try apply keeps_config_refl.
  - unfold clean_absolute. apply keeps_config_logged. unfold bind, reads.
    destruct (Qltb _ _); [by apply keeps_config_evict|apply keeps_config_refl].
  - unfold clean_ratio. apply keeps_config_logged. unfold bind.
    destruct usage as [u|]; simpl; [|apply keeps_config_refl].
    apply keeps_config_logged. destruct (ratio_lt _ _ _); [|apply keeps_config_refl].
    unfold bind, reads. by apply keeps_config_evict.
Qed.

Lemma keeps_config_fire t s : wf s -> after (fire rm t s) (keeps_config s).
Proof.
  intros Hwf. rewrite fire_eq by done.
  destruct (timers s !! t) as [tm|] eqn:E; [|apply keeps_config_refl].
  destruct (decide (t_status tm = Armed)) as [Ha|]; [|apply keeps_config_refl].
  destruct (deadline tm <=? clock s); [|apply keeps_config_refl].
  apply keeps_config_logged. apply keeps_config_delete.
  right. destruct (wf_timer s t tm Hwf E) as [_ H]. by destruct (H Ha).
Qed.

End ConfigBackground.

Lemma keeps_config_step a s : wf s -> after (step a s) (keeps_config s).
Proof.
  intros Hwf. destruct a; simpl.
  - rewrite set_eq. apply keeps_config_prepareWrite.
  - rewrite move_eq. apply keeps_config_prepareWrite.
  - by apply keeps_config_setGroup.
  - unfold bind. pose proof (keeps_config_get key s) as H. destruct (get key s); done.
  - unfold bind. pose proof (keeps_config_get key s) as H.
    change (getStream key s) with (get key s). destruct (get key s); done.
  - apply keeps_config_refl.
  - apply keeps_config_delete. by left.
  - apply keeps_config_empty.
  - apply keeps_config_destroy.
  - apply keeps_config_cleaner_tick. by apply wf_keys.
  - by apply keeps_config_fire.
  - unfold elapse, modify. simpl. by apply keeps_config_fields.
Qed.

Lemma keeps_config_run l s : wf s -> keeps_config s (run l s).
Proof.
  apply (run_related keeps_config).
  - apply keeps_config_refl.
  - apply keeps_config_trans.
  - apply keeps_config_step.
Qed.

(** ** The size bookkeeping *)

Lemma sum_sizes_ext s s' l :
  (forall e, e ∈ l -> item_of s' e.2 = item_of s e.2) -> sum_sizes s' l = sum_sizes s l.
Proof.
  intros H. unfold sum_sizes. f_equal. apply map_ext_in. intros e He.
  unfold entry_size. rewrite H; [done|]. by apply list_elem_of_In.
Qed.

Lemma Map_touch_perm (m : list (string * nat)) k c :
  NoDup m.*1 -> Map_get k m = Some c -> Map_delete k m ++ [(k, c)] ≡ₚ m.
Proof.
  intros Hnd Hg. rewrite <- (filter_key_NoDup m k c Hnd Hg).
  unfold Map_delete.
  rewrite (filter_ext_elem (fun e : string * nat => e.1 = k)
             (fun e => ¬ e.1 ≠ k) m).
  - apply filter_app_complement.
  - intros e _. split; [intros -> H; done|]. intros H. by destruct (decide (e.1 = k)).
Qed.

Lemma size_consistent_ext s s' :
  _cacheItems s' = _cacheItems s -> heap s' = heap s -> _currentSize s' = _currentSize s ->
  size_consistent s -> size_consistent s'.
Proof.
  unfold size_consistent. intros Hi Hh Hc H. rewrite Hi, Hc, H. symmetry.
  by apply sum_sizes_heap.
Qed.

Lemma size_consistent_touch key c t s :
  wf s -> Map_get key (_cacheItems s) = Some c ->
  size_consistent s -> size_consistent (touch key c t s).
Proof.
  intros Hwf Hg H. unfold size_consistent, touch. simpl. rewrite Map_touch.
  rewrite H. etrans; [|symmetry; apply (sum_sizes_heap s); done].
  symmetry. apply sum_sizes_perm. apply Map_touch_perm; [by apply wf_keys|done].
Qed.

Lemma size_consistent_get key s :
  wf s -> size_consistent s -> after (get key s) size_consistent.
Proof.
  intros Hwf H. rewrite get_eq. destruct (Map_get key (_cacheItems s)) as [c|] eqn:Hg; [|done].
  rewrite refresh_on_read_eq.
  destruct (refreshTimeoutWhenGet (item_of s c)), (timeout (item_of s c)); simpl; try done.
  by apply size_consistent_touch.
Qed.

Lemma size_consistent_reserved key s :
  wf s -> size_consistent s ->
  size_consistent (clear_old (reserve key s).1 (reserve key s).2).
Proof.
  intros Hwf H.
  destruct (clear_old_fields (reserve key s).1 (reserve key s).2) as (Ci & Ch & _ & Cs).
  unfold size_consistent. rewrite Ci, Cs.
  etrans; [|symmetry; apply sum_sizes_heap; exact Ch].
  unfold reserve. destruct (Map_get key (_cacheItems s)) as [c|] eqn:Hg; cbn [fst snd]; [done|].
  simpl. rewrite H. symmetry. apply sum_sizes_ext. intros e He.
  unfold item_of. simpl. apply lookup_total_app_l. by apply wf_valid.
Qed.

Lemma size_consistent_prepareWrite writer key t r rel s :
  wf s -> size_consistent s -> after (_prepareWrite writer key t r rel s) size_consistent.
Proof.
  intros Hwf H. rewrite _prepareWrite_eq. cbv zeta.
  pose proof (size_consistent_reserved key s Hwf H) as H1.
  destruct (wf_reserve key s Hwf) as (Hwf0 & Hc & Hown & Hidx & _ & Hcase).
  destruct (clear_old_fields (reserve key s).1 (reserve key s).2) as (Ci & Ch & _ & Cs).
  set (c := (reserve key s).1) in *. set (s0 := (reserve key s).2) in *.
  set (s1 := clear_old c s0) in *.
  destruct (writer _) as [| |sz]; simpl; try done.
  destruct (commit_fields key c sz t r rel s1) as (Fi & Fh & _ & _ & Fs & _).
  assert (Hc1 : (c < length (heap s1))%nat) by (by rewrite Ch).
  specialize (Fs Hc1).
  unfold size_consistent. rewrite Fi, Fs, sum_sizes_app.
  assert (Hnew : sum_sizes (commit key c sz t r rel s1) [(key, c)] = sz).
  { unfold sum_sizes, entry_size, item_of. cbn [map Zsum foldr snd]. rewrite Fh.
    rewrite list_lookup_total_alter_eq by done. simpl. lia. }
  assert (Hrest : sum_sizes (commit key c sz t r rel s1) (Map_delete key (_cacheItems s1))
                  = sum_sizes s1 (Map_delete key (_cacheItems s1))).
  { apply sum_sizes_ext. intros e He. apply elem_of_Map_delete in He as [He Hne].
    unfold item_of. rewrite Fh. apply list_lookup_total_alter_ne.
    intros ->. apply Hne. apply Hown. rewrite <- Ci. by destruct e. }
  rewrite Hnew, Hrest. rewrite H1.
  assert (Hold : sum_sizes s1 (_cacheItems s1)
                 = sum_sizes s1 (Map_delete key (_cacheItems s1)) + fileSize (item_of s1 c)).
  { destruct Hcase as [Hg|[Hg Hfresh]].
    - rewrite <- (sum_sizes_perm s1 _ _
         (Map_touch_perm (_cacheItems s1) key c ltac:(rewrite Ci, Hidx; by apply wf_keys)
            ltac:(by rewrite Ci, Hidx))) at 1.
      rewrite sum_sizes_app. unfold sum_sizes at 2. simpl. unfold entry_size. simpl. lia.
    - rewrite Map_delete_absent by (rewrite Ci, Hidx; by apply Map_get_None).
      assert (fileSize (item_of s1 c) = 0) as ->; [|lia].
      unfold item_of. rewrite Ch. subst s0 c. unfold reserve in *. rewrite Hg in *.
      cbn [fst snd] in *. simpl. rewrite lookup_total_app_r by done.
      by rewrite Nat.sub_diag. }
  rewrite Hold. lia.
Qed.

Lemma size_consistent_setGroup items s :
  wf s -> size_consistent s -> after (setGroup items s) size_consistent.
Proof.
  intros Hwf H. unfold setGroup.
  eapply after_mono; [|apply (for_of_after (fun s' => wf s' ∧ size_consistent s'))].
  - intros s' K. apply K.
  - intros item s1 _ [Hwf1 K]. rewrite setGroup_body_eq. apply after_and.
    + eapply after_mono;
        [|apply (stable_prepareWrite s1 _ _ _ _ _ s1 (stable_refl s1 Hwf1))].
      intros s' K'. apply K'.
    + by apply size_consistent_prepareWrite.
  - done.
Qed.

Section SizeBackground.
Variable rm : nat -> bool.
Hypothesis rm_ok : forall f, rm f = true.

Lemma size_consistent_delete key oc s :
  oc = None ∨ Map_get key (_cacheItems s) = oc ->
  wf s -> size_consistent s -> after (delete rm key oc s) size_consistent.
Proof.
  intros Hoc Hwf H. destruct (delete_returns rm key oc s rm_ok) as [s' Hr].
  pose proof (delete_keeps_delete rm key oc s Hoc) as K. rewrite Hr in *. simpl in *.
  eapply size_consistent_accounted; [exact K| |exact H].
  apply (delete_accounted rm key oc s s' Hoc (wf_keys s Hwf) Hr).
Qed.

Lemma size_consistent_empty s :
  wf s -> size_consistent s -> after (empty rm s) size_consistent.
Proof.
  intros Hwf H. rewrite empty_unfold, (for_of_entries_empty rm _ s (wf_keys s Hwf) eq_refl).
  destruct (foldl_empty_step rm (_cacheItems s) s (wf_keys s Hwf) eq_refl)
    as (I1 & I2 & I3 & _).
  simpl. unfold size_consistent. rewrite I1, I3, H.
  rewrite (filter_all (removable rm s)); [unfold sum_sizes at 3; simpl; lia|].
  intros e _. apply rm_ok.
Qed.

Lemma size_consistent_logged (m : M unit) (msg : Error -> ConsoleMsg) s :
  after (m s) size_consistent ->
  after (try_catch m (fun e => console_error (msg e)) s) size_consistent.
Proof.
  intros K. unfold try_catch, console_error, modify. destruct (m s) as [[] s'|e s'|]; try done.
  all: simpl in *; by apply (size_consistent_ext s').
Qed.

Lemma size_consistent_evict downTo s :
  wf s -> size_consistent s -> after (evict rm downTo s) size_consistent.
Proof.
  intros Hwf H. rewrite evict_unfold.
  eapply after_mono;
    [|apply (for_of_entries_after (fun s' => wf s' ∧ size_consistent s'))]; [|..| done].
  - intros s' K. apply K.
  - intros k c s1 [Hwf1 K] Hg. unfold evict_body, bind, reads.
    destruct (Qltb _ _); [|done].
    pose proof (wf_delete rm k (Some c) s1 (or_intror Hg) Hwf1) as W.
    pose proof (size_consistent_delete k (Some c) s1 (or_intror Hg) Hwf1 K) as Z.
    destruct (delete rm k (Some c) s1) as [[] s2|e s2|]; done.
Qed.

Lemma size_consistent_cleaner_tick usage s :
  wf s -> size_consistent s -> after (cleaner_tick rm usage s) size_consistent.
Proof.
  intros Hwf H. unfold cleaner_tick, bind, reads.
  destruct (_cleanerTimer s), (_cleaner s); try done.
  - unfold clean_absolute. apply size_consistent_logged. unfold bind, reads.
    destruct (Qltb _ _); [by apply size_consistent_evict|done].
  - unfold clean_ratio. apply size_consistent_logged. unfold bind.
    destruct usage as [u|]; simpl; [|done].
    apply size_consistent_logged. destruct (ratio_lt _ _ _); [|done].
    unfold bind, reads. by apply size_consistent_evict.
Qed.

Lemma size_consistent_fire t s :
  wf s -> size_consistent s -> after (fire rm t s) size_consistent.
Proof.
  intros Hwf H. rewrite fire_eq by done.
  destruct (timers s !! t) as [tm|] eqn:E; [|done].
  destruct (decide (t_status tm = Armed)) as [Ha|]; [|done].
  destruct (deadline tm <=? clock s); [|done].
  apply size_consistent_logged. apply size_consistent_delete; [|done..].
  right. destruct (wf_timer s t tm Hwf E) as [_ K]. by destruct (K Ha).
Qed.

End SizeBackground.

Lemma size_consistent_step a s :
  reliable a -> wf s -> size_consistent s -> after (step a s) size_consistent.
Proof.
  intros Ha Hwf H. destruct a; simpl in *.
  - rewrite set_eq. by apply size_consistent_prepareWrite.
  - rewrite move_eq. by apply size_consistent_prepareWrite.
  - by apply size_consistent_setGroup.
  - unfold bind. pose proof (size_consistent_get key s Hwf H) as K. destruct (get key s); done.
  - unfold bind. pose proof (size_consistent_get key s Hwf H) as K.
    change (getStream key s) with (get key s). destruct (get key s); done.
  - done.
  - apply size_consistent_delete; auto.
  - by apply size_consistent_empty.
  - unfold destroy, bind, modify. apply size_consistent_empty; [done| |].
    + by apply (wf_ext s).
    + by apply (size_consistent_ext s).
  - by apply size_consistent_cleaner_tick.
  - by apply size_consistent_fire.
  - unfold elapse, modify. simpl. by apply (size_consistent_ext s).
Qed.

Lemma size_consistent_run l s :
  Forall reliable l -> wf s -> size_consistent s -> size_consistent (run l s).
Proof. apply (run_invariant size_consistent reliable). apply size_consistent_step. Qed.

Lemma size_consistent_initial o dir now : size_consistent (initial o dir now).
Proof. unfold initial. destruct (new_cleaner o). done. Qed.

(** ** What [destroy] leaves *)

Lemma nothing_armed_empty_index s : wf s -> _cacheItems s = [] -> nothing_armed s.
Proof.
  intros Hwf Hidx t tm Ht. destruct (wf_timer s t tm Hwf Ht) as [Hf Ha]. simpl in *.
  destruct (t_status tm) eqn:E; [|done..].
  destruct (Ha eq_refl) as [Hg _]. by rewrite Hidx in Hg.
Qed.

Lemma destroy_result rm s :
  wf s ->
  exists s', destroy rm s = Ret tt s' ∧ wf s' ∧ _cacheItems s' = [] ∧ _cleanerTimer s' = None.
Proof.
  intros Hwf.
  pose proof (stable_destroy rm s s (stable_refl s Hwf)) as W.
  pose proof (keeps_config_empty rm (with_cleanerTimer (fun _ => None) s)) as K.
  unfold destroy, bind, modify in *.
  set (s1 := with_cleanerTimer (fun _ => None) s) in *.
  assert (Hk : NoDup (keys s1)) by (by apply wf_keys).
  rewrite empty_unfold, (for_of_entries_empty rm _ s1 Hk eq_refl) in *.
  destruct (foldl_empty_step rm (_cacheItems s1) s1 Hk eq_refl) as (I1 & _).
  eexists. split; [done|]. split; [apply W|]. split; [done|].
  destruct K as (_ & _ & _ & _ & [K|K]); exact K.
Qed.

Lemma fire_nothing_armed rm t s : nothing_armed s -> fire rm t s = Ret tt s.
Proof.
  intros H. unfold fire, bind, reads.
  destruct (timers s !! t) as [tm|] eqn:E; [|done].
  rewrite (H t tm E). done.
Qed.

Lemma cleaner_tick_cleared rm usage s :
  _cleanerTimer s = None -> cleaner_tick rm usage s = Ret tt s.
Proof. intros H. rewrite cleaner_tick_eq, H. done. Qed.

(** ** What a successful write leaves *)

Lemma reserved_runtime key s :
  let s1 := clear_old (reserve key s).1 (reserve key s).2 in
  clock s1 = clock s ∧ length (timers s1) = length (timers s) ∧
  _currentSize s1 = _currentSize s.
Proof.
  unfold clear_old, reserve. destruct (Map_get key (_cacheItems s)); cbn [fst snd];
    match goal with |- context [timeout ?x] => destruct (timeout x) end;
    simpl; rewrite ?length_alter; done.
Qed.

Lemma reserved_size key s :
  wf s ->
  fileSize (item_of (clear_old (reserve key s).1 (reserve key s).2) (reserve key s).1)
  = recorded_size key s.
Proof.
  intros Hwf. destruct (clear_old_fields (reserve key s).1 (reserve key s).2) as (_ & Ch & _).
  unfold item_of. rewrite Ch. unfold recorded_size, reserve.
  destruct (Map_get key (_cacheItems s)) as [c|] eqn:Hg; cbn [fst snd]; [done|].
  simpl. rewrite lookup_total_app_r by done. by rewrite Nat.sub_diag.
Qed.

Lemma prepareWrite_result store key t r rel s sz :
  wf s -> store (write_target key s) = Written sz ->
  exists s' c,
    _prepareWrite store key t r rel s = Ret tt s' ∧ wf s' ∧
    _cacheItems s' = Map_delete key (_cacheItems s) ++ [(key, c)] ∧
    fileName (item_of s' c) = write_target key s ∧
    fileSize (item_of s' c) = sz ∧
    _currentSize s' = _currentSize s - recorded_size key s + sz ∧
    (forall k' c', k' ≠ key -> Map_get k' (_cacheItems s) = Some c' ->
       item_of s' c' = item_of s c') ∧
    (0 < t -> timers s' !! length (timers s) = Some (mkTimer key c t (clock s) Armed)) ∧
    clock s' = clock s ∧
    refreshTimeoutWhenGet (item_of s' c) = r ∧
    related (item_of s' c) = rel ∧
    (0 < t -> timeout (item_of s' c) = Some (length (timers s))).
Proof.
  intros Hwf Hstore.
  pose proof (stable_prepareWrite s store key t r rel s (stable_refl s Hwf)) as Hst.
  rewrite _prepareWrite_eq in *. cbv zeta in *.
  pose proof (write_target_reserved key s) as Hname.
  pose proof (reserved_size key s Hwf) as Hsize.
  destruct (reserved_runtime key s) as (Rc & Rt & Rs).
  destruct (wf_reserve key s Hwf) as (Hwf0 & Hc & Hown & Hidx & _ & Hcase).
  destruct (clear_old_fields (reserve key s).1 (reserve key s).2) as (Ci & Ch & _ & _).
  set (c := (reserve key s).1) in *. set (s0 := (reserve key s).2) in *.
  set (s1 := clear_old c s0) in *.
  rewrite Hname, Hstore in *. simpl in Hst.
  destruct (commit_fields key c sz t r rel s1)
    as (Fi & Fh & Ft & _ & Fs & _ & _ & _ & _ & _ & Fc & _).
  assert (Hc1 : (c < length (heap s1))%nat) by (by rewrite Ch).
  exists (commit key c sz t r rel s1), c.
  split; [done|]. split; [apply Hst|]. split; [by rewrite Fi, Ci, Hidx|].
  split; [|split; [|split; [|split; [|split; [|split; [|split; [|split]]]]]]].
  - unfold item_of in *. rewrite Fh, list_lookup_total_alter_eq by done. simpl. exact Hname.
  - unfold item_of. rewrite Fh, list_lookup_total_alter_eq by done. done.
  - rewrite (Fs Hc1), Hsize, Rs. done.
  - intros k' c' Hne Hg. unfold item_of. rewrite Fh.
    assert (c' ≠ c).
    { intros ->. apply Hne. apply Hown. rewrite Hidx. by apply Map_get_elem. }
    rewrite list_lookup_total_alter_ne by done. rewrite Ch.
    pose proof (wf_get_valid s k' c' Hwf Hg) as Hv.
    subst s0. unfold reserve. destruct (Map_get key (_cacheItems s)); cbn [snd]; [done|].
    simpl. by apply lookup_total_app_l.
  - intros Hpos. rewrite Ft. assert ((0 <? t) = true) as -> by lia.
    rewrite <- Rt, Rc. apply list_lookup_middle. done.
  - by rewrite Fc.
  - unfold item_of. rewrite Fh, list_lookup_total_alter_eq by done. done.
  - unfold item_of. rewrite Fh, list_lookup_total_alter_eq by done. done.
  - intros Hpos. unfold item_of. rewrite Fh, list_lookup_total_alter_eq by done. simpl.
    assert ((0 <? t) = true) as -> by lia. by rewrite Rt.
Qed.

Lemma prepareWrite_returns store key t r rel s s' :
  _prepareWrite store key t r rel s = Ret tt s' ->
  exists sz, store (write_target key s) = Written sz.
Proof.
  rewrite _prepareWrite_eq. cbv zeta. rewrite write_target_reserved.
  destruct (store (write_target key s)) as [| |sz]; try done. eauto.
Qed.

Lemma prepareWrite_throws store key t r rel s e s' :
  _prepareWrite store key t r rel s = Throw e s' ->
  s' = clear_old (reserve key s).1 (reserve key s).2.
Proof.
  rewrite _prepareWrite_eq. cbv zeta.
  destruct (store _) as [| |sz]; try done; by intros [= _ <-].
Qed.

Lemma has_Map_get key s s' :
  Map_get key (_cacheItems s') = Map_get key (_cacheItems s) -> has key s' = has key s.
Proof. unfold has, Map_has. by intros ->. Qed.

Lemma has_get key c s : Map_get key (_cacheItems s) = Some c -> has key s = true.
Proof. intros H. apply Map_has_true, Map_get_is_Some. eauto. Qed.


(** ** What a failed write leaves of an indexed entry *)

Lemma failed_write_settled store key t r rel s e s1 c :
  wf s -> Map_get key (_cacheItems s) = Some c -> unlisted key s ->
  _prepareWrite store key t r rel s = Throw e s1 ->
  settled key c s1.
Proof.
  intros Hwf Hg Halone Hthrow.
  pose proof (stable_prepareWrite s store key t r rel s (stable_refl s Hwf)) as Hst.
  rewrite Hthrow in Hst. simpl in Hst. destruct Hst as [Hwf1 _].
  apply prepareWrite_throws in Hthrow.
  destruct (failed_write_state key s) as (_ & Hidx & Hheap). specialize (Hheap c Hg).
  cbv zeta in *. rewrite <- Hthrow in *.
  assert (Hres : (reserve key s) = (c, s)) by (unfold reserve; by rewrite Hg).
  rewrite Hres in Hthrow. cbn [fst snd] in Hthrow.
  split; [done|]. split; [by rewrite Hidx|]. split.
  - intros t' tm Ht' Ha Hk.
    assert (t_cache tm ≠ c).
    { apply (clear_old_disarms c s t' tm Hwf); [by rewrite <- Hthrow|done]. }
    destruct (wf_timer s1 t' tm Hwf1 Ht') as [_ H']. destruct (H' Ha) as [Hg' _]. simpl in *.
    rewrite Hk, Hidx, Hg in Hg'. congruence.
  - intros k' c' Hg' Hne. unfold item_of. rewrite Hheap. rewrite Hidx in Hg'.
    by apply (Halone k' c').
Qed.

(** ** The available space ratio at its upper end *)

Lemma Qmin'_ge_1 x : (1 <= x)%Q -> (1 <= Qmin' x 1)%Q.
Proof.
  intros H. unfold Qmin'. destruct (Qle_bool x 1) eqn:E; [done|]. apply Qle_refl.
Qed.

Lemma ratio_lt_nonneg a t r :
  0 <= a -> 0 <= t -> (r <= 0)%Q -> ratio_lt a t r = false.
Proof.
  intros Ha Ht Hr. unfold ratio_lt. destruct (t =? 0) eqn:E; [lia|].
  apply Qltb_false. eapply Qle_trans; [exact Hr|].
  unfold Qdiv. apply Qmult_le_0_compat.
  - change 0%Q with (inject_Z 0). by rewrite <- Zle_Qle.
  - apply Qinv_le_0_compat. change 0%Q with (inject_Z 0). by rewrite <- Zle_Qle.
Qed.

(** ** The registry and the instances *)

Lemma initial_cacheDir o dir now : _cacheDir (initial o dir now) = dir.
Proof. unfold initial. by destruct (new_cleaner o). Qed.

Lemma exec_cacheDir a s : wf s -> _cacheDir (exec a s) = _cacheDir s.
Proof. intros Hwf. apply (keeps_config_run [a] s Hwf). Qed.

Lemma fmap_alter_same {A B} (f : A -> B) (g : A -> A) (l : list A) :
  forall i, (forall x, l !! i = Some x -> f (g x) = f x) -> f <$> alter g i l = f <$> l.
Proof.
  induction l as [|x l IH]; intros [|i] H; simpl; try done.
  - f_equal. by apply H.
  - f_equal. apply IH. intros y Hy. by apply H.
Qed.

Lemma Forall_alter_keeps {A} (P : A -> Prop) (g : A -> A) (l : list A) :
  forall i, Forall P l -> (forall x, P x -> P (g x)) -> Forall P (alter g i l).
Proof.
  induction l as [|x l IH]; intros [|i] H Hg; simpl; try done.
  - apply Forall_cons in H as [H1 H2]. apply Forall_cons. split; [by apply Hg|done].
  - apply Forall_cons in H as [H1 H2]. apply Forall_cons. split; [done|by apply IH].
Qed.

Lemma registry_ok_pstep a p : registry_ok p -> registry_ok (pstep a p).
Proof.
  intros (Hd & Hn & Hw). destruct a as [o tmp ok|i a]; unfold registry_ok; simpl.
  - unfold constructor. destruct (bool_decide _) eqn:E; [done|].
    destruct ok; simpl; [|done].
    apply bool_decide_eq_false in E. split; [|split].
    + rewrite fmap_app. simpl. by rewrite initial_cacheDir, Hd.
    + apply NoDup_app. split; [done|]. split; [|apply NoDup_singleton].
      intros d Hd1 Hd2. apply list_elem_of_singleton in Hd2. by subst.
    + apply Forall_app. split; [done|]. apply Forall_singleton, wf_initial.
  - split; [|split].
    + rewrite Hd. symmetry. apply fmap_alter_same. intros x Hx. apply exec_cacheDir.
      by apply (Forall_lookup_1 _ _ _ _ Hw Hx).
    + done.
    + apply Forall_alter_keeps; [done|]. intros x. apply wf_exec.
Qed.

Lemma registry_ok_prun l : forall p, registry_ok p -> registry_ok (prun l p).
Proof.
  induction l as [|a l IH]; intros p H; [done|]. simpl. apply IH. by apply registry_ok_pstep.
Qed.

(** ** A deletion that throws *)

Section DeleteThrows.
Variable rm : nat -> bool.

Lemma removed_of_detach D key c s s' :
  removed_of D (detach key c s) s' -> removed_of D s s'.
Proof.
  intros (L & R & P & Z).
  assert (E1 : removed (detach key c s) = removed s)
    by (unfold detach; destruct (timeout _); done).
  assert (E2 : _currentSize (detach key c s) = _currentSize s)
    by (unfold detach; destruct (timeout _); done).
  assert (E3 : map (entry_file (detach key c s)) D = map (entry_file s) D).
  { apply map_ext. intros x. unfold entry_file, item_of. by rewrite detach_heap. }
  exists L. rewrite <- E1, <- E2, <- E3. split; [done|]. split; [done|].
  rewrite Z. f_equal. apply sum_sizes_heap. by rewrite detach_heap.
Qed.

Lemma gone_detach_incl key c s s' x :
  x ∈ gone (detach key c s) s' -> x ∈ gone s s' ∧ x.1 ≠ key.
Proof.
  unfold gone. rewrite !list_elem_of_filter, detach_cacheItems, elem_of_Map_delete. tauto.
Qed.

Lemma gone_NoDup s s' : NoDup (keys s) -> NoDup (gone s s').
Proof. intros H. unfold gone. apply NoDup_filter. by apply (NoDup_fmap_1 fst). Qed.

Lemma Deletes_thrown :
  (forall key oc s r, Deletes rm key oc s r ->
     oc = None ∨ Map_get key (_cacheItems s) = oc -> NoDup (keys s) ->
     forall e s', r = Throw e s' ->
       (exists f, e = RemoveFailed f ∧ rm f = false) ∧
       exists D, removed_of D s s' ∧ NoDup D ∧
                 (forall x, x ∈ D -> x ∈ gone s s' ∧ x.1 ≠ key)) ∧
  (forall l s r, DeletesAll rm l s r -> NoDup (keys s) ->
     forall e s', r = Throw e s' ->
       (exists f, e = RemoveFailed f ∧ rm f = false) ∧
       exists D, removed_of D s s' ∧ NoDup D ∧ (forall x, x ∈ D -> x ∈ gone s s')).
Proof.
  apply (Deletes_mutind rm
    (fun key oc s r _ =>
       oc = None ∨ Map_get key (_cacheItems s) = oc -> NoDup (keys s) ->
       forall e s', r = Throw e s' ->
         (exists f, e = RemoveFailed f ∧ rm f = false) ∧
         exists D, removed_of D s s' ∧ NoDup D ∧
                   (forall x, x ∈ D -> x ∈ gone s s' ∧ x.1 ≠ key))
    (fun l s r _ => NoDup (keys s) ->
       forall e s', r = Throw e s' ->
         (exists f, e = RemoveFailed f ∧ rm f = false) ∧
         exists D, removed_of D s s' ∧ NoDup D ∧ (forall x, x ∈ D -> x ∈ gone s s'))).
  - intros key s _ _ _ e s' Hr. done.
  - intros key oc c s r Hc HD IH Hoc Hnd e s' Hr.
    pose proof (delete_keeps_detach key c s) as K1.
    assert (Hnd1 : NoDup (keys (detach key c s))).
    { eapply survives_NoDup; [apply K1|done]. }
    destruct r as [[] s2|e2 s2|]; simpl in Hr; [| |done].
    + destruct (remove_artifact_cases rm c s2) as [[_ E]|[Hf E]]; rewrite E in Hr; [done|].
      injection Hr as <- <-. split; [eauto|].
      exists (gone (detach key c s) s2). split; [|split].
      * apply (removed_of_detach _ key c).
        apply (proj2 (Deletes_accounted rm) _ _ _ HD Hnd1 s2 eq_refl).
      * by apply gone_NoDup.
      * intros x. apply gone_detach_incl.
    + injection Hr as <- <-. destruct (IH Hnd1 e2 s2 eq_refl) as (Hf & D & HR & HN & HI).
      split; [done|]. exists D. split; [by apply (removed_of_detach _ key c)|].
      split; [done|]. intros x Hx. apply (gone_detach_incl key c). by apply HI.
  - intros s _ e s' Hr. done.
  - intros item rest s s1 r HD1 _ HD2 IH2 Hnd e s' Hr.
    pose proof (proj1 (Deletes_keeps rm) _ _ _ _ HD1 (or_introl eq_refl)) as K1. simpl in K1.
    destruct (proj1 (Deletes_accounted rm) _ _ _ _ HD1 (or_introl eq_refl) Hnd s1 eq_refl)
      as [A1 _].
    assert (Hnd1 : NoDup (keys s1)) by (eapply survives_NoDup; [apply K1|done]).
    destruct (IH2 Hnd1 e s' Hr) as (Hf & D & HR & HN & HI).
    pose proof (proj2 (Deletes_keeps rm) _ _ _ HD2) as K2. rewrite Hr in K2. simpl in K2.
    split; [done|]. exists (gone s s1 ++ D). split; [|split].
    + eapply removed_of_app; [apply K1|exact A1|exact HR].
    + apply NoDup_app. split; [by apply gone_NoDup|]. split; [|done].
      intros x Hx1 Hx2. specialize (HI x Hx2). unfold gone in *.
      apply list_elem_of_filter in Hx1 as [Hx1 _]. apply list_elem_of_filter in HI as [_ HI].
      apply Hx1. unfold keys. apply list_elem_of_fmap. eauto.
    + intros x Hx. apply elem_of_app in Hx as [Hx|Hx].
      * unfold gone in *. apply list_elem_of_filter in Hx as [Hx1 Hx2].
        apply list_elem_of_filter. split; [|done].
        intros Hk. apply Hx1. eapply survives_keys; [apply K2|done].
      * specialize (HI x Hx). unfold gone in *. apply list_elem_of_filter in HI as [Hx1 Hx2].
        apply list_elem_of_filter. split; [done|]. eapply survives_elem; [apply K1|done].
  - intros item rest s e s1 HD1 IH1 Hnd e' s' Hr.
    destruct (IH1 (or_introl eq_refl) Hnd e' s' Hr) as (Hf & D & HR & HN & HI).
    split; [done|]. exists D. split; [done|]. split; [done|]. intros x Hx. by apply HI.
Qed.

(** Whatever the outcome of a deletion, what the store removed and what was
    subtracted are the artifacts and sizes of entries that left the
    index, each one once. *)
Lemma delete_removed key oc s :
  oc = None ∨ Map_get key (_cacheItems s) = oc -> NoDup (keys s) ->
  after (delete rm key oc s)
    (fun s' => exists D, removed_of D s s' ∧ NoDup D ∧ (forall x, x ∈ D -> x ∈ gone s s')).
Proof.
  intros Hoc Hnd. pose proof (delete_Deletes rm key oc s) as HD.
  destruct (delete rm key oc s) as [[] s'|e s'|] eqn:E; simpl; [| |done].
  - exists (gone s s'). split; [|split; [by apply gone_NoDup|done]].
    apply (proj1 (Deletes_accounted rm) _ _ _ _ HD Hoc Hnd s' eq_refl).
  - destruct (proj1 Deletes_thrown _ _ _ _ HD Hoc Hnd e s' eq_refl) as (_ & D & HR & HN & HI).
    exists D. split; [done|]. split; [done|]. intros x Hx. by apply HI.
Qed.

End DeleteThrows.

(** ** A timer that can run *)


(** ** Eviction keeps the order *)

Section EvictOrder.
Variable rm : nat -> bool.

Lemma delete_plain k c s :
  default [] (related (item_of s c)) = [] ->
  delete rm k (Some c) s = remove_artifact rm c (detach k c s).
Proof. intros H. unfold delete. rewrite delete_fuel_unfold. simpl. by rewrite H. Qed.

Lemma Walk_survives downTo s r : Walk rm downTo s r -> after r (survives s).
Proof.
  induction 1 as [s|s|k c rest s s1 r Hidx Hover Hdel HW IH|k c rest s e s1 Hidx Hover Hdel].
  - apply survives_refl.
  - apply survives_refl.
  - pose proof (delete_keeps_delete rm k (Some c) s
                  (or_intror (Map_get_head _ k c rest Hidx))) as K.
    rewrite Hdel in K. simpl in K. eapply after_mono; [|exact IH].
    intros s' H'. eapply survives_trans; [apply K|exact H'].
  - pose proof (delete_keeps_delete rm k (Some c) s
                  (or_intror (Map_get_head _ k c rest Hidx))) as K.
    rewrite Hdel in K. apply K.
Qed.

Lemma delete_head k c rest s :
  _cacheItems s = (k, c) :: rest -> NoDup (keys s) ->
  default [] (related (item_of s c)) = [] ->
  after (delete rm k (Some c) s) (fun s' => _cacheItems s' = rest ∧ heap s' = heap s).
Proof.
  intros Hidx Hnd Hplain. rewrite delete_plain by done.
  pose proof (remove_artifact_cacheItems rm c s (detach k c s)) as E.
  pose proof (delete_keeps_remove_artifact rm c (detach k c s)) as K.
  assert (Hd : _cacheItems (detach k c s) = rest).
  { rewrite detach_cacheItems, Hidx. apply Map_delete_head.
    unfold keys in Hnd. rewrite Hidx in Hnd. simpl in Hnd. by apply NoDup_cons in Hnd as [? _]. }
  destruct (remove_artifact rm c (detach k c s)) as [[] s2|e s2|]; simpl in *; try done.
  - split; [congruence|]. destruct K as [K _]. destruct K as [K _]. by rewrite K, detach_heap.
  - split; [congruence|]. destruct K as [K _]. destruct K as [K _]. by rewrite K, detach_heap.
Qed.

Lemma Walk_prefix downTo s r :
  Walk rm downTo s r -> NoDup (keys s) ->
  (forall e, e ∈ _cacheItems s -> default [] (related (item_of s e.2)) = []) ->
  after r (fun s' => exists n, _cacheItems s' = drop n (_cacheItems s)).
Proof.
  induction 1 as [s|s|k c rest s s1 r Hidx Hover Hdel HW IH|k c rest s e s1 Hidx Hover Hdel];
    intros Hnd Hplain.
  - by exists 0%nat.
  - by exists 0%nat.
  - assert (Hp : default [] (related (item_of s c)) = []).
    { apply (Hplain (k, c)). rewrite Hidx. apply list_elem_of_here. }
    pose proof (delete_head k c rest s Hidx Hnd Hp) as D. rewrite Hdel in D. simpl in D.
    destruct D as [D1 D2].
    assert (Hnd1 : NoDup (keys s1)).
    { unfold keys in *. rewrite D1. rewrite Hidx in Hnd. simpl in Hnd.
      by apply NoDup_cons in Hnd as [_ ?]. }
    eapply after_mono; [|apply IH; [done|]].
    + intros s' [n Hn]. exists (S n). by rewrite Hn, D1, Hidx.
    + intros e He. unfold item_of. rewrite D2. apply Hplain. rewrite Hidx, <- D1.
      by apply list_elem_of_further.
  - assert (Hp : default [] (related (item_of s c)) = []).
    { apply (Hplain (k, c)). rewrite Hidx. apply list_elem_of_here. }
    pose proof (delete_head k c rest s Hidx Hnd Hp) as D. rewrite Hdel in D. simpl in D.
    destruct D as [D1 _]. exists 1%nat. by rewrite D1, Hidx.
Qed.

Lemma evict_oldest downTo s :
  NoDup (keys s) ->
  match evict rm downTo s with
  | Ret _ s' | Throw _ s' =>
      survives s s' ∧
      ((forall e, e ∈ _cacheItems s -> default [] (related (item_of s e.2)) = []) ->
       exists n, _cacheItems s' = drop n (_cacheItems s))
  | OutOfFuel => False
  end.
Proof.
  intros Hnd. pose proof (evict_Walk rm downTo s Hnd) as HW.
  pose proof (Walk_terminated rm downTo s _ HW) as T.
  pose proof (Walk_survives downTo s _ HW) as S.
  pose proof (Walk_prefix downTo s _ HW Hnd) as P.
  destruct (evict rm downTo s) as [[] s'|e s'|]; simpl in *; auto.
Qed.

End EvictOrder.

(** ** A batch that fails half way *)

Lemma for_of_app {A} (l1 l2 : list A) (body : A -> M unit) s :
  for_of (l1 ++ l2) body s = and_then (for_of l1 body s) (fun _ => for_of l2 body).
Proof.
  revert s. induction l1 as [|x l1 IH]; intros s; simpl; [done|].
  unfold bind. destruct (body x s) as [[] s1|e s1|]; simpl; [apply IH|done|done].
Qed.

Lemma reserved_cacheItems key s :
  _cacheItems (clear_old (reserve key s).1 (reserve key s).2) = _cacheItems s.
Proof. apply failed_write_state. Qed.

Lemma reserved_item key s c :
  (c < length (heap s))%nat ->
  item_of (clear_old (reserve key s).1 (reserve key s).2) c = item_of s c.
Proof.
  intros Hc. destruct (clear_old_fields (reserve key s).1 (reserve key s).2) as (_ & Ch & _).
  unfold item_of. rewrite Ch. unfold reserve.
  destruct (Map_get key (_cacheItems s)); cbn [snd]; [done|].
  simpl. by apply lookup_total_app_l.
Qed.

Lemma prepareWrite_frame store key t r rel s :
  after (_prepareWrite store key t r rel s)
    (fun s' => forall k, k ≠ key ->
       Map_get k (_cacheItems s') = Map_get k (_cacheItems s)).
Proof.
  rewrite _prepareWrite_eq. cbv zeta.
  pose proof (reserved_cacheItems key s) as Hidx.
  destruct (store _) as [| |sz]; unfold after; try (intros k _; by rewrite Hidx).
  intros k Hne.
  match goal with |- context [commit key ?c sz t r rel ?s1] =>
    destruct (commit_fields key c sz t r rel s1) as (Fi & _)
  end.
  rewrite Fi, Hidx. by apply Map_get_touch_ne.
Qed.

Lemma setGroup_loop_frame R items :
  forall s,
    after (for_of items (fun item =>
             match truthy_from (gi_from item) with
             | Some from =>
                 move (gi_store item) (gi_key item) from (gi_timeout item)
                      (gi_refreshTimeoutWhenGet item) (Some R)
             | None =>
                 set (gi_store item) (gi_key item) (gi_timeout item)
                     (gi_refreshTimeoutWhenGet item) (Some R)
             end) s)
      (fun s' => forall k, k ∉ map gi_key items ->
         Map_get k (_cacheItems s') = Map_get k (_cacheItems s)).
Proof.
  intros s.
  apply (for_of_after (fun s' => forall k, k ∉ map gi_key items ->
                         Map_get k (_cacheItems s') = Map_get k (_cacheItems s))); [|done].
  intros item s1 Hin H1. rewrite setGroup_body_eq.
  eapply after_mono; [|apply prepareWrite_frame].
  intros s2 H2 k Hk. simpl in H2. rewrite H2, H1; [done..|].
  intros ->. apply Hk. apply list_elem_of_In, in_map, list_elem_of_In, Hin.
Qed.

Lemma grouped_failed_write R key s k :
  wf s -> grouped R s k ->
  grouped R (clear_old (reserve key s).1 (reserve key s).2) k.
Proof.
  intros Hwf (c & Hg & Hr). exists c. rewrite reserved_cacheItems. split; [done|].
  rewrite reserved_item; [done|]. by eapply wf_get_valid.
Qed.

(** ** Entries change only by writes *)

Lemma run_related_ok (R : Cache -> Cache -> Prop) (ok : Action -> Prop) :
  (forall s, R s s) ->
  (forall s s1 s2, R s s1 -> R s1 s2 -> R s s2) ->
  (forall a s, ok a -> wf s -> after (step a s) (R s)) ->
  forall l s, Forall ok l -> wf s -> R s (run l s).
Proof.
  intros Hrefl Htrans Hstep l. induction l as [|a l IH]; intros s Hok Hwf; [apply Hrefl|].
  apply Forall_cons in Hok as [Ha Hl]. rewrite run_cons. apply (Htrans s (exec a s)).
  - unfold exec. apply after_state_of; [apply Hrefl|by apply Hstep].
  - apply IH; [done|]. by apply wf_exec.
Qed.

Section Untouched.
Variable key : string.

Lemma untouched_refl s : untouched key s s.
Proof. intros c Hc. done. Qed.

Lemma untouched_trans s s1 s2 :
  untouched key s s1 -> untouched key s1 s2 -> untouched key s s2.
Proof.
  intros H1 H2 c Hc. destruct (H2 c Hc) as [Hc1 E2]. destruct (H1 c Hc1) as [Hc0 E1].
  split; [done|congruence].
Qed.

Lemma untouched_ext s s' :
  (forall k, Map_get k (_cacheItems s') = Map_get k (_cacheItems s)) -> heap s' = heap s ->
  untouched key s s'.
Proof. intros Hi Hh c Hc. rewrite Hi in Hc. unfold item_of. by rewrite Hh. Qed.

Lemma untouched_survives s s' :
  survives s s' -> heap s' = heap s -> NoDup (keys s) -> untouched key s s'.
Proof.
  intros Hs Hh Hnd c Hc. split; [|unfold item_of; by rewrite Hh].
  apply Map_get_NoDup; [done|]. eapply survives_elem; [exact Hs|]. by apply Map_get_elem.
Qed.

Lemma untouched_delete_keeps s s' :
  delete_keeps s s' -> NoDup (keys s) -> untouched key s s'.
Proof. intros (Hi & _ & Hs) Hnd. apply untouched_survives; [done|apply Hi|done]. Qed.

Lemma untouched_prepareWrite store k t r rel s :
  wf s -> key ≠ k -> after (_prepareWrite store k t r rel s) (untouched key s).
Proof.
  intros Hwf Hne.
  pose proof (prepareWrite_frame store k t r rel s) as F.
  destruct (_prepareWrite store k t r rel s) as [[] s'|e s'|] eqn:E; simpl in *; [| |done].
  - destruct (prepareWrite_returns _ _ _ _ _ _ _ E) as [sz Hst].
    destruct (prepareWrite_result store k t r rel s sz Hwf Hst)
      as (s2 & c2 & E2 & _ & _ & _ & _ & _ & Hothers & _).
    rewrite E in E2. injection E2 as <-.
    intros c Hc. rewrite F in Hc by done. split; [done|]. by apply (Hothers key).
  - apply prepareWrite_throws in E. subst s'.
    intros c Hc. rewrite reserved_cacheItems in Hc. split; [done|].
    apply reserved_item. by eapply wf_get_valid.
Qed.

Lemma untouched_setGroup items s :
  wf s -> key ∉ map gi_key items -> after (setGroup items s) (untouched key s).
Proof.
  intros Hwf Hk. unfold setGroup.
  eapply after_mono; [|apply (for_of_after (fun s' => wf s' ∧ untouched key s s'))].
  - intros s' H. apply H.
  - intros item s1 Hin [Hwf1 U]. rewrite setGroup_body_eq. apply after_and.
    + eapply after_mono;
        [|apply (stable_prepareWrite s1 _ _ _ _ _ s1 (stable_refl s1 Hwf1))].
      intros s' H. apply H.
    + eapply after_mono; [|apply untouched_prepareWrite; [done|]].
      * intros s' U'. by apply (untouched_trans s s1).
      * intros ->. apply Hk. apply list_elem_of_In, in_map, list_elem_of_In, Hin.
  - split; [done|apply untouched_refl].
Qed.

Lemma untouched_get k s : after (get k s) (untouched key s).
Proof.
  rewrite get_eq. destruct (Map_get k (_cacheItems s)) as [c|] eqn:Hg; [|apply untouched_refl].
  rewrite refresh_on_read_eq.
  destruct (refreshTimeoutWhenGet (item_of s c)), (timeout (item_of s c)); simpl;
    try apply untouched_refl.
  apply untouched_ext; [|done]. intros k'. unfold touch. simpl. rewrite Map_touch.
  by apply Map_get_touch_same.
Qed.

Lemma untouched_logged (m : M unit) (msg : Error -> ConsoleMsg) s0 s :
  after (m s) (untouched key s0) ->
  after (try_catch m (fun e => console_error (msg e)) s) (untouched key s0).
Proof.
  intros H. unfold try_catch, console_error, modify. destruct (m s) as [[] s'|e s'|]; done.
Qed.

Lemma untouched_empty rm s : NoDup (keys s) -> after (empty rm s) (untouched key s).
Proof.
  intros Hk. rewrite empty_unfold, (for_of_entries_empty rm _ s Hk eq_refl).
  destruct (foldl_empty_step rm (_cacheItems s) s Hk eq_refl) as (I1 & _).
  simpl. intros c Hc. by rewrite I1 in Hc.
Qed.

Lemma untouched_evict rm downTo s :
  NoDup (keys s) -> after (evict rm downTo s) (untouched key s).
Proof.
  intros Hk. pose proof (evict_Walk rm downTo s Hk) as HW.
  pose proof (Walk_survives rm downTo s _ HW) as S.
  pose proof (Walk_same_items rm downTo s _ HW) as I.
  destruct (evict rm downTo s) as [[] s'|e s'|]; simpl in *; try done;
    (apply untouched_survives; [done|apply I|done]).
Qed.

Lemma untouched_cleaner_tick rm usage s :
  NoDup (keys s) -> after (cleaner_tick rm usage s) (untouched key s).
Proof.
  intros Hk. unfold cleaner_tick, bind, reads.
  destruct (_cleanerTimer s), (_cleaner s); try apply untouched_refl.
  - unfold clean_absolute. apply untouched_logged. unfold bind, reads.
    destruct (Qltb _ _); [by apply untouched_evict|apply untouched_refl].
  - unfold clean_ratio. apply untouched_logged. unfold bind.
    destruct usage as [u|]; simpl; [|apply untouched_refl].
    apply untouched_logged. destruct (ratio_lt _ _ _); [|apply untouched_refl].
    unfold bind, reads. by apply untouched_evict.
Qed.

Lemma untouched_fire rm t s : wf s -> after (fire rm t s) (untouched key s).
Proof.
  intros Hwf. rewrite fire_eq by done.
  destruct (timers s !! t) as [tm|] eqn:E; [|apply untouched_refl].
  destruct (decide (t_status tm = Armed)) as [Ha|]; [|apply untouched_refl].
  destruct (deadline tm <=? clock s); [|apply untouched_refl].
  apply untouched_logged.
  eapply after_mono; [|apply (delete_keeps_delete rm (t_key tm) (Some (t_cache tm)) s)].
  - intros s' K. apply untouched_delete_keeps; [done|by apply wf_keys].
  - right. destruct (wf_timer s t tm Hwf E) as [_ H]. by destruct (H Ha).
Qed.

Lemma untouched_step a s :
  key ∉ written_keys a -> wf s -> after (step a s) (untouched key s).
Proof.
  intros Hk Hwf. destruct a; simpl in *.
  - rewrite set_eq. apply untouched_prepareWrite; [done|].
    intros ->. apply Hk, list_elem_of_here.
  - rewrite move_eq. apply untouched_prepareWrite; [done|].
    intros ->. apply Hk, list_elem_of_here.
  - by apply untouched_setGroup.
  - unfold bind. pose proof (untouched_get key0 s) as H. destruct (get key0 s); done.
  - unfold bind. pose proof (untouched_get key0 s) as H.
    change (getStream key0 s) with (get key0 s). destruct (get key0 s); done.
  - apply untouched_refl.
  - eapply after_mono; [|apply (delete_keeps_delete rm key0 None s); by left].
    intros s' K. apply untouched_delete_keeps; [done|by apply wf_keys].
  - apply untouched_empty. by apply wf_keys.
  - unfold destroy, bind, modify.
    apply (untouched_empty rm (with_cleanerTimer (fun _ => None) s)). by apply wf_keys.
  - apply untouched_cleaner_tick. by apply wf_keys.
  - by apply untouched_fire.
  - unfold elapse, modify. simpl. by apply untouched_ext.
Qed.

Lemma untouched_run l s :
  Forall (fun a => key ∉ written_keys a) l -> wf s -> untouched key s (run l s).
Proof.
  apply (run_related_ok (untouched key) (fun a => key ∉ written_keys a)).
  - apply untouched_refl.
  - apply untouched_trans.
  - apply untouched_step.
Qed.

End Untouched.

(** ** The expiry of a member of a group *)

Lemma delete_given rm key c s :
  Map_get key (_cacheItems s) = Some c ->
  delete rm key (Some c) s = delete rm key None s.
Proof. intros H. unfold delete. rewrite !delete_fuel_unfold. simpl. by rewrite H. Qed.

(** ** The artifacts removed *)

Lemma NoDup_map_elem {A B} (f : A -> B) (l : list A) x y :
  NoDup (map f l) -> x ∈ l -> y ∈ l -> f x = f y -> x = y.
Proof.
  induction l as [|z l IH]; intros Hnd Hx Hy E; [by apply elem_of_nil in Hx|].
  simpl in Hnd. apply NoDup_cons in Hnd as [Hz Hnd].
  apply elem_of_cons in Hx as [->|Hx]; apply elem_of_cons in Hy as [->|Hy]; auto.
  - exfalso. apply Hz. rewrite E. apply list_elem_of_In, in_map, list_elem_of_In, Hy.
  - exfalso. apply Hz. rewrite <- E. apply list_elem_of_In, in_map, list_elem_of_In, Hx.
Qed.

Lemma NoDup_map_sub {A B} (f : A -> B) (l D : list A) :
  NoDup (map f l) -> NoDup D -> (forall x, x ∈ D -> x ∈ l) -> NoDup (map f D).
Proof.
  intros Hl HD Hsub. induction D as [|x D IH]; simpl; [apply NoDup_nil_2|].
  apply NoDup_cons in HD as [Hx HD]. apply NoDup_cons. split.
  - intros Hin. apply list_elem_of_In, in_map_iff in Hin as (y & E & Hy).
    apply list_elem_of_In in Hy.
    assert (y = x) as ->; [|done].
    apply (NoDup_map_elem f l); [done| | |done].
    + apply Hsub. by apply list_elem_of_further.
    + apply Hsub, list_elem_of_here.
  - apply IH; [done|]. intros y Hy. apply Hsub. by apply list_elem_of_further.
Qed.

Lemma wf_entry_file s e :
  wf s -> e ∈ _cacheItems s -> entry_file s e = e.2 ∧ (e.2 < _fileNameIndex s)%nat.
Proof.
  intros Hwf He. pose proof (wf_valid s e Hwf He) as Hv.
  unfold entry_file. rewrite wf_item_name by done. by rewrite <- (wf_counter s Hwf).
Qed.

Lemma clean_store_ext s s' :
  _cacheItems s' = _cacheItems s -> heap s' = heap s ->
  _fileNameIndex s' = _fileNameIndex s -> removed s' = removed s ->
  clean_store s -> clean_store s'.
Proof.
  unfold clean_store, entry_file, item_of. intros -> -> -> ->. done.
Qed.

Lemma clean_store_removed_of D s s' :
  wf s -> clean_store s -> removed_of D s s' -> NoDup D ->
  (forall x, x ∈ D -> x ∈ gone s s') -> survives s s' ->
  heap s' = heap s -> _fileNameIndex s' = _fileNameIndex s ->
  clean_store s'.
Proof.
  intros Hwf (C1 & C2 & C3) (L & HL & HP & _) HN Hsub Hs Hh Hn.
  assert (HDidx : forall x, x ∈ D -> x ∈ _cacheItems s).
  { intros x Hx. specialize (Hsub x Hx). unfold gone in Hsub.
    by apply list_elem_of_filter in Hsub as [_ ?]. }
  assert (HLin : forall f, f ∈ L -> exists x, x ∈ D ∧ f = entry_file s x).
  { intros f Hf. rewrite HP in Hf. apply list_elem_of_In, in_map_iff in Hf as (x & E & Hx).
    exists x. split; [by apply list_elem_of_In|done]. }
  split; [|split].
  - rewrite HL. apply NoDup_app. split; [done|]. split.
    + intros f Hf1 Hf2. destruct (HLin f Hf2) as (x & Hx & ->).
      by apply (C3 x (HDidx x Hx)).
    + rewrite HP. apply (NoDup_map_sub _ (_cacheItems s)); [by apply wf_files_NoDup|done..].
  - intros f Hf. rewrite Hn. rewrite HL in Hf. apply elem_of_app in Hf as [Hf|Hf]; [by apply C2|].
    destruct (HLin f Hf) as (x & Hx & ->).
    destruct (wf_entry_file s x Hwf (HDidx x Hx)) as [-> ?]. done.
  - intros e He.
    assert (He0 : e ∈ _cacheItems s) by (by eapply survives_elem).
    assert (E : entry_file s' e = entry_file s e) by (unfold entry_file, item_of; by rewrite Hh).
    rewrite E, HL. intros Hin. apply elem_of_app in Hin as [Hin|Hin]; [by apply (C3 e)|].
    destruct (HLin _ Hin) as (x & Hx & Hfx).
    assert (e = x) as ->.
    { apply (NoDup_map_elem (entry_file s) (_cacheItems s)); auto. by apply wf_files_NoDup. }
    specialize (Hsub x Hx). unfold gone in Hsub. apply list_elem_of_filter in Hsub as [Hk _].
    apply Hk. unfold keys. apply list_elem_of_fmap. eauto.
Qed.

Lemma clean_store_touch key c t s :
  wf s -> Map_get key (_cacheItems s) = Some c -> clean_store s ->
  clean_store (touch key c t s).
Proof.
  intros Hwf Hg (C1 & C2 & C3). split; [done|]. split; [done|].
  intros e He. unfold touch in *. simpl in He. rewrite Map_touch in He.
  apply (C3 e). rewrite <- (Map_touch_perm (_cacheItems s) key c); [done| |done].
  by apply wf_keys.
Qed.

Lemma clean_store_get key s : wf s -> clean_store s -> after (get key s) clean_store.
Proof.
  intros Hwf H. rewrite get_eq. destruct (Map_get key (_cacheItems s)) as [c|] eqn:Hg; [|done].
  rewrite refresh_on_read_eq.
  destruct (refreshTimeoutWhenGet (item_of s c)), (timeout (item_of s c)); simpl; try done.
  by apply clean_store_touch.
Qed.

Lemma reserved_store key s :
  let s1 := clear_old (reserve key s).1 (reserve key s).2 in
  removed s1 = removed s ∧ (_fileNameIndex s <= _fileNameIndex s1)%nat.
Proof.
  unfold clear_old, reserve. destruct (Map_get key (_cacheItems s)); cbn [fst snd];
    match goal with |- context [timeout ?x] => destruct (timeout x) end;
    simpl; split; (done || lia).
Qed.

Lemma clean_store_prepareWrite store key t r rel s :
  wf s -> clean_store s -> after (_prepareWrite store key t r rel s) clean_store.
Proof.
  intros Hwf (C1 & C2 & C3).
  destruct (reserved_store key s) as [Rr Rn]. cbv zeta in Rr, Rn.
  destruct (_prepareWrite store key t r rel s) as [[] s'|e s'|] eqn:E; simpl; [| |done].
  - destruct (prepareWrite_returns _ _ _ _ _ _ _ E) as [sz Hst].
    destruct (prepareWrite_result store key t r rel s sz Hwf Hst)
      as (s2 & c & E2 & Hwf' & Hidx & Hname & _ & _ & Hothers & _).
    rewrite E in E2. injection E2 as <-.
    rewrite _prepareWrite_eq in E. cbv zeta in E. rewrite write_target_reserved, Hst in E.
    injection E as E.
    match type of E with commit key ?c0 sz t r rel ?s1 = _ =>
      destruct (commit_fields key c0 sz t r rel s1)
        as (_ & _ & _ & Fn & _ & _ & _ & _ & _ & _ & _ & Fr & _)
    end.
    rewrite E in Fn, Fr. rewrite Rr in Fr.
    split; [by rewrite Fr|]. split.
    + intros f Hf. rewrite Fr in Hf. specialize (C2 f Hf). lia.
    + intros e He. rewrite Fr. rewrite Hidx in He. apply elem_of_app in He as [He|He].
      * apply elem_of_Map_delete in He as [He Hne]. destruct e as [k' c']. simpl in Hne.
        unfold entry_file. simpl.
        rewrite (Hothers k' c' Hne); [by apply (C3 (k', c'))|].
        apply Map_get_NoDup; [by apply wf_keys|done].
      * apply list_elem_of_singleton in He. subst e. unfold entry_file. simpl.
        rewrite Hname. unfold write_target.
        destruct (Map_get key (_cacheItems s)) as [c0|] eqn:Hg.
        -- apply (C3 (key, c0)). by apply Map_get_elem.
        -- intros Hin. specialize (C2 _ Hin). lia.
  - apply prepareWrite_throws in E. subst s'. split; [by rewrite Rr|]. split.
    + intros f Hf. rewrite Rr in Hf. specialize (C2 f Hf). lia.
    + intros x Hx. rewrite Rr. rewrite reserved_cacheItems in Hx.
      unfold entry_file. rewrite reserved_item; [by apply (C3 x)|]. by apply wf_valid.
Qed.

Lemma clean_store_setGroup items s :
  wf s -> clean_store s -> after (setGroup items s) clean_store.
Proof.
  intros Hwf H. unfold setGroup.
  eapply after_mono; [|apply (for_of_after (fun s' => wf s' ∧ clean_store s'))].
  - intros s' K. apply K.
  - intros item s1 _ [Hwf1 K]. rewrite setGroup_body_eq. apply after_and.
    + eapply after_mono;
        [|apply (stable_prepareWrite s1 _ _ _ _ _ s1 (stable_refl s1 Hwf1))].
      intros s' K'. apply K'.
    + by apply clean_store_prepareWrite.
  - done.
Qed.

Section CleanStoreBackground.
Variable rm : nat -> bool.

Lemma clean_store_delete key oc s :
  oc = None ∨ Map_get key (_cacheItems s) = oc ->
  wf s -> clean_store s -> after (delete rm key oc s) clean_store.
Proof.
  intros Hoc Hwf H.
  pose proof (delete_removed rm key oc s Hoc (wf_keys s Hwf)) as R.
  pose proof (delete_keeps_delete rm key oc s Hoc) as K.
  destruct (delete rm key oc s) as [[] s'|e s'|]; simpl in *; try done;
    destruct R as (D & HR & HN & HI); destruct K as (KI & _ & KS);
    (eapply (clean_store_removed_of D s s'); [done..|apply KI|apply KI]).
Qed.

Lemma clean_store_empty_step k c s :
  wf s -> Map_get k (_cacheItems s) = Some c -> clean_store s ->
  clean_store (empty_step rm s (k, c)).
Proof.
  intros Hwf Hg H.
  assert (Hs : survives s (empty_step rm s (k, c))).
  { apply (survives_Map_delete _ _ k). apply empty_step_cacheItems. }
  assert (Hn : _fileNameIndex (empty_step rm s (k, c)) = _fileNameIndex s).
  { unfold empty_step, detach. destruct (timeout _); destruct (rm _); done. }
  assert (Hin : (k, c) ∈ gone s (empty_step rm s (k, c))).
  { unfold gone. apply list_elem_of_filter. split; [|by apply Map_get_elem].
    unfold keys. rewrite empty_step_cacheItems. simpl. rewrite Map_delete_fst.
    intros Hk. by apply list_elem_of_filter in Hk as [Hk _]. }
  destruct (empty_step_cases rm s (k, c)) as [(_ & E1 & E2 & _)|(_ & E1 & E2 & _)].
  - apply (clean_store_removed_of [(k, c)] s); try done.
    + exists [entry_file s (k, c)]. split; [done|]. split; [done|].
      rewrite E1. unfold sum_sizes. simpl. lia.
    + apply NoDup_singleton.
    + intros x Hx. apply list_elem_of_singleton in Hx. by subst.
    + apply empty_step_heap.
  - apply (clean_store_removed_of [] s); try done.
    + apply removed_of_nil; done.
    + apply NoDup_nil_2.
    + intros x Hx. by apply elem_of_nil in Hx.
    + apply empty_step_heap.
Qed.

Lemma clean_store_empty s : wf s -> clean_store s -> after (empty rm s) clean_store.
Proof.
  intros Hwf H. rewrite empty_unfold.
  eapply after_mono;
    [|apply (for_of_entries_after (fun s' => wf s' ∧ clean_store s'))]; [|..|done].
  - intros s' K. apply K.
  - intros k c s1 [Hwf1 K] Hg. rewrite empty_body_step. simpl. split.
    + apply (stable_empty_step rm s1 k c s1 (stable_refl s1 Hwf1) Hg).
    + by apply clean_store_empty_step.
Qed.

Lemma clean_store_logged (m : M unit) (msg : Error -> ConsoleMsg) s :
  after (m s) clean_store ->
  after (try_catch m (fun e => console_error (msg e)) s) clean_store.
Proof.
  intros K. unfold try_catch, console_error, modify. destruct (m s) as [[] s'|e s'|]; try done.
  all: simpl in *; by apply (clean_store_ext s').
Qed.

Lemma clean_store_evict downTo s :
  wf s -> clean_store s -> after (evict rm downTo s) clean_store.
Proof.
  intros Hwf H. rewrite evict_unfold.
  eapply after_mono;
    [|apply (for_of_entries_after (fun s' => wf s' ∧ clean_store s'))]; [|..|done].
  - intros s' K. apply K.
  - intros k c s1 [Hwf1 K] Hg. unfold evict_body, bind, reads.
    destruct (Qltb _ _); [|done].
    pose proof (wf_delete rm k (Some c) s1 (or_intror Hg) Hwf1) as W.
    pose proof (clean_store_delete k (Some c) s1 (or_intror Hg) Hwf1 K) as Z.
    destruct (delete rm k (Some c) s1) as [[] s2|e s2|]; done.
Qed.

Lemma clean_store_cleaner_tick usage s :
  wf s -> clean_store s -> after (cleaner_tick rm usage s) clean_store.
Proof.
  intros Hwf H. unfold cleaner_tick, bind, reads.
  destruct (_cleanerTimer s), (_cleaner s); try done.
  - unfold clean_absolute. apply clean_store_logged. unfold bind, reads.
    destruct (Qltb _ _); [by apply clean_store_evict|done].
  - unfold clean_ratio. apply clean_store_logged. unfold bind.
    destruct usage as [u|]; simpl; [|done].
    apply clean_store_logged. destruct (ratio_lt _ _ _); [|done].
    unfold bind, reads. by apply clean_store_evict.
Qed.

Lemma clean_store_fire t s : wf s -> clean_store s -> after (fire rm t s) clean_store.
Proof.
  intros Hwf H. rewrite fire_eq by done.
  destruct (timers s !! t) as [tm|] eqn:E; [|done].
  destruct (decide (t_status tm = Armed)) as [Ha|]; [|done].
  destruct (deadline tm <=? clock s); [|done].
  apply clean_store_logged. apply clean_store_delete; [|done..].
  right. destruct (wf_timer s t tm Hwf E) as [_ K]. by destruct (K Ha).
Qed.

End CleanStoreBackground.

Lemma clean_store_step a s : wf s -> clean_store s -> after (step a s) clean_store.
Proof.
  intros Hwf H. destruct a; simpl in *.
  - rewrite set_eq. by apply clean_store_prepareWrite.
  - rewrite move_eq. by apply clean_store_prepareWrite.
  - by apply clean_store_setGroup.
  - unfold bind. pose proof (clean_store_get key s Hwf H) as K. destruct (get key s); done.
  - unfold bind. pose proof (clean_store_get key s Hwf H) as K.
    change (getStream key s) with (get key s). destruct (get key s); done.
  - done.
  - apply clean_store_delete; auto.
  - by apply clean_store_empty.
  - unfold destroy, bind, modify. apply clean_store_empty.
    + by apply (wf_ext s).
    + by apply (clean_store_ext s).
  - by apply clean_store_cleaner_tick.
  - by apply clean_store_fire.
  - unfold elapse, modify. simpl. by apply (clean_store_ext s).
Qed.

Lemma clean_store_run l s : wf s -> clean_store s -> clean_store (run l s).
Proof.
  intros Hwf H.
  apply (run_invariant clean_store (fun _ => True)); [|by apply Forall_true|done..].
  intros a s1 _. apply clean_store_step.
Qed.

Lemma clean_store_initial o dir now : clean_store (initial o dir now).
Proof.
  unfold initial. destruct (new_cleaner o). split; [apply NoDup_nil_2|].
  split; simpl; intros x Hx; by apply elem_of_nil in Hx.
Qed.

(** ** What a deletion that returns has taken along *)

Section DeleteReturns.
Variable rm : nat -> bool.

Lemma for_of_delete_gone l :
  forall s s2, NoDup (keys s) ->
    for_of l (fun item => delete rm item None) s = Ret tt s2 ->
    survives s s2 ∧ forall k, k ∈ l -> k ∉ keys s2.
Proof.
  induction l as [|x l IH]; intros s s2 Hnd Hr; simpl in Hr.
  - injection Hr as <-. split; [apply survives_refl|]. intros k Hk. by apply elem_of_nil in Hk.
  - unfold bind in Hr.
    pose proof (delete_key_gone rm x None s (or_introl eq_refl)) as G.
    pose proof (delete_keeps_delete rm x None s (or_introl eq_refl)) as K.
    destruct (delete rm x None s) as [[] s1|e s1|]; simpl in *; [|done|done].
    destruct K as (_ & _ & KS).
    destruct (IH s1 s2 (survives_NoDup s s1 KS Hnd) Hr) as [S2 Hl].
    split; [by apply (survives_trans s s1)|].
    intros k Hk. apply elem_of_cons in Hk as [->|Hk]; [|by apply Hl].
    intros Hin. apply G. by apply (survives_keys s1 s2).
Qed.

Lemma delete_returned key c s s' :
  NoDup (keys s) -> Map_get key (_cacheItems s) = Some c ->
  delete rm key None s = Ret tt s' ->
  (key ∉ keys s') ∧ (forall k, k ∈ default [] (related (item_of s c)) -> k ∉ keys s').
Proof.
  intros Hnd Hg Hr.
  pose proof (delete_key_gone rm key None s (or_introl eq_refl)) as G.
  rewrite Hr in G. simpl in G. split; [done|].
  rewrite (delete_present rm key c s Hg) in Hr.
  destruct (for_of _ _ (detach key c s)) as [[] s2|e s2|] eqn:E; simpl in Hr; [|done|done].
  assert (Hnd1 : NoDup (keys (detach key c s))).
  { eapply survives_NoDup; [apply (delete_keeps_detach key c s)|done]. }
  destruct (for_of_delete_gone _ _ _ Hnd1 E) as [_ Hl].
  pose proof (remove_artifact_keys rm c s2) as Hk. rewrite Hr in Hk. simpl in Hk.
  intros k Hin. rewrite Hk. by apply Hl.
Qed.

Lemma delete_unrelated key c s :
  Map_get key (_cacheItems s) = Some c -> default [] (related (item_of s c)) = [] ->
  after (delete rm key None s) (fun s' => _cacheItems s' = Map_delete key (_cacheItems s)).
Proof.
  intros Hg Hrel. rewrite (delete_present rm key c s Hg), Hrel. simpl.
  pose proof (remove_artifact_cacheItems rm c s (detach key c s)) as E.
  rewrite detach_cacheItems in E.
  destruct (remove_artifact rm c (detach key c s)) as [[] s2|e s2|]; simpl in *; done.
Qed.

End DeleteReturns.

(** * Further properties of the class *)

(** ** The size getter *)

(** X1. As long as the store removes every artifact it is asked to remove,
    [size] is the sum of the recorded sizes of the indexed entries, after
    any sequence of writes (successful or not), reads, deletions, [empty],
    [destroy], cleaner ticks and timers running on a new instance. *)
Theorem X1_size_is_sum_of_entries (o : Options.t) (dir : string) (now : Z)
    (acts : list Action) (Hrm : Forall reliable acts) :
  let s := run acts (initial o dir now) in
  size s = sum_sizes s (_cacheItems s).
Proof.
  cbv zeta. apply size_consistent_run; [done|apply wf_initial|apply size_consistent_initial].
Qed.

Lemma X1_size_witness :
  Forall reliable busy_day ∧
  size (run busy_day fresh) = sum_sizes (run busy_day fresh) (_cacheItems (run busy_day fresh)).
Proof.
  assert (H : Forall reliable busy_day).
  { unfold busy_day. repeat (apply Forall_cons; split; [by simpl|]). apply Forall_nil_2. }
  split; [exact H|].
  exact (X1_size_is_sum_of_entries Options.none "/tmp/NodeDiskCache_1" 0 busy_day H).
Defined.

(** ** [destroy] *)

(** X2. After [destroy], on an instance with any history, nothing is left
    scheduled: the index is empty, the cleaner interval is cleared and
    every timeout the instance ever created is cleared, so no timer
    callback does anything however much time passes. The instance stays
    usable, but whatever is called afterwards, the cleaner interval stays
    cleared and a tick does nothing: entries written after [destroy] are
    never evicted by the volume policy. *)
Theorem X2_destroy_leaves_nothing_scheduled (o : Options.t) (dir : string) (now : Z)
    (before later : list Action) (rm : nat -> bool) :
  let s := run (before ++ [ADestroy rm]) (initial o dir now) in
  _cacheItems s = [] ∧
  _cleanerTimer s = None ∧
  nothing_armed s ∧
  (forall rm' t ms, run [AElapse ms; AFire rm' t] s = exec (AElapse ms) s) ∧
  (forall rm' usage, cleaner_tick rm' usage (run later s) = Ret tt (run later s)).
Proof.
  cbv zeta. rewrite run_app.
  set (s0 := run before (initial o dir now)).
  assert (Hwf0 : wf s0) by apply wf_run, wf_initial.
  destruct (destroy_result rm s0 Hwf0) as (s' & Hd & Hwf' & Hidx & Hct).
  assert (Hs : run [ADestroy rm] s0 = s').
  { unfold run. simpl. unfold exec. simpl. by rewrite Hd. }
  rewrite Hs. pose proof (nothing_armed_empty_index s' Hwf' Hidx) as Hna.
  split; [done|]. split; [done|]. split; [done|]. split.
  - intros rm' t ms. unfold run. simpl. unfold exec at 1. simpl.
    rewrite fire_nothing_armed; [done|].
    intros t' tm. unfold exec, elapse, modify. simpl. apply Hna.
  - intros rm' usage. apply cleaner_tick_cleared.
    destruct (keeps_config_run later s' Hwf') as (_ & _ & _ & _ & [K|K]); congruence.
Qed.

(** ** Timers and artifacts of the indexed entries *)

(** X3. On an instance with any history, a timeout that can still run
    belongs to an entry that is indexed: the index has the timer's key, on
    the very item the callback holds, and that item holds this timer. No
    key has two timeouts that can still run. So a timeout never deletes an
    entry written after it was set up, and every timeout of an entry that
    was deleted or written again has been cancelled. *)
Theorem X3_armed_timer_belongs_to_entry (o : Options.t) (dir : string) (now : Z)
    (acts : list Action) (t : nat) (tm : Timer)
    (Ht : timers (run acts (initial o dir now)) !! t = Some tm)
    (Ha : t_status tm = Armed) :
  let s := run acts (initial o dir now) in
  has (t_key tm) s = true ∧
  Map_get (t_key tm) (_cacheItems s) = Some (t_cache tm) ∧
  timeout (item_of s (t_cache tm)) = Some t ∧
  (forall t' tm', timers s !! t' = Some tm' -> t_status tm' = Armed ->
     t_key tm' = t_key tm -> t' = t).
Proof.
  cbv zeta. set (s := run acts (initial o dir now)) in *.
  assert (Hwf : wf s) by apply wf_run, wf_initial.
  destruct (wf_timer s t tm Hwf Ht) as [_ H]. destruct (H Ha) as [Hg Hto]. simpl in *.
  split; [apply Map_has_true, Map_get_is_Some; eauto|].
  split; [done|]. split; [done|].
  intros t' tm' Ht' Ha' Hk.
  destruct (wf_timer s t' tm' Hwf Ht') as [_ H']. destruct (H' Ha') as [Hg' Hto']. simpl in *.
  rewrite Hk, Hg in Hg'. injection Hg' as Hc. rewrite <- Hc, Hto in Hto'. congruence.
Qed.

Lemma X3_armed_timer_witness :
  timers (run [ASet (stores 5) "k" (Some 50) (Some true)] (initial Options.none "/tmp/c" 0)) !! 0%nat
    = Some (mkTimer "k" 0 50 0 Armed) ∧
  has "k" (run [ASet (stores 5) "k" (Some 50) (Some true)] (initial Options.none "/tmp/c" 0)) = true.
Proof.
  split; [reflexivity|].
  destruct (X3_armed_timer_belongs_to_entry Options.none "/tmp/c" 0
              [ASet (stores 5) "k" (Some 50) (Some true)] 0%nat (mkTimer "k" 0 50 0 Armed)
              eq_refl eq_refl) as [H _].
  exact H.
Defined.

(** X4. On an instance with any history, two different keys of the index
    never share an artifact: their file names differ, and both were handed
    out by the counter. *)
Theorem X4_keys_never_share_a_file (o : Options.t) (dir : string) (now : Z)
    (acts : list Action) (k1 k2 : string) (c1 c2 : nat)
    (H1 : Map_get k1 (_cacheItems (run acts (initial o dir now))) = Some c1)
    (H2 : Map_get k2 (_cacheItems (run acts (initial o dir now))) = Some c2)
    (Hne : k1 ≠ k2) :
  let s := run acts (initial o dir now) in
  fileName (item_of s c1) ≠ fileName (item_of s c2) ∧
  (fileName (item_of s c1) < _fileNameIndex s)%nat ∧
  (fileName (item_of s c2) < _fileNameIndex s)%nat.
Proof.
  cbv zeta. set (s := run acts (initial o dir now)) in *.
  assert (Hwf : wf s) by apply wf_run, wf_initial.
  pose proof (wf_get_valid s k1 c1 Hwf H1) as V1.
  pose proof (wf_get_valid s k2 c2 Hwf H2) as V2.
  rewrite !wf_item_name by done. rewrite <- (wf_counter s Hwf).
  split; [|done]. intros ->. apply Hne. by apply (wf_get_inj s k1 k2 c2).
Qed.

Lemma X4_keys_never_share_witness :
  Map_get "a" (_cacheItems two_entries) = Some 0%nat ∧
  Map_get "b" (_cacheItems two_entries) = Some 1%nat ∧
  "a" ≠ "b" ∧
  fileName (item_of two_entries 0) ≠ fileName (item_of two_entries 1).
Proof.
  assert (Hne : "a" ≠ "b") by discriminate.
  split; [reflexivity|]. split; [reflexivity|]. split; [exact Hne|].
  destruct (X4_keys_never_share_a_file Options.none "/tmp/NodeDiskCache_1" 0
              [ASet (stores 5) "a" None None; ASet (stores 7) "b" None None]
              "a" "b" 0%nat 1%nat eq_refl eq_refl Hne) as [H _].
  exact H.
Defined.

(** ** Reads *)


(** ** Writes *)

(** X6. When the store writes the artifact, [set] and [move] return, on a
    well-formed instance, and leave the key as the newest entry of the
    index, the other keys in the order they had. The recorded size of the
    key is the size found by [stat]; [size] has gone down by the size
    recorded before for the key (0 for a new key) and up by the new one, so
    writing a key again does not count it twice. The other keys keep their
    presence and their recorded size. A [get] of the key then returns the
    file that was written. *)
Theorem X6_write_then_read (store : Writer) (key : string) (t : option Z) (r : option bool)
    (rel : option (list string)) (s : Cache) (sz : Z)
    (Hwf : wf s) (Hstore : store (write_target key s) = Written sz) :
  exists s',
    set store key t r rel s = Ret tt s' ∧
    (forall from, move store key from t r rel s = Ret tt s') ∧
    keys s' = filter (fun k => k ≠ key) (keys s) ++ [key] ∧
    recorded_size key s' = sz ∧
    size s' = size s - recorded_size key s + sz ∧
    (forall k, k ≠ key -> has k s' = has k s ∧ recorded_size k s' = recorded_size k s) ∧
    (exists s'', get key s' = Ret (Some (write_target key s)) s'').
Proof.
  destruct (prepareWrite_result store key (default (_defaultTimeout s) t)
              (default (_defaultRefreshTimeoutWhenGet s) r) rel s sz Hwf Hstore)
    as (s' & c & Hw & Hwf' & Hidx & Hname & Hsize & Hcur & Hothers & _).
  assert (Hg : Map_get key (_cacheItems s') = Some c).
  { rewrite Hidx. apply Map_get_touch_eq. }
  exists s'. split; [by rewrite set_eq|]. split; [intros from; by rewrite move_eq|].
  split; [|split; [|split; [|split]]].
  - unfold keys. rewrite Hidx, fmap_app, Map_delete_fst. done.
  - unfold recorded_size. by rewrite Hg.
  - done.
  - intros k Hne.
    assert (Hk : Map_get k (_cacheItems s') = Map_get k (_cacheItems s)).
    { rewrite Hidx. by apply Map_get_touch_ne. }
    split; [by apply has_Map_get|]. unfold recorded_size. rewrite Hk.
    destruct (Map_get k (_cacheItems s)) as [c'|] eqn:E; [|done].
    by rewrite (Hothers k c' Hne E).
  - rewrite get_eq, Hg, refresh_on_read_eq. rewrite <- Hname.
    destruct (refreshTimeoutWhenGet (item_of s' c)), (timeout (item_of s' c)); eauto.
Qed.

Lemma X6_write_then_read_witness :
  wf two_entries ∧
  stores 9 (write_target "a" two_entries) = Written 9 ∧
  exists s', set (stores 9) "a" None None None two_entries = Ret tt s' ∧
             keys s' = ["b"; "a"] ∧ size s' = 16.
Proof.
  assert (Hwf : wf two_entries) by (apply (bool_decide_unpack _); vm_compute; reflexivity).
  split; [exact Hwf|]. split; [reflexivity|].
  destruct (X6_write_then_read (stores 9) "a" None None None two_entries 9 Hwf eq_refl)
    as (s' & H1 & _ & H2 & _ & H3 & _).
  exists s'. split; [exact H1|]. split; [exact H2|exact H3].
Defined.

(** ** Expiration *)



(** X8. A [set] or [move] on an indexed key whose writer or [stat] fails
    has cancelled the timeout of the entry before the write and sets up no
    new one. The entry stays indexed, and from then on it no longer expires:
    if no other entry lists the key as related, no sequence of reads, of
    time passing and of timers running removes it. *)
Theorem X8_failed_overwrite_cancels_expiry (store : Writer) (key : string) (t : option Z)
    (r : option bool) (rel : option (list string)) (s s1 : Cache) (e : Error)
    (acts : list Action)
    (Hwf : wf s)
    (Hhas : has key s = true)
    (Hfail : set store key t r rel s = Throw e s1 ∨
             exists from, move store key from t r rel s = Throw e s1)
    (Halone : unlisted key s)
    (Hpassive : forallb passive acts = true) :
  no_own_timer key s1 ∧
  has key (run acts s1) = true ∧
  Map_get key (_cacheItems (run acts s1)) = Map_get key (_cacheItems s).
Proof.
  assert (Hw : _prepareWrite store key (default (_defaultTimeout s) t)
                 (default (_defaultRefreshTimeoutWhenGet s) r) rel s = Throw e s1).
  { destruct Hfail as [H|[from H]]; [by rewrite set_eq in H|by rewrite move_eq in H]. }
  apply Map_has_true, Map_get_is_Some in Hhas as [c Hg].
  pose proof (failed_write_settled _ _ _ _ _ _ _ _ c Hwf Hg Halone Hw) as Hs.
  destruct (settled_run key c acts s1 Hpassive Hs) as (_ & Hg' & _).
  split; [apply Hs|]. split; [by apply (has_get key c)|]. congruence.
Qed.

Lemma X8_failed_overwrite_witness :
  wf once_timed ∧
  has "k" once_timed = true ∧
  (exists e s1, set store_fails "k" None None None once_timed = Throw e s1 ∧
                has "k" (run reads_and_time s1) = true).
Proof.
  assert (Hwf : wf once_timed) by (apply (bool_decide_unpack _); vm_compute; reflexivity).
  assert (Hhas : has "k" once_timed = true) by reflexivity.
  assert (Hu : unlisted "k" once_timed).
  { intros k' c' Hg Hne. change (_cacheItems once_timed) with [("k", 0%nat)] in Hg.
    simpl in Hg. destruct (decide ("k" = k')); [by subst|done]. }
  assert (Hp : forallb passive reads_and_time = true) by reflexivity.
  split; [exact Hwf|]. split; [exact Hhas|].
  eexists _, _. split; [vm_compute; reflexivity|].
  refine (proj1 (proj2 (X8_failed_overwrite_cancels_expiry store_fails "k" None None None
                          once_timed _ _ reads_and_time Hwf Hhas (or_introl _) Hu Hp))).
  vm_compute. reflexivity.
Defined.

(** ** The volume policies *)

(** X9. With [volumeUpLimitRate] at 1 or above (and no positive
    [volumeUpLimit]) the constructor caps the rate at 1, so the share of the
    volume to keep available is 0: whatever the instance has done, a tick
    whose probe reports a volume with non-negative numbers evicts nothing
    and changes nothing, however full the volume is. *)
Theorem X9_full_rate_never_evicts (o : Options.t) (rate : Q) (dir : string) (now : Z)
    (acts : list Action) (rm : nat -> bool) (u : DiskUsage)
    (Hlimit : positive_opt (Options.volumeUpLimit o) = false)
    (Hrate : Options.volumeUpLimitRate o = Some rate)
    (Hfull : (1 <= rate)%Q)
    (Hav : 0 <= available u) (Htot : 0 <= total u) :
  let s := run acts (initial o dir now) in
  cleaner_tick rm (Some u) s = Ret tt s.
Proof.
  cbv zeta. set (s := run acts (initial o dir now)).
  destruct (keeps_config_run acts (initial o dir now) (wf_initial o dir now))
    as (_ & _ & _ & Hc & Ht).
  fold s in Hc, Ht. rewrite cleaner_tick_eq.
  assert (Hnew : new_cleaner o =
            (SpaceRatio (Qmin' rate 1) (1 - Qmin' rate 1)
               (Qmin' (default (1 # 10)%Q (Options.cleanAmount o)) 1),
             Some (default (60 * 1000) (Options.cleanInterval o)))).
  { unfold new_cleaner. rewrite Hlimit, Hrate. simpl.
    assert (Qltb 0 rate = true) as ->; [|done].
    apply Qltb_true. eapply Qlt_le_trans; [|exact Hfull]. done. }
  unfold initial in Hc, Ht. rewrite Hnew in Hc, Ht. simpl in Hc, Ht.
  rewrite Hc. destruct (_cleanerTimer s); [|done].
  rewrite clean_ratio_eq. rewrite ratio_lt_nonneg; [done..|].
  pose proof (Qmin'_ge_1 rate Hfull) as H1.
  apply Qle_minus_iff in H1. apply Qle_minus_iff.
  eapply Qle_trans; [exact H1|]. apply Qle_lteq. right. ring.
Qed.

Lemma X9_full_rate_witness :
  positive_opt (Options.volumeUpLimit whole_volume) = false ∧
  Options.volumeUpLimitRate whole_volume = Some 2%Q ∧
  (1 <= 2)%Q ∧ 0 <= available volume_full ∧ 0 <= total volume_full ∧
  cleaner_tick rm_ok (Some volume_full) on_whole_volume = Ret tt on_whole_volume.
Proof.
  assert (H1 : (1 <= 2)%Q) by (vm_compute; discriminate).
  assert (H2 : 0 <= available volume_full) by (vm_compute; discriminate).
  assert (H3 : 0 <= total volume_full) by (vm_compute; discriminate).
  split; [reflexivity|]. split; [reflexivity|]. split; [exact H1|].
  split; [exact H2|]. split; [exact H3|].
  exact (X9_full_rate_never_evicts whole_volume 2%Q "/tmp/NodeDiskCache_5" 0
           [ASet (stores 100) "a" None None] rm_ok volume_full eq_refl eq_refl H1 H2 H3).
Defined.

(** ** The registry of cache directories *)

(** X10. Whatever instances a process creates and whatever it calls on
    them, the registry lists exactly the directories of the instances that
    were constructed, in the order of their construction and each one once:
    no two instances share a directory, and an instance never changes its
    directory. A constructor that throws, because the directory is taken or
    because it cannot be emptied, registers nothing and creates nothing. *)
Theorem X10_registry_lists_the_instances (acts : list PAction) :
  let p := prun acts (mkProcess [] []) in
  _cacheDirList p = _cacheDir <$> instances p ∧
  NoDup (_cacheDirList p) ∧
  (forall o tmp ok,
     default tmp (Options.cacheDir o) ∈ _cacheDirList p ∨ ok = false ->
     pstep (PNew o tmp ok) p = p).
Proof.
  cbv zeta. set (p := prun acts (mkProcess [] [])).
  assert (H : registry_ok p).
  { apply registry_ok_prun. split; [done|]. split; [apply NoDup_nil_2|apply Forall_nil_2]. }
  destruct H as (H1 & H2 & _). split; [done|]. split; [done|].
  intros o tmp ok Hfail. simpl. unfold constructor.
  destruct (bool_decide _) eqn:E; [by destruct p|].
  apply bool_decide_eq_false in E. destruct Hfail as [Hin| ->]; [done|]. by destruct p.
Qed.

(** ** A deletion that fails *)

(** X11. When [delete] of an indexed key throws, what it throws is the
    failure of a removal by the store. The key has left the index all the
    same, and the entries that are still indexed are in the order they had.
    The artifacts removed and the sizes subtracted from [_currentSize] are
    those of entries that left the index, and never those of the entry the
    call was for: its bytes stay counted. Calling [delete] again for the key
    does nothing, whatever the store would now answer. *)
Theorem X11_failed_delete_keeps_the_bytes (rm : nat -> bool) (key : string) (c : nat)
    (s s' : Cache) (e : Error)
    (Hkeys : NoDup (keys s))
    (Hget : Map_get key (_cacheItems s) = Some c)
    (Hthrow : delete rm key None s = Throw e s') :
  (exists f, e = RemoveFailed f ∧ rm f = false) ∧
  has key s' = false ∧
  survives s s' ∧
  (exists D, removed_of D s s' ∧ (forall x, x ∈ D -> x ∈ gone s s') ∧ (key, c) ∉ D) ∧
  (forall rm', delete rm' key None s' = Ret tt s').
Proof.
  pose proof (delete_Deletes rm key None s) as HD.
  pose proof (delete_key_gone rm key None s (or_introl eq_refl)) as G.
  pose proof (delete_keeps_delete rm key None s (or_introl eq_refl)) as K.
  rewrite Hthrow in *. simpl in G, K.
  destruct (proj1 (Deletes_thrown rm) _ _ _ _ HD (or_introl eq_refl) Hkeys e s' eq_refl)
    as (Hf & D & HR & _ & HI).
  split; [done|]. split; [by apply Map_has_false|]. split; [apply K|]. split.
  - exists D. split; [done|]. split; [intros x Hx; by apply HI|].
    intros Hin. by destruct (HI _ Hin) as [_ Hne].
  - intros rm'. apply delete_absent. by apply Map_get_None.
Qed.

Lemma X11_failed_delete_witness :
  NoDup (keys two_entries) ∧
  Map_get "a" (_cacheItems two_entries) = Some 0%nat ∧
  exists e s', delete (rm_fails_on 0) "a" None two_entries = Throw e s' ∧
               has "a" s' = false ∧ delete rm_ok "a" None s' = Ret tt s'.
Proof.
  assert (Hk : NoDup (keys two_entries)) by (apply (bool_decide_unpack _); vm_compute; reflexivity).
  split; [exact Hk|]. split; [reflexivity|].
  eexists _, _. split; [vm_compute; reflexivity|].
  refine (let H := X11_failed_delete_keeps_the_bytes (rm_fails_on 0) "a" 0%nat two_entries
                     _ _ Hk eq_refl _ in conj (proj1 (proj2 H)) (proj2 (proj2 (proj2 (proj2 H))) rm_ok)).
  vm_compute. reflexivity.
Defined.

(** ** Eviction order *)

(** X12. A tick of the cleaner never throws, under either policy and
    whatever the store and the probe answer. It adds nothing to the index
    and does not reorder it: the entries still indexed afterwards are in the
    order they had. When no indexed entry has related keys, the entries
    that left are exactly the [n] oldest ones, for some [n]: eviction never
    skips an older entry to remove a newer one. *)
Theorem X12_eviction_takes_the_oldest (rm : nat -> bool) (usage : option DiskUsage)
    (s : Cache) (Hkeys : NoDup (keys s)) :
  exists s',
    cleaner_tick rm usage s = Ret tt s' ∧
    survives s s' ∧
    ((forall k c, Map_get k (_cacheItems s) = Some c ->
        default [] (related (item_of s c)) = []) ->
     exists n, _cacheItems s' = drop n (_cacheItems s)).
Proof.
  assert (Hplain : (forall k c, Map_get k (_cacheItems s) = Some c ->
                      default [] (related (item_of s c)) = []) ->
                   forall e, e ∈ _cacheItems s -> default [] (related (item_of s e.2)) = []).
  { intros H [k c] He. apply (H k). by apply Map_get_NoDup. }
  assert (Hsame : exists s', Ret tt s = Ret tt s' ∧ survives s s' ∧
            ((forall k c, Map_get k (_cacheItems s) = Some c ->
                default [] (related (item_of s c)) = []) ->
             exists n, _cacheItems s' = drop n (_cacheItems s))).
  { exists s. split; [done|]. split; [apply survives_refl|]. intros _. by exists 0%nat. }
  assert (Hevict : forall downTo,
            exists s',
              match evict rm downTo s with
              | Ret _ s1 => Ret tt s1
              | Throw e s1 => Ret tt (with_console (fun l => l ++ [CleanFailed e]) s1)
              | OutOfFuel => OutOfFuel
              end = Ret tt s' ∧ survives s s' ∧
              ((forall k c, Map_get k (_cacheItems s) = Some c ->
                  default [] (related (item_of s c)) = []) ->
               exists n, _cacheItems s' = drop n (_cacheItems s))).
  { intros downTo. pose proof (evict_oldest rm downTo s Hkeys) as H.
    destruct (evict rm downTo s) as [[] s1|e s1|]; [| |done].
    - exists s1. split; [done|]. split; [apply H|]. intros Hp. apply H. by apply Hplain.
    - eexists. split; [done|]. split; [apply H|]. intros Hp. apply H. by apply Hplain. }
  rewrite cleaner_tick_eq. destruct (_cleanerTimer s), (_cleaner s); try done.
  - rewrite clean_absolute_eq. destruct (Qltb _ _); [apply Hevict|done].
  - rewrite clean_ratio_eq. destruct usage as [u|].
    + destruct (ratio_lt _ _ _); [apply Hevict|done].
    + eexists. split; [done|]. split; [exact (survives_refl s)|]. intros _. by exists 0%nat.
Qed.

Lemma X12_eviction_witness :
  NoDup (keys over_ceiling) ∧
  exists s', cleaner_tick rm_ok None over_ceiling = Ret tt s' ∧ survives over_ceiling s'.
Proof.
  assert (Hk : NoDup (keys over_ceiling)) by (apply (bool_decide_unpack _); vm_compute; reflexivity).
  split; [exact Hk|].
  destruct (X12_eviction_takes_the_oldest rm_ok None over_ceiling Hk) as (s' & H1 & H2 & _).
  exists s'. split; [exact H1|exact H2].
Defined.

(** ** Expiration and reads *)



(** ** A batch that fails half way *)

(** X14. [setGroup] is not all or nothing: when the writer of a member
    fails, the call throws that failure and stops. The members before it
    stay written, each with the keys of the whole batch as related keys,
    so also with the keys that were never written; the later members are
    not written, and every key that is not one of the members written is
    indexed as before. *)
Theorem X14_setGroup_stops_at_first_failure (written : list GroupItem) (bad : GroupItem)
    (rest : list GroupItem) (s : Cache)
    (Hwf : wf s)
    (Hwritten : forall item f, item ∈ written -> exists sz, gi_store item f = Written sz)
    (Hbad : forall f, gi_store bad f = WriterFails) :
  let items := written ++ bad :: rest in
  exists f s',
    setGroup items s = Throw (WriteFailed f) s' ∧
    (forall item, item ∈ written -> grouped (map gi_key items) s' (gi_key item)) ∧
    (forall k, k ∉ map gi_key written ->
       Map_get k (_cacheItems s') = Map_get k (_cacheItems s)).
Proof.
  cbv zeta. set (R := map gi_key (written ++ bad :: rest)).
  destruct (setGroup_loop R written s Hwf Hwritten) as (s1 & Hloop & Hwf1 & _ & Hgrouped).
  pose proof (setGroup_loop_frame R written s) as Hframe. rewrite Hloop in Hframe.
  simpl in Hframe.
  unfold setGroup. fold R. rewrite for_of_app, Hloop. simpl. unfold bind.
  rewrite setGroup_body_eq, _prepareWrite_eq. cbv zeta. rewrite Hbad.
  eexists _, _. split; [done|]. split.
  - intros item Hin. apply grouped_failed_write; [done|]. by apply Hgrouped.
  - intros k Hk. rewrite reserved_cacheItems. by apply Hframe.
Qed.

Lemma X14_setGroup_failure_witness :
  wf fresh ∧
  (forall item f, item ∈ batch_written -> exists sz, gi_store item f = Written sz) ∧
  (forall f, gi_store batch_bad f = WriterFails) ∧
  exists f s', setGroup (batch_written ++ batch_bad :: batch_rest) fresh
               = Throw (WriteFailed f) s' ∧
               grouped ["a"; "b"; "c"] s' "a".
Proof.
  assert (Hwf : wf fresh) by (apply (bool_decide_unpack _); vm_compute; reflexivity).
  assert (Hw : forall item f, item ∈ batch_written -> exists sz, gi_store item f = Written sz).
  { intros item f Hin. apply list_elem_of_singleton in Hin. subst item. by exists 1. }
  assert (Hb : forall f, gi_store batch_bad f = WriterFails) by done.
  split; [exact Hwf|]. split; [exact Hw|]. split; [exact Hb|].
  destruct (X14_setGroup_stops_at_first_failure batch_written batch_bad batch_rest fresh
              Hwf Hw Hb) as (f & s' & H1 & H2 & _).
  exists f, s'. split; [exact H1|].
  apply (H2 (mkGroupItem "a" None None None (stores 1))). apply list_elem_of_here.
Defined.

(** ** What an action leaves alone *)

(** X15. An entry changes only by a write to its key. After any sequence
    of actions none of which is a [set], a [move] or a [setGroup] naming the
    key, if the key is indexed, then it was indexed before, on the same
    item, and the item is what it was: same file, same recorded size, same
    refresh flag, same related keys, same timeout handle. A write to another
    key, successful or not, a read, a deletion, a tick or a timer can take
    an entry out of the index, but never alters one and never brings one
    in. *)
Theorem X15_entries_change_only_by_writes (key : string) (acts : list Action) (s : Cache)
    (c : nat)
    (Hwf : wf s)
    (Hnone : Forall (fun a => key ∉ written_keys a) acts)
    (Hafter : Map_get key (_cacheItems (run acts s)) = Some c) :
  Map_get key (_cacheItems s) = Some c ∧ item_of (run acts s) c = item_of s c.
Proof. by apply (untouched_run key acts s Hnone Hwf). Qed.

Lemma X15_entries_change_witness :
  wf two_entries ∧
  Forall (fun a => "a" ∉ written_keys a) around_a ∧
  Map_get "a" (_cacheItems (run around_a two_entries)) = Some 0%nat ∧
  item_of (run around_a two_entries) 0 = item_of two_entries 0.
Proof.
  assert (Hwf : wf two_entries) by (apply (bool_decide_unpack _); vm_compute; reflexivity).
  assert (Hn : Forall (fun a => "a" ∉ written_keys a) around_a)
    by (apply (bool_decide_unpack _); vm_compute; reflexivity).
  assert (Ha : Map_get "a" (_cacheItems (run around_a two_entries)) = Some 0%nat)
    by (vm_compute; reflexivity).
  split; [exact Hwf|]. split; [exact Hn|]. split; [exact Ha|].
  exact (proj2 (X15_entries_change_only_by_writes "a" around_a two_entries 0%nat Hwf Hn Ha)).
Defined.

(** ** Groups and expiration *)

(** X16. The members of a group expire together. When the keys of [R]
    that are indexed all have [R] as their related keys (what [setGroup]
    leaves for its batch) and the timeout of one of them is due, running it
    takes every key of [R] out of the index, also when the store fails to
    remove an artifact, and no other key: the index afterwards is the
    index before without the keys of [R]. *)
Theorem X16_group_expires_together (rm : nat -> bool) (R : list string) (t : nat)
    (tm : Timer) (s : Cache)
    (Hwf : wf s)
    (HG : is_group R s)
    (Ht : timers s !! t = Some tm)
    (Ha : t_status tm = Armed)
    (Hk : t_key tm ∈ R)
    (Hdue : deadline tm <= clock s) :
  _cacheItems (exec (AFire rm t) s) = filter (fun e => e.1 ∉ R) (_cacheItems s) ∧
  (forall k, k ∈ R -> has k (exec (AFire rm t) s) = false) ∧
  (forall k, k ∉ R -> has k (exec (AFire rm t) s) = has k s).
Proof.
  destruct (wf_timer s t tm Hwf Ht) as [_ H]. destruct (H Ha) as [Hg _]. simpl in Hg.
  assert (Hidx : _cacheItems (exec (AFire rm t) s)
                 = filter (fun e => e.1 ∉ R) (_cacheItems s)).
  { unfold exec. simpl. rewrite fire_eq by done. rewrite Ht.
    destruct (decide (t_status tm = Armed)) as [_|]; [|done].
    assert ((deadline tm <=? clock s) = true) as -> by lia.
    unfold try_catch, console_error, modify. rewrite (delete_given rm _ _ s Hg).
    pose proof (delete_group rm R (t_key tm) s (wf_keys s Hwf) HG Hk
                  ltac:(apply Map_get_is_Some; eauto)) as D.
    pose proof (delete_terminates rm (t_key tm) None s) as T.
    destruct (delete rm (t_key tm) None s) as [[] s2|e s2|]; simpl in *; [apply D|apply D|done]. }
  split; [done|]. split.
  - intros k Hin. apply Map_has_false. rewrite Hidx. intros Hin'.
    apply list_elem_of_fmap in Hin' as (e & -> & He).
    by apply list_elem_of_filter in He as [He _].
  - intros k Hout. unfold has.
    destruct (Map_has k (_cacheItems s)) eqn:E.
    + apply Map_has_true in E. apply Map_has_true. rewrite Hidx.
      apply list_elem_of_fmap in E as (e & -> & He).
      apply list_elem_of_fmap. exists e. split; [done|]. by apply list_elem_of_filter.
    + apply Map_has_false in E. apply Map_has_false. rewrite Hidx. intros Hin'. apply E.
      apply list_elem_of_fmap in Hin' as (e & -> & He).
      apply list_elem_of_filter in He as [_ He]. apply list_elem_of_fmap. eauto.
Qed.

Lemma X16_group_expires_witness :
  wf grouped_ab_later ∧
  is_group ["a"; "b"] grouped_ab_later ∧
  timers grouped_ab_later !! 0%nat = Some (mkTimer "a" 0 50 0 Armed) ∧
  "a" ∈ ["a"; "b"] ∧
  deadline (mkTimer "a" 0 50 0 Armed) <= clock grouped_ab_later ∧
  has "b" (exec (AFire (rm_fails_on 1) 0) grouped_ab_later) = false.
Proof.
  assert (Hwf : wf grouped_ab_later) by (apply (bool_decide_unpack _); vm_compute; reflexivity).
  assert (HG : is_group ["a"; "b"] grouped_ab_later).
  { intros k c Hk Hg.
    change (_cacheItems grouped_ab_later) with [("a", 0%nat); ("b", 1%nat)] in Hg.
    simpl in Hg. destruct (decide ("a" = k)) as [<-|].
    - injection Hg as <-. reflexivity.
    - destruct (decide ("b" = k)) as [<-|]; [|done]. injection Hg as <-. reflexivity. }
  assert (Ht : timers grouped_ab_later !! 0%nat = Some (mkTimer "a" 0 50 0 Armed))
    by reflexivity.
  assert (Hin : "a" ∈ ["a"; "b"]) by apply list_elem_of_here.
  assert (Hd : deadline (mkTimer "a" 0 50 0 Armed) <= clock grouped_ab_later)
    by (vm_compute; discriminate).
  split; [exact Hwf|]. split; [exact HG|]. split; [exact Ht|]. split; [exact Hin|].
  split; [exact Hd|].
  destruct (X16_group_expires_together (rm_fails_on 1) ["a"; "b"] 0%nat
              (mkTimer "a" 0 50 0 Armed) grouped_ab_later Hwf HG Ht eq_refl Hin Hd)
    as (_ & H & _).
  apply H. apply list_elem_of_further, list_elem_of_here.
Defined.

(** ** The choice of the volume policy *)

(** X17. A positive [volumeUpLimit] takes precedence over
    [volumeUpLimitRate]: whatever the instance has done, its ticks never
    depend on what the disk usage probe answers, or on whether it answers
    at all. *)
Theorem X17_ceiling_ignores_disk_usage (o : Options.t) (limit : Q) (dir : string) (now : Z)
    (acts : list Action) (rm : nat -> bool) (u1 u2 : option DiskUsage)
    (Hlimit : Options.volumeUpLimit o = Some limit)
    (Hpos : (0 < limit)%Q) :
  let s := run acts (initial o dir now) in
  cleaner_tick rm u1 s = cleaner_tick rm u2 s.
Proof.
  cbv zeta. set (s := run acts (initial o dir now)).
  destruct (keeps_config_run acts (initial o dir now) (wf_initial o dir now))
    as (_ & _ & _ & Hc & _).
  fold s in Hc.
  destruct (new_cleaner_absolute o limit Hlimit Hpos) as (ca & interval & Hnew & _).
  unfold initial in Hc. rewrite Hnew in Hc. simpl in Hc.
  rewrite !cleaner_tick_eq, Hc. by destruct (_cleanerTimer s).
Qed.

Lemma X17_ceiling_witness :
  Options.volumeUpLimit only_ceiling_and_rate = Some 1000%Q ∧
  (0 < 1000)%Q ∧
  cleaner_tick rm_ok None (initial only_ceiling_and_rate "/tmp/c" 0)
  = cleaner_tick rm_ok (Some volume_full) (initial only_ceiling_and_rate "/tmp/c" 0).
Proof.
  assert (Hp : (0 < 1000)%Q) by (vm_compute; reflexivity).
  split; [reflexivity|]. split; [exact Hp|].
  exact (X17_ceiling_ignores_disk_usage only_ceiling_and_rate 1000%Q "/tmp/c" 0 [] rm_ok
           None (Some volume_full) eq_refl Hp).
Defined.

(** ** The artifacts of the store *)

(** X18. Whatever an instance has done and whatever the store answered,
    the store was never asked to remove the same artifact twice with
    success, [get] and [getStream] never return a file the instance has had
    removed, and no write, to a key that is indexed or to a new one, is
    directed at the file name of a removed artifact. *)
Theorem X18_no_removed_artifact_is_served (o : Options.t) (dir : string) (now : Z)
    (acts : list Action) :
  let s := run acts (initial o dir now) in
  NoDup (removed s) ∧
  (forall key f s', get key s = Ret (Some f) s' -> f ∉ removed s) ∧
  (forall key f s', getStream key s = Ret (Some f) s' -> f ∉ removed s) ∧
  (forall key, write_target key s ∉ removed s).
Proof.
  cbv zeta. set (s := run acts (initial o dir now)).
  assert (Hwf : wf s) by apply wf_run, wf_initial.
  destruct (clean_store_run acts (initial o dir now) (wf_initial o dir now)
              (clean_store_initial o dir now)) as (C1 & C2 & C3).
  fold s in C1, C2, C3.
  assert (Hget : forall key f s', get key s = Ret (Some f) s' -> f ∉ removed s).
  { intros key f s'. rewrite get_eq.
    destruct (Map_get key (_cacheItems s)) as [c|] eqn:Hg; [|done].
    rewrite refresh_on_read_eq.
    destruct (refreshTimeoutWhenGet (item_of s c)), (timeout (item_of s c));
      intros [= <- _]; apply (C3 (key, c)); by apply Map_get_elem. }
  split; [done|]. split; [done|]. split; [exact Hget|].
  intros key. unfold write_target.
  destruct (Map_get key (_cacheItems s)) as [c|] eqn:Hg.
  - apply (C3 (key, c)). by apply Map_get_elem.
  - intros Hin. specialize (C2 _ Hin). lia.
Qed.

(** ** Related keys *)

(** X19. When [delete] of an indexed key returns, the key is no longer
    indexed and neither is any of the keys its entry listed as related,
    whoever wrote them and whatever they list themselves. *)
Theorem X19_delete_takes_the_related_keys (rm : nat -> bool) (key : string) (c : nat)
    (s s' : Cache)
    (Hkeys : NoDup (keys s))
    (Hget : Map_get key (_cacheItems s) = Some c)
    (Hret : delete rm key None s = Ret tt s') :
  has key s' = false ∧
  (forall k, k ∈ default [] (related (item_of s c)) -> has k s' = false).
Proof.
  destruct (delete_returned rm key c s s' Hkeys Hget Hret) as [H1 H2].
  split; [by apply Map_has_false|]. intros k Hk. apply Map_has_false. by apply H2.
Qed.

Lemma X19_delete_related_witness :
  NoDup (keys grouped_ab) ∧
  Map_get "b" (_cacheItems grouped_ab) = Some 1%nat ∧
  exists s', delete rm_ok "b" None grouped_ab = Ret tt s' ∧ has "a" s' = false.
Proof.
  assert (Hk : NoDup (keys grouped_ab)) by (apply (bool_decide_unpack _); vm_compute; reflexivity).
  split; [exact Hk|]. split; [reflexivity|].
  eexists. split; [vm_compute; reflexivity|].
  refine (proj2 (X19_delete_takes_the_related_keys rm_ok "b" 1%nat grouped_ab _ Hk eq_refl _)
            "a" _).
  - vm_compute. reflexivity.
  - apply list_elem_of_here.
Defined.

(** X20. A [set] or [move] as the caller issues them (without related
    keys) replaces the related keys of the entry by none: the key leaves
    its group on its own side only. Deleting the key afterwards takes out
    that key and nothing else, while deleting another entry that lists the
    key still takes the key along. *)
Theorem X20_plain_write_leaves_the_group (store : Writer) (key : string) (t : option Z)
    (r : option bool) (rm : nat -> bool) (s s1 : Cache)
    (Hwf : wf s)
    (Hwrite : set store key t r None s = Ret tt s1 ∨
              exists from, move store key from t r None s = Ret tt s1) :
  (forall s', delete rm key None s1 = Ret tt s' ∨
              (exists e, delete rm key None s1 = Throw e s') ->
     _cacheItems s' = Map_delete key (_cacheItems s1)) ∧
  (forall m c s', m ≠ key -> Map_get m (_cacheItems s) = Some c ->
     key ∈ default [] (related (item_of s c)) ->
     delete rm m None s1 = Ret tt s' -> has key s' = false).
Proof.
  assert (Hw : _prepareWrite store key (default (_defaultTimeout s) t)
                 (default (_defaultRefreshTimeoutWhenGet s) r) None s = Ret tt s1).
  { destruct Hwrite as [H|[from H]]; [by rewrite set_eq in H|by rewrite move_eq in H]. }
  destruct (prepareWrite_returns _ _ _ _ _ _ _ Hw) as [sz Hstore].
  destruct (prepareWrite_result store key (default (_defaultTimeout s) t)
              (default (_defaultRefreshTimeoutWhenGet s) r) None s sz Hwf Hstore)
    as (s2 & c1 & Hw' & Hwf1 & Hidx & _ & _ & _ & Hothers & _ & _ & _ & Hrel & _).
  rewrite Hw in Hw'. injection Hw' as <-.
  assert (Hg : Map_get key (_cacheItems s1) = Some c1).
  { rewrite Hidx. apply Map_get_touch_eq. }
  split.
  - intros s' Hr.
    pose proof (delete_unrelated rm key c1 s1 Hg ltac:(by rewrite Hrel)) as D.
    destruct Hr as [Hr|[e Hr]]; rewrite Hr in D; exact D.
  - intros m c s' Hne Hm Hin Hr.
    assert (Hm1 : Map_get m (_cacheItems s1) = Some c).
    { rewrite Hidx. by rewrite Map_get_touch_ne. }
    destruct (delete_returned rm m c s1 s' (wf_keys s1 Hwf1) Hm1 Hr) as [_ H].
    apply Map_has_false, H. by rewrite (Hothers m c Hne Hm).
Qed.

Lemma X20_plain_write_witness :
  wf grouped_ab ∧
  set (stores 4) "b" None None None grouped_ab = Ret tt b_rewritten ∧
  (forall s', delete rm_ok "b" None b_rewritten = Ret tt s' ∨
              (exists e, delete rm_ok "b" None b_rewritten = Throw e s') ->
     _cacheItems s' = Map_delete "b" (_cacheItems b_rewritten)) ∧
  (forall s', delete rm_ok "a" None b_rewritten = Ret tt s' -> has "b" s' = false).
Proof.
  assert (Hwf : wf grouped_ab) by (apply (bool_decide_unpack _); vm_compute; reflexivity).
  assert (Hset : set (stores 4) "b" None None None grouped_ab = Ret tt b_rewritten)
    by (vm_compute; reflexivity).
  split; [exact Hwf|]. split; [exact Hset|].
  destruct (X20_plain_write_leaves_the_group (stores 4) "b" None None rm_ok
              grouped_ab b_rewritten Hwf (or_introl Hset)) as [H1 H2].
  split; [exact H1|].
  intros s'. apply (H2 "a" 0%nat); [discriminate|reflexivity|].
  vm_compute. apply list_elem_of_further, list_elem_of_here.
Defined.
